(** * PathConsensus: resolution of ambiguous gaps in contig paths

    A shallow embedding of [MergePaths/PathConsensus.cpp] and the
    properties of its gap registry, overlap merger, candidate evaluator
    and consensus builders. *)

From Stdlib Require Import ZArith NArith Ascii String Bool Lia List Sorted.
From Stdlib Require Import Floats.SpecFloat.
From Equations Require Import Equations.
Import ListNotations.

Set Implicit Arguments.
Open Scope Z_scope.

(* ===================================================================== *)
(** * Part I: the program *)
(* ===================================================================== *)

(** ** Machine integers *)

(** [unsigned] is 32 bits wide; arithmetic on it wraps. *)
Definition to_unsigned (z : Z) : Z := z mod 2 ^ 32.

(** Conversion of a 32-bit pattern to [int] (two's complement). *)
Definition to_int (z : Z) : Z := (z + 2 ^ 31) mod 2 ^ 32 - 2 ^ 31.

(** ** Assertions and fatal errors

    A failed [assert] aborts the run; [Abort] carries the asserted
    expression. *)
Inductive Result (A : Type) : Type :=
| OK (a : A)
| Abort (msg : string).
Arguments OK {A} a.
Arguments Abort {A} msg.

(** ** Characters and sequences *)

Definition Sequence := list ascii.

Definition seq (s : string) : Sequence := list_ascii_of_string s.

Definition islower (c : ascii) : bool :=
  let n := N_of_ascii c in ((97 <=? n) && (n <=? 122))%N.

Definition isupper (c : ascii) : bool :=
  let n := N_of_ascii c in ((65 <=? n) && (n <=? 90))%N.

Definition isalpha (c : ascii) : bool := islower c || isupper c.

Definition toupper (c : ascii) : ascii :=
  if islower c then ascii_of_N (N_of_ascii c - 32) else c.

Definition tolower (c : ascii) : ascii :=
  if isupper c then ascii_of_N (N_of_ascii c + 32) else c.

Definition seq_eqb (a b : Sequence) : bool :=
  if list_eq_dec ascii_dec a b then true else false.

(** ** createConsensus (lines 294-317) *)

(** The body of the [for] loop: [s] is the consensus built so far. *)
Fixpoint createConsensus_loop (a b s : Sequence) : Sequence :=
  match a, b with
  | ita :: a', itb :: b' =>
      let mask := islower ita || islower itb in
      let ca := toupper ita in
      let cb := toupper itb in
      let c := if Ascii.eqb ca cb then ca
               else if Ascii.eqb ca "N" then cb
               else if Ascii.eqb cb "N" then ca
               else "x"%char in
      if Ascii.eqb c "x" then []
      else createConsensus_loop a' b' (s ++ [if mask then tolower c else c])
  | _, _ => s
  end.

Definition createConsensus (a b : Sequence) : Result Sequence :=
  if negb (length a =? length b)%nat then Abort "a.length() == b.length()"
  else if seq_eqb a b then OK a
  else OK (createConsensus_loop a b []).

(** ** Contig nodes and paths *)

(** Modelled from the spec: [ContigNode.h] is not among the sources.  A
    node is an oriented reference to a contig, or an ambiguous placeholder
    whose [id] encodes the length of the gap; equality and ordering
    distinguish placeholders from contigs and account for the strand. *)
Record ContigNode : Type := mkNode {
  ambiguous : bool;
  id : N;
  sense : bool
}.

(** Modelled from the spec: the rank of a node in the order of nodes,
    which ContigNode.h defines.  Nodes go by number first, a placeholder
    after the contig of the same number, the reverse strand after the
    forward one. *)
Definition node_index (a : ContigNode) : Z :=
  (2 * Z.of_N (id a) + (if ambiguous a then 1 else 0)) * 2
  + (if sense a then 1 else 0).

(** Modelled from the spec: [operator==] of ContigNode.h, which tells
    apart placeholders, contigs and strands. *)
Definition node_eqb (a b : ContigNode) : bool :=
  node_index a =? node_index b.

(** Modelled from the spec: [operator<] of ContigNode.h, a strict total
    order on nodes. *)
Definition node_ltb (a b : ContigNode) : bool :=
  node_index a <? node_index b.

(** Modelled from the spec: [operator~] of ContigNode.h, the same contig
    on the opposite strand. *)
Definition complement (a : ContigNode) : ContigNode :=
  mkNode (ambiguous a) (id a) (negb (sense a)).

Definition ContigID := N.

Definition ContigPath := list ContigNode.
Definition Path := ContigPath.
Definition ContigPaths := list Path.

(** ** AmbPathConstraint (lines 119-141) *)

Record AmbPathConstraint : Type := mkConstraint {
  source : ContigNode;
  dest : ContigNode;
  dist : Z
}.

(** [operator==] *)
Definition constraint_eqb (x a : AmbPathConstraint) : bool :=
  node_eqb (source x) (source a) && node_eqb (dest x) (dest a)
  && (dist x =? dist a).

(** [operator<] *)
Definition constraint_ltb (x a : AmbPathConstraint) : bool :=
  node_ltb (source x) (source a)
  || (node_eqb (source x) (source a) && node_ltb (dest x) (dest a))
  || (node_eqb (source x) (source a) && node_eqb (dest x) (dest a)
      && (dist x <? dist a)).

(** ** The gap registry: [std::map<AmbPathConstraint, ContigPath>]

    The map is kept as the list of its entries in iteration order, that is
    in increasing key order for [operator<]; two keys are the same key when
    neither is less than the other. *)
Definition AmbPath2Contig := list (AmbPathConstraint * ContigPath).

(** [map::insert]: the entry is added at its place unless the key is
    already there, in which case the map is left as it is. *)
Fixpoint map_insert (k : AmbPathConstraint) (v : ContigPath)
    (m : AmbPath2Contig) : AmbPath2Contig :=
  match m with
  | [] => [(k, v)]
  | (k', v') :: m' =>
      if constraint_ltb k k' then (k, v) :: m
      else if constraint_ltb k' k then (k', v') :: map_insert k v m'
      else m
  end.

(** [map::find] *)
Fixpoint map_find (k : AmbPathConstraint) (m : AmbPath2Contig)
    : option ContigPath :=
  match m with
  | [] => None
  | (k', v') :: m' =>
      if constraint_ltb k k' then None
      else if constraint_ltb k' k then map_find k m'
      else Some v'
  end.

(** ** The collaborators

    The adjacency graph, the constrained search, the two alignment oracles
    and the helpers of headers that are not among the sources are taken as
    given. *)

(** The graph as the program reads it: the distance of an edge (absent
    when there is no such edge) and the coverage that [addProp] computes
    over a path. *)
Record Graph : Type := mkGraph {
  edge_distance : ContigNode -> ContigNode -> option Z;
  addProp_coverage : ContigPath -> Z
}.

(** [Constraint] of ConstrainedSearch.h: a destination and the largest
    distance at which it may be reached. *)
Definition Constraint := (ContigNode * Z)%type.
Definition Constraints := list Constraint.

(** The result of [alignGlobal]: the number of matches, and the alignment
    with its size and consensus. *)
Record NWAlignment : Type := mkNW {
  nw_match : Z;
  nw_size : Z;
  nw_consensus : Sequence
}.

Record Env : Type := mkEnv {
  (* namespace opt *)
  opt_k : Z;
  opt_identity : spec_float;
  opt_numBranches : Z;
  opt_distanceError : Z;
  opt_maxCost : Z;
  (* the contig sequences, read once before the paths *)
  g_contigs : list Sequence;
  (* headers outside the sources *)
  reverseComplement : Sequence -> Sequence;
  ambiguousSequence : ContigNode -> Sequence;
  constrainedSearch :
    Graph -> ContigNode -> Constraints -> ContigPaths * Z;
  alignGlobal : Sequence -> Sequence -> NWAlignment;
  dialign : list Sequence -> Sequence * Z;
  (* [ContigID::setNextContigID] of ContigID.h: the identifier that
     [ContigID::create] hands out next once it was called on a label *)
  setNextContigID : string -> ContigID
}.

(** ** Single-precision arithmetic

    [float] is IEEE 754 binary32: 24 bits of precision, exponents up to
    128.  Conversions from integers and divisions round to nearest even. *)
Definition float := spec_float.
Definition float_prec : Z := 24.
Definition float_emax : Z := 128.

Definition to_float (n : Z) : float :=
  binary_normalize float_prec float_emax n 0 false.

Definition fdiv (x y : float) : float := SFdiv float_prec float_emax x y.
Definition fltb (x y : float) : bool := SFltb x y.
Definition feqb (x y : float) : bool := SFeqb x y.

(** ** The state of a run *)

Record Stats : Type := mkStats {
  numAmbPaths : Z;
  numMerged : Z;
  numNoSolutions : Z;
  numTooManySolutions : Z;
  tooComplex : Z;
  notMerged : Z
}.

Record ContigProperties : Type := mkProp {
  cp_length : Z;
  cp_coverage : Z
}.

Record NewVertex : Type := mkNewVertex {
  nv_t : ContigNode;
  nv_u : ContigNode;
  nv_v : ContigNode;
  nv_vp : ContigProperties
}.
Definition NewVertices := list NewVertex.

(** One record of the consensus FASTA file: the comment lists, for each
    candidate, its nodes between the common prefix and suffix, or [None]
    where the program prints ['*']. *)
Record FastaRecord : Type := mkFasta {
  fa_id : ContigID;
  fa_length : nat;
  fa_coverage : Z;
  fa_paths : list (option ContigPath);
  fa_seq : Sequence
}.

(** The warnings written to [cerr] whatever the verbosity. *)
Inductive Warning : Type :=
| HeadTailMismatch (node : ContigNode) (ao bo : Sequence) (path : Path)
| TransitiveEdge (fstSol sndSol : ContigPath).

(** The calls made to the search and to the alignment oracles. *)
Inductive Call : Type :=
| CallSearch (src : ContigNode) (cs : Constraints)
| CallAlignGlobal (a b : Sequence)
| CallDialign (seqs : list Sequence).

Record State : Type := mkState {
  stats : Stats;
  g_ambpath_contig : AmbPath2Contig;
  g_newVertices : NewVertices;
  nextContigID : ContigID;
  fa : list FastaRecord;
  cerr : list Warning;
  calls : list Call
}.

Definition set_stats (f : Stats -> Stats) (st : State) : State :=
  mkState (f (stats st)) (g_ambpath_contig st) (g_newVertices st)
          (nextContigID st) (fa st) (cerr st) (calls st).

Definition set_registry (f : AmbPath2Contig -> AmbPath2Contig) (st : State)
    : State :=
  mkState (stats st) (f (g_ambpath_contig st)) (g_newVertices st)
          (nextContigID st) (fa st) (cerr st) (calls st).

Definition warn (w : Warning) (st : State) : State :=
  mkState (stats st) (g_ambpath_contig st) (g_newVertices st)
          (nextContigID st) (fa st) (cerr st ++ [w]) (calls st).

Definition record_call (c : Call) (st : State) : State :=
  mkState (stats st) (g_ambpath_contig st) (g_newVertices st)
          (nextContigID st) (fa st) (cerr st) (calls st ++ [c]).

Definition set_nextContigID (i : ContigID) (st : State) : State :=
  mkState (stats st) (g_ambpath_contig st) (g_newVertices st)
          i (fa st) (cerr st) (calls st).

(** ** The monad of the program: state, and abortion on a failed assert *)

Definition M (A : Type) : Type := State -> Result (A * State).

Definition ret {A} (a : A) : M A := fun st => OK (a, st).

Definition bind {A B} (m : M A) (f : A -> M B) : M B :=
  fun st => match m st with
            | OK (a, st') => f a st'
            | Abort msg => Abort msg
            end.

Definition abort {A} (msg : string) : M A := fun _ => Abort msg.

Definition assert (b : bool) (msg : string) : M unit :=
  if b then ret tt else abort msg.

Definition lift {A} (r : Result A) : M A :=
  fun st => match r with
            | OK a => OK (a, st)
            | Abort msg => Abort msg
            end.

Definition modify (f : State -> State) : M unit := fun st => OK (tt, f st).

Definition gets {A} (f : State -> A) : M A := fun st => OK (f st, st).

Declare Scope pc_scope.
Delimit Scope pc_scope with pc.
Notation "x <- m ;; k" := (bind m (fun x => k))
  (at level 61, m at next level, right associativity) : pc_scope.
Notation "m ;;; k" := (bind m (fun _ => k))
  (at level 61, right associativity) : pc_scope.
Notation "' pat <- m ;; k" := (bind m (fun x => match x with pat => k end))
  (at level 61, pat pattern, m at next level, right associativity)
  : pc_scope.
Open Scope pc_scope.

(** ** Small helpers on vectors and strings *)

Definition is_empty {A} (l : list A) : bool :=
  match l with [] => true | _ => false end.

(** [v[i] = x] on a vector, for an index known to be in range. *)
Fixpoint assign {A} (l : list A) (i : nat) (x : A) : list A :=
  match l, i with
  | [], _ => []
  | _ :: l', O => x :: l'
  | y :: l', S i' => y :: assign l' i' x
  end.

(** The nodes strictly between the first and the last:
    [(p.begin() + 1, p.end() - 1)]. *)
Definition interior (p : Path) : Path := removelast (tl p).

Definition noNode : ContigNode := mkNode false 0 false.
Definition front (p : Path) : ContigNode := hd noNode p.
Definition back (p : Path) : ContigNode := last p noNode.

(** Modelled from the spec: [chomp] of StringUtil.h is not among the
    sources.  It trims exactly one trailing base when that base is the
    given filler, and tells whether it did. *)
Definition chomp (s : Sequence) (c : ascii) : bool * Sequence :=
  match rev s with
  | x :: r => if Ascii.eqb x c then (true, rev r) else (false, s)
  | [] => (false, s)
  end.

(** ** getSequence (lines 154-165)

    Indexing [g_contigs] out of range is undefined in the source; it is a
    fault here. *)
Definition getSequence (E : Env) (n : ContigNode) : Result Sequence :=
  if ambiguous n then
    let s := ambiguousSequence E n in
    let s := if Z.of_nat (length s) <? opt_k E then map tolower s else s in
    OK (repeat "N"%char (Z.to_nat (to_unsigned (opt_k E - 1))) ++ s)
  else
    match nth_error (g_contigs E) (N.to_nat (id n)) with
    | Some sq => OK (if sense n then reverseComplement E sq else sq)
    | None => Abort "g_contigs: index out of range"
    end.

(** ** readPath (lines 171-217)

    The path file arrives as its records, each a label and a path. *)

(** The distance of the constraint of a placeholder: [-it->id()], an
    unsigned negation read as an [int]. *)
Definition gapDistance (it : ContigNode) : Z :=
  to_int (to_unsigned (- Z.of_N (id it))).

(** The [for] loop over the windows [prev, it, next] of one path. *)
Fixpoint scanPath (path : Path) (cur_is_amb : bool) (m : AmbPath2Contig)
    : bool * AmbPath2Contig :=
  match path with
  | prev :: ((it :: next :: _) as rest) =>
      if ambiguous it then
        scanPath rest true
          (map_insert (mkConstraint prev next (gapDistance it)) [] m)
      else scanPath rest cur_is_amb m
  | _ => (cur_is_amb, m)
  end.

Fixpoint readPath_loop (records : list (string * Path))
    (paths : ContigPaths) (ids : list string) (isAmb : list bool)
    : M (ContigPaths * list string * list bool) :=
  match records with
  | [] => ret (paths, ids, isAmb)
  | (i, path) :: records' =>
      let paths := paths ++ [path] in
      let ids := ids ++ [i] in
      if (length path <=? 2)%nat then
        readPath_loop records' paths ids (isAmb ++ [false])
      else
        m <- gets g_ambpath_contig ;;
        let '(cur_is_amb, m') := scanPath path false m in
        modify (set_registry (fun _ => m')) ;;;
        readPath_loop records' paths ids (isAmb ++ [cur_is_amb])
  end.

Definition readPath (inPath : list (string * Path))
    : M (ContigPaths * list string * list bool) :=
  m <- gets g_ambpath_contig ;;
  assert (is_empty m) "g_ambpath_contig.empty()" ;;;
  readPath_loop inPath [] [] [].

(** ** markSeen (lines 219-236) *)

Definition markSeen (seen : list bool) (path : ContigPath) (flag : bool)
    : list bool :=
  fold_left
    (fun seen it =>
       if negb (ambiguous it) && (N.to_nat (id it) <? length seen)%nat
       then assign seen (N.to_nat (id it)) flag
       else seen)
    path seen.

Definition markSeenPaths (seen : list bool) (paths : list Path)
    (flag : bool) : list bool :=
  fold_left (fun seen path => markSeen seen path flag) paths seen.

(** ** outputNewContig (lines 253-292) *)

(** [ContigID::create()] *)
Definition create : M ContigID :=
  fun st =>
    OK (nextContigID st,
        mkState (stats st) (g_ambpath_contig st) (g_newVertices st)
                (N.succ (nextContigID st)) (fa st) (cerr st) (calls st)).

Definition push_newVertex (v : NewVertex) (st : State) : State :=
  mkState (stats st) (g_ambpath_contig st) (g_newVertices st ++ [v])
          (nextContigID st) (fa st) (cerr st) (calls st).

Definition write_fasta (r : FastaRecord) (st : State) : State :=
  mkState (stats st) (g_ambpath_contig st) (g_newVertices st)
          (nextContigID st) (fa st ++ [r]) (cerr st) (calls st).

(** The loop printing, for each solution, the nodes between the common
    prefix and the common suffix. *)
Fixpoint outputNewContig_loop (solutions : list Path)
    (longestPrefix longestSuffix : nat)
    : Result (list (option ContigPath)) :=
  match solutions with
  | [] => OK []
  | path :: rest =>
      if negb (longestPrefix + longestSuffix <=? length path)%nat
      then Abort "first <= last"
      else
        let core := firstn (length path - longestPrefix - longestSuffix)
                           (skipn longestPrefix path) in
        match outputNewContig_loop rest longestPrefix longestSuffix with
        | OK l => OK ((if is_empty core then None else Some core) :: l)
        | Abort msg => Abort msg
        end
  end.

Definition outputNewContig (solutions : list Path)
    (longestPrefix longestSuffix : nat) (sq : Sequence) (coverage : Z)
    : M ContigID :=
  assert (negb (is_empty solutions)) "!solutions.empty()" ;;;
  assert (0 <? longestPrefix)%nat "longestPrefix > 0" ;;;
  assert (0 <? longestSuffix)%nat "longestSuffix > 0" ;;;
  i <- create ;;
  let sol0 := hd [] solutions in
  modify (push_newVertex
            (mkNewVertex (nth (longestPrefix - 1) sol0 noNode)
                         (mkNode false i false)
                         (nth (longestSuffix - 1) (rev sol0) noNode)
                         (mkProp (to_unsigned (Z.of_nat (length sq)))
                                 coverage))) ;;;
  cores <- lift (outputNewContig_loop solutions longestPrefix
                                      longestSuffix) ;;
  modify (write_fasta (mkFasta i (length sq) coverage cores sq)) ;;;
  ret i.

(** ** mergeContigs (lines 319-346) *)

(** A value together with the equation that names it, so that the
    termination proof below sees what [chomp] returned. *)
Definition inspect {A} (a : A) : {b : A | a = b} := exist _ a eq_refl.

(** The [do ... while] loop: it returns the accumulated sequence as the
    loop leaves it, with the last [ao] and [o]. *)
Equations? mergeContigs_loop (overlap : nat) (bo sq : Sequence)
    : Result (Sequence * Sequence * Sequence) by wf (length sq) lt :=
  mergeContigs_loop overlap bo sq with (overlap <? length sq)%nat => {
    | false => Abort "seq.length() > overlap";
    | true with createConsensus (skipn (length sq - overlap) sq) bo => {
        | Abort msg => Abort msg;
        | OK o with is_empty o => {
            | false => OK (sq, skipn (length sq - overlap) sq, o);
            | true with inspect (chomp sq "n") => {
                | exist _ (true, sq') e => mergeContigs_loop overlap bo sq';
                | exist _ (false, _) _ =>
                    OK (sq, skipn (length sq - overlap) sq, o) } } } }.
Proof.
  unfold chomp in e. destruct (rev sq) as [|x r] eqn:R; [discriminate|].
  destruct (Ascii.eqb x "n"); [|discriminate].
  injection e as <-. apply (f_equal (@length _)) in R.
  rewrite length_rev in R. rewrite length_rev. simpl in R. lia.
Qed.

Definition mergeContigs (overlap : nat) (sq s : Sequence)
    (node : ContigNode) (path : Path) : M Sequence :=
  assert (overlap <? length s)%nat "s.length() > overlap" ;;;
  let bo := firstn overlap s in
  '(sq, ao, o) <- lift (mergeContigs_loop overlap bo sq) ;;
  if is_empty o then
    modify (warn (HeadTailMismatch node ao bo path)) ;;;
    ret (sq ++ ["n"%char] ++ s)
  else
    ret (firstn (length sq - overlap) sq ++ o ++ skipn overlap s).

(** ** mergePath (lines 348-365) *)

(** The loop of [mergePath]; [prev] is [*(it-1)], read only once [seq] is
    not empty. *)
Fixpoint mergePath_loop (E : Env) (g : Graph) (path : Path)
    (prev : ContigNode) (its : list ContigNode) (sq : Sequence)
    : M Sequence :=
  match its with
  | [] => ret sq
  | it :: its' =>
      sq' <- (if is_empty sq then lift (getSequence E it)
              else
                match edge_distance g prev it with
                | None => abort "edge not found"
                | Some d =>
                    assert (d <? 0) "d < 0" ;;;
                    let overlap := Z.to_nat (to_unsigned (- d)) in
                    s <- lift (getSequence E it) ;;
                    mergeContigs overlap sq s it path
                end) ;;
      mergePath_loop E g path it its' sq'
  end.

Definition mergePath (E : Env) (g : Graph) (path : Path) : M Sequence :=
  mergePath_loop E g path (front path) path [].

(** ** calculatePathProperties (lines 367-372)

    Only the coverage of the properties is read by the callers. *)
Definition calculatePathProperties (g : Graph) (path : ContigPath) : Z :=
  to_unsigned (addProp_coverage g path).

(** ** alignPair (lines 374-478) *)

(** [std::mismatch]: what is left of the two ranges from the first
    position at which they differ. *)
Fixpoint mismatch (p q : Path) : Path * Path :=
  match p, q with
  | x :: p', y :: q' => if node_eqb x y then mismatch p' q' else (p, q)
  | _, _ => (p, q)
  end.

(** [std::equal] over the first range. *)
Definition std_equal (p q : Path) : bool :=
  forallb (fun xy => node_eqb (fst xy) (snd xy)) (combine p q).

(** The ratio test shared by both builders: [(float)num / den] compared
    with [opt::identity]. *)
Definition ratio (num den : Z) : float := fdiv (to_float num) (to_float den).

Definition tooLow (E : Env) (r : float) : bool := fltb r (opt_identity E).

Definition alignPair (E : Env) (g : Graph) (solutions : ContigPaths)
    : M ContigPath :=
  match solutions with
  | [sol0; sol1] =>
      assert (1 <? length sol0)%nat "solutions[0].size() > 1" ;;;
      assert (1 <? length sol1)%nat "solutions[1].size() > 1" ;;;
      assert (node_eqb (front sol0) (front sol1))
             "solutions[0].front() == solutions[1].front()" ;;;
      assert (node_eqb (back sol0) (back sol1))
             "solutions[0].back() == solutions[1].back()" ;;;
      let fstSol := interior sol0 in
      let sndSol := interior sol1 in
      if is_empty fstSol || is_empty sndSol then
        (* This entire sequence may be deleted. *)
        let sol := if is_empty fstSol then sndSol else fstSol in
        assert (negb (is_empty sol)) "!sol.empty()" ;;;
        consensus <- mergePath E g sol ;;
        let k1 := to_unsigned (opt_k E - 1) in
        assert (k1 <? Z.of_nat (length consensus))
               "consensus.size() > opt::k - 1" ;;;
        let consensus := firstn (Z.to_nat k1) consensus
                         ++ map tolower (skipn (Z.to_nat k1) consensus) in
        let identity := ratio k1 (Z.of_nat (length consensus)) in
        if tooLow E identity then ret []
        else
          let coverage := calculatePathProperties g sol in
          i <- outputNewContig solutions 1 1 consensus coverage ;;
          ret [front sol0; mkNode false i false; back sol0]
      else
        fstPathContig <- mergePath E g fstSol ;;
        sndPathContig <- mergePath E g sndSol ;;
        if seq_eqb fstPathContig sndPathContig then
          (* These two paths have identical sequence. *)
          if (length fstSol =? length sndSol)%nat then
            (* A perfect match must be caused by palindrome. *)
            match mismatch fstSol sndSol with
            | ([], _) => abort "it.first != fstSol.end()"
            | (_, []) => abort "it.second != sndSol.end()"
            | (x :: p', y :: q') =>
                assert (node_eqb x (complement y))
                       "*it.first == ~*it.second" ;;;
                assert (std_equal p' q')
                       "equal(it.first+1, It(fstSol.end()), it.second+1)" ;;;
                ret sol0
            end
          else
            (* The paths are different lengths. *)
            modify (warn (TransitiveEdge fstSol sndSol)) ;;;
            ret (if (length sndSol <? length fstSol)%nat then sol0 else sol1)
        else
          let minLength := to_unsigned (Z.of_nat
                (Nat.min (length fstPathContig) (length sndPathContig))) in
          let maxLength := to_unsigned (Z.of_nat
                (Nat.max (length fstPathContig) (length sndPathContig))) in
          let lengthRatio := ratio minLength maxLength in
          if tooLow E lengthRatio then ret []
          else
            modify (record_call
                      (CallAlignGlobal fstPathContig sndPathContig)) ;;;
            let align := alignGlobal E fstPathContig sndPathContig in
            let identity := ratio (to_unsigned (nw_match align))
                                  (nw_size align) in
            if tooLow E identity then ret []
            else
              let coverage :=
                to_unsigned (calculatePathProperties g fstSol
                             + calculatePathProperties g sndSol) in
              i <- outputNewContig solutions 1 1 (nw_consensus align)
                                   coverage ;;
              ret [front sol0; mkNode false i false; back sol0]
  | _ => abort "solutions.size() == 2"
  end.

(** ** alignMulti (lines 480-615) *)

(** The loop finding the longest prefix; [todo] counts the rounds left
    before [longestPrefix] reaches [min_len]. *)
Fixpoint findPrefix (solutions : list Path) (firstSol : Path)
    (todo longestPrefix : nat) (vppath : Path) : nat * Path :=
  match todo with
  | O => (longestPrefix, vppath)
  | S todo' =>
      let common_path_node := nth longestPrefix firstSol noNode in
      if forallb (fun sol => node_eqb (nth longestPrefix sol noNode)
                                      common_path_node) solutions
      then findPrefix solutions firstSol todo' (S longestPrefix)
                      (vppath ++ [common_path_node])
      else (longestPrefix, vppath)
  end.

(** The loop finding the longest suffix; [todo] counts the rounds left
    before [longestSuffix] reaches [min_len - longestPrefix]. *)
Fixpoint findSuffix (solutions : list Path) (firstSol : Path)
    (todo longestSuffix : nat) (vspath : Path) : nat * Path :=
  match todo with
  | O => (longestSuffix, vspath)
  | S todo' =>
      let common_path_node :=
        nth (length firstSol - longestSuffix - 1) firstSol noNode in
      if forallb (fun sol =>
                    node_eqb (nth (length sol - longestSuffix - 1) sol noNode)
                             common_path_node) solutions
      then findSuffix solutions firstSol todo' (S longestSuffix)
                      (vspath ++ [common_path_node])
      else (longestSuffix, vspath)
  end.

(** The loop collecting the sequence of the ambiguous region of each
    path, and the coverage. *)
Fixpoint ambSeqs (E : Env) (g : Graph) (sol0 : Path) (solutions : list Path)
    (longestPrefix longestSuffix : nat) (amb_seqs : list Sequence)
    (coverage : Z) : M (list Sequence * Z) :=
  match solutions with
  | [] => ret (amb_seqs, coverage)
  | sol :: rest =>
      assert (longestPrefix + longestSuffix <=? length sol)%nat
             "longestPrefix + longestSuffix <= solIter->size()" ;;;
      let path := firstn (length sol - longestPrefix - longestSuffix)
                         (skipn longestPrefix sol) in
      if negb (is_empty path) then
        sq <- mergePath E g path ;;
        ambSeqs E g sol0 rest longestPrefix longestSuffix
                (amb_seqs ++ [sq])
                (to_unsigned (coverage + calculatePathProperties g path))
      else
        (* The prefix and suffix paths overlap by k-1 bp. *)
        s <- lift (getSequence E (nth (longestPrefix - 1) sol0 noNode)) ;;
        let pos := to_unsigned (Z.of_nat (length s) - opt_k E + 1) in
        assert (pos <=? Z.of_nat (length s)) "substr: out of range" ;;;
        ambSeqs E g sol0 rest longestPrefix longestSuffix
                (amb_seqs ++ [skipn (Z.to_nat pos) s]) coverage
  end.

Definition min_element (l : list Z) : Z :=
  match l with
  | [] => 0
  | x :: l' => fold_left Z.min l' x
  end.

Definition max_element (l : list Z) : Z :=
  match l with
  | [] => 0
  | x :: l' => fold_left Z.max l' x
  end.

Definition float_one : float := to_float 1.

(** The checks of the perfect-match case (lines 592-605). *)
Definition checkPalindromes (E : Env) (solutions : list Path)
    (longestPrefix longestSuffix : nat) (palindrome0 palindrome1 : ContigID)
    : M unit :=
  s0 <- lift (getSequence E (mkNode false palindrome0 false)) ;;
  s1 <- lift (getSequence E (mkNode false palindrome1 false)) ;;
  assert (seq_eqb s0 (reverseComplement E s0))
         "s0 == reverseComplement(s0)" ;;;
  assert (seq_eqb s1 (reverseComplement E s1))
         "s1 == reverseComplement(s1)" ;;;
  assert (forallb
            (fun path =>
               N.eqb (id (nth longestPrefix path noNode)) palindrome0
               && N.eqb (id (nth longestSuffix (rev path) noNode))
                        palindrome1
               && (length path =? length (hd [] solutions))%nat)
            solutions)
         "palindrome paths".

Definition alignMulti (E : Env) (g : Graph) (solutions : list Path)
    : M ContigPath :=
  (* Find the size of the smallest path. *)
  let firstSol := hd [] solutions in
  let min_len := fold_left (fun m it => Nat.min m (length it))
                           (tl solutions) (length firstSol) in
  (* Find the longest prefix. *)
  let '(longestPrefix, vppath) :=
    findPrefix solutions firstSol min_len 0 [] in
  (* Find the longest suffix. *)
  let '(longestSuffix, vspath) :=
    findSuffix solutions firstSol (min_len - longestPrefix) 0 [] in
  let vspath := rev vspath in
  (* Get sequence of ambiguous region in paths *)
  assert ((0 <? longestPrefix)%nat && (0 <? longestSuffix)%nat)
         "longestPrefix > 0 && longestSuffix > 0" ;;;
  '(amb_seqs, coverage) <-
    ambSeqs E g firstSol solutions longestPrefix longestSuffix [] 0 ;;
  let lengths := map (fun s => to_unsigned (Z.of_nat (length s))) amb_seqs in
  let minLength := min_element lengths in
  let maxLength := max_element lengths in
  let lengthRatio := ratio minLength maxLength in
  if tooLow E lengthRatio then ret []
  else
    modify (record_call (CallDialign amb_seqs)) ;;;
    let '(consensus, matches) := dialign E amb_seqs in
    let identity := ratio (to_unsigned matches)
                          (Z.of_nat (length consensus)) in
    if tooLow E identity then ret []
    else if feqb identity float_one then
      (* A perfect match must be caused by two palindromes. *)
      let palindrome0 := id (nth longestPrefix firstSol noNode) in
      let palindrome1 := id (nth longestSuffix (rev firstSol) noNode) in
      checkPalindromes E solutions longestPrefix longestSuffix
                       palindrome0 palindrome1 ;;;
      ret firstSol
    else
      i <- outputNewContig solutions longestPrefix longestSuffix
                           consensus coverage ;;
      ret (vppath ++ [mkNode false i false] ++ vspath).

(** ** align (lines 617-627) *)
Definition align (E : Env) (g : Graph) (sequences : list Path)
    : M ContigPath :=
  assert (1 <? length sequences)%nat "sequences.size() > 1" ;;;
  if (length sequences =? 2)%nat then alignPair E g sequences
  else alignMulti E g sequences.

(** ** fillGap (lines 629-690) *)

Definition incr (x : Z) : Z := to_unsigned (x + 1).

Definition incr_tooComplex (s : Stats) : Stats :=
  mkStats (numAmbPaths s) (numMerged s) (numNoSolutions s)
          (numTooManySolutions s) (incr (tooComplex s)) (notMerged s).
Definition incr_numTooManySolutions (s : Stats) : Stats :=
  mkStats (numAmbPaths s) (numMerged s) (numNoSolutions s)
          (incr (numTooManySolutions s)) (tooComplex s) (notMerged s).
Definition incr_numNoSolutions (s : Stats) : Stats :=
  mkStats (numAmbPaths s) (numMerged s) (incr (numNoSolutions s))
          (numTooManySolutions s) (tooComplex s) (notMerged s).
Definition incr_numMerged (s : Stats) : Stats :=
  mkStats (numAmbPaths s) (incr (numMerged s)) (numNoSolutions s)
          (numTooManySolutions s) (tooComplex s) (notMerged s).
Definition incr_notMerged (s : Stats) : Stats :=
  mkStats (numAmbPaths s) (numMerged s) (numNoSolutions s)
          (numTooManySolutions s) (tooComplex s) (incr (notMerged s)).

(** The constraints handed to the search (lines 640-642). *)
Definition searchConstraints (E : Env) (apConstraint : AmbPathConstraint)
    : Constraints :=
  [(dest apConstraint,
    to_unsigned (dist apConstraint + opt_distanceError E))].

(** The gap comes back with its consensus and the marks of the contigs
    seen, which the source updates in place. *)
Definition fillGap (E : Env) (g : Graph) (apConstraint : AmbPathConstraint)
    (seen : list bool) : M (ContigPath * list bool) :=
  let constraints := searchConstraints E apConstraint in
  modify (record_call (CallSearch (source apConstraint) constraints)) ;;;
  let '(solutions, numVisited) :=
    constrainedSearch E g (source apConstraint) constraints in
  let tooComplex := opt_maxCost E <=? numVisited in
  let solutions := map (fun sol => source apConstraint :: sol) solutions in
  let consensus : ContigPath := [] in
  let tooManySolutions := opt_numBranches E <? Z.of_nat (length solutions) in
  if tooComplex then
    modify (set_stats incr_tooComplex) ;;; ret (consensus, seen)
  else if tooManySolutions then
    modify (set_stats incr_numTooManySolutions) ;;; ret (consensus, seen)
  else if is_empty solutions then
    modify (set_stats incr_numNoSolutions) ;;; ret (consensus, seen)
  else if (length solutions =? 1)%nat then
    modify (set_stats incr_numMerged) ;;; ret (consensus, seen)
  else
    assert (1 <? length solutions)%nat "solutions.size() > 1" ;;;
    consensus <- align E g solutions ;;
    if negb (is_empty consensus) then
      modify (set_stats incr_numMerged) ;;;
      (* Mark contigs that are used in a consensus. *)
      ret (consensus, markSeenPaths seen solutions true)
    else
      modify (set_stats incr_notMerged) ;;; ret (consensus, seen).

(** ** main (lines 790-884)

    The part of [main] between the reading of the paths and the summary.
    The options, the graph and the contigs are read before it; new
    contigs are numbered from what [ContigID::setNextContigID] makes of
    the last label, and from [nextContigID] of the initial state when
    there is no path. *)

(** A line of the output path file. *)
Inductive OutLine : Type :=
| ContigLine (c : nat)
| PathLine (label : string) (path : Path).

(** Lines 816-818: every entry of the registry receives the result of
    [fillGap] on its key, in the order of the map. *)
Fixpoint resolveGaps (E : Env) (g : Graph) (todo : AmbPath2Contig)
    (seen : list bool) : M (AmbPath2Contig * list bool) :=
  match todo with
  | [] => ret ([], seen)
  | (k, _) :: rest =>
      '(consensus, seen) <- fillGap E g k seen ;;
      '(rest', seen) <- resolveGaps E g rest seen ;;
      ret ((k, consensus) :: rest', seen)
  end.

(** Lines 824-828: unmark contigs that are used in a path. *)
Definition unmarkUsed (reg : AmbPath2Contig) (paths : ContigPaths)
    (seen : list bool) : list bool :=
  markSeenPaths (fold_left (fun seen kv => markSeen seen (snd kv) false)
                           reg seen)
                paths false.

(** Lines 833-836. *)
Definition outputSeen (contigs : nat) (seen : list bool) : list OutLine :=
  map ContigLine (filter (fun c => nth c seen false) (List.seq 0 contigs)).

(** Lines 849-869: the loop over the windows [prev, it, next] that
    replaces each placeholder by the inner nodes of its solution. *)
Fixpoint rewritePath (reg : AmbPath2Contig) (prev : ContigNode)
    (its : list ContigNode) (cur_path : Path) : Result Path :=
  match its with
  | [] => OK cur_path
  | it :: rest =>
      if negb (ambiguous it) then
        rewritePath reg it rest (cur_path ++ [it])
      else
        (* replace Ns by resolved new contig *)
        match rest with
        | [] => Abort "next != path->end()"
        | next :: _ =>
            match map_find (mkConstraint prev next (gapDistance it)) reg with
            | None => Abort "ambIt != g_ambpath_contig.end()"
            | Some solution =>
                if negb (is_empty solution) then
                  if negb (1 <? length solution)%nat
                  then Abort "solution.size() > 1"
                  else rewritePath reg it rest
                                   (cur_path ++ interior solution)
                else rewritePath reg it rest (cur_path ++ [it])
            end
        end
  end.

(** Lines 838-871. *)
Fixpoint outputPaths (reg : AmbPath2Contig)
    (paths : list (Path * string * bool)) : Result (list OutLine) :=
  match paths with
  | [] => OK []
  | (path, label, isAmb) :: rest =>
      match (if negb isAmb then OK path
             else if negb (2 <? length path)%nat
                  then Abort "path->size() > 2"
                  else rewritePath reg (front path) (tl path) [front path])
      with
      | Abort msg => Abort msg
      | OK cur_path =>
          match outputPaths reg rest with
          | Abort msg => Abort msg
          | OK lines => OK (PathLine label cur_path :: lines)
          end
      end
  end.

Definition set_numAmbPaths (n : Z) (s : Stats) : Stats :=
  mkStats n (numMerged s) (numNoSolutions s)
          (numTooManySolutions s) (tooComplex s) (notMerged s).

(** Lines 797-799: start numbering new contigs from the last. *)
Definition startNumbering (E : Env) (pathIDs : list string) : M unit :=
  if negb (is_empty pathIDs)
  then modify (set_nextContigID
                 (setNextContigID E (last pathIDs EmptyString)))
  else ret tt.

Definition main (E : Env) (g : Graph) (allPaths : list (string * Path))
    : M (list OutLine) :=
  '(paths, pathIDs, isAmbPath) <- readPath allPaths ;;
  reg <- gets g_ambpath_contig ;;
  modify (set_stats
            (set_numAmbPaths (to_unsigned (Z.of_nat (length reg))))) ;;;
  startNumbering E pathIDs ;;;
  (* Contigs that were seen in a consensus. *)
  let seen := repeat false (length (g_contigs E)) in
  (* resolve ambiguous paths recorded in g_ambpath_contig *)
  '(reg, seen) <- resolveGaps E g reg seen ;;
  modify (set_registry (fun _ => reg)) ;;;
  (* Unmark contigs that are used in a path. *)
  let seen := unmarkUsed reg paths seen in
  (* Output those contigs that were not seen in ambiguous path. *)
  let out := outputSeen (length (g_contigs E)) seen in
  lines <- lift (outputPaths reg
                   (combine (combine paths pathIDs) isAmbPath)) ;;
  ret (out ++ lines).

(** ** Vocabulary of the candidate evaluator *)

(** What the search answers for a gap: the candidate paths, without the
    source, and the number of vertices visited. *)
Definition searchResult (E : Env) (g : Graph) (ap : AmbPathConstraint)
    : ContigPaths * Z :=
  constrainedSearch E g (source ap) (searchConstraints E ap).

(** The candidates of a gap as [fillGap] evaluates them, each with the
    source in front. *)
Definition candidates (E : Env) (g : Graph) (ap : AmbPathConstraint)
    : ContigPaths :=
  map (fun sol => source ap :: sol) (fst (searchResult E g ap)).

(** The state after the search of [ap] has been called. *)
Definition searched (E : Env) (ap : AmbPathConstraint) (st : State) : State :=
  record_call (CallSearch (source ap) (searchConstraints E ap)) st.

(** The calls to the two alignment oracles among the calls made. *)
Definition isAlignment (c : Call) : bool :=
  match c with
  | CallSearch _ _ => false
  | CallAlignGlobal _ _ => true
  | CallDialign _ => true
  end.

Definition alignmentCalls (st : State) : list Call :=
  filter isAlignment (calls st).

(** The sum of the five outcome counters. *)
Definition outcomes (s : Stats) : Z :=
  numMerged s + numNoSolutions s + numTooManySolutions s
  + tooComplex s + notMerged s.

(** ** Vocabulary of the registry *)

Definition keys (m : AmbPath2Contig) : list AmbPathConstraint := map fst m.

(** The entries come in strictly increasing key order. *)
Definition ordered (m : AmbPath2Contig) : Prop :=
  StronglySorted (fun x a => constraint_ltb x a = true) (keys m).


(** The windows [prev, it, next] that the loader and the final pass slide
    over a path. *)
Fixpoint windows (path : Path) : list (ContigNode * ContigNode * ContigNode) :=
  match path with
  | prev :: ((it :: next :: _) as rest) => (prev, it, next) :: windows rest
  | _ => []
  end.

(** The constraints of the placeholders of a path that have a node on
    either side. *)
Definition gapsOfPath (path : Path) : list AmbPathConstraint :=
  map (fun w => match w with
                | (prev, it, next) => mkConstraint prev next (gapDistance it)
                end)
      (filter (fun w => match w with (_, it, _) => ambiguous it end)
              (windows path)).

Definition gapsOf (records : list (string * Path)) : list AmbPathConstraint :=
  flat_map (fun r => gapsOfPath (snd r)) records.

(** Whether a path has a placeholder with a node on either side: the
    flag the loader returns for it. *)
Definition hasGap (path : Path) : bool :=
  existsb (fun w => match w with (_, it, _) => ambiguous it end)
          (windows path).

Definition unresolved (m : AmbPath2Contig) : Prop :=
  Forall (fun kv => snd kv = []) m.

(** The searches among the calls made, by source and constraints. *)
Definition searchCalls (cs : list Call) : list (ContigNode * Constraints) :=
  flat_map (fun c => match c with
                     | CallSearch src k => [(src, k)]
                     | _ => []
                     end) cs.



(** ** Vocabulary of effects *)

(** A computation keeps a relation between the state it starts in and the
    state it returns in. *)
Definition preserves (R : State -> State -> Prop) {A} (m : M A) : Prop :=
  forall st a st', m st = OK (a, st') -> R st st'.

(** The state with some more warnings on [cerr]. *)
Definition warned (ws : list Warning) (st : State) : State :=
  mkState (stats st) (g_ambpath_contig st) (g_newVertices st)
          (nextContigID st) (fa st) (cerr st ++ ws) (calls st).

(** Nothing happened but warnings. *)
Definition onlyWarns (st st' : State) : Prop :=
  exists ws, st' = warned ws st.

(** The counters and the registry are as before, and the calls made since
    are calls to the alignment oracles. *)
Definition onlyAligns (st st' : State) : Prop :=
  stats st' = stats st
  /\ g_ambpath_contig st' = g_ambpath_contig st
  /\ exists cs, calls st' = calls st ++ cs /\ forallb isAlignment cs = true.

(** The five ways in which [fillGap] counts a gap. *)
Definition outcomeCounters : list (Stats -> Stats) :=
  [incr_tooComplex; incr_numTooManySolutions; incr_numNoSolutions;
   incr_numMerged; incr_notMerged].

(** The search that [fillGap] calls for a key. *)
Definition searchOf (E : Env) (k : AmbPathConstraint)
    : ContigNode * Constraints :=
  (source k, searchConstraints E k).

(** No counter of outcomes is negative. *)
Definition counted (s : Stats) : Prop :=
  0 <= numMerged s /\ 0 <= numNoSolutions s /\ 0 <= numTooManySolutions s
  /\ 0 <= tooComplex s /\ 0 <= notMerged s.

(** The state of [main] once the loader has left the registry [m] and
    its entries have been counted. *)
Definition loaded (m : AmbPath2Contig) (st : State) : State :=
  set_stats (set_numAmbPaths (to_unsigned (Z.of_nat (length m))))
            (set_registry (fun _ => m) st).

(** The state once the numbering of new contigs has been set from the
    last of the labels, if there is one: the state in which [main] starts
    the resolution of the registry. *)
Definition numbered (E : Env) (pathIDs : list string) (st : State) : State :=
  match pathIDs with
  | [] => st
  | _ :: _ =>
      set_nextContigID (setNextContigID E (last pathIDs EmptyString)) st
  end.

(** ** Vocabulary of the consensus builders *)



(** The common prefix and suffix that the multi builder finds, each with
    its length, and the sequences of what lies between them. *)
Definition minLen (solutions : list Path) : nat :=
  fold_left (fun m it => Nat.min m (length it)) (tl solutions)
            (length (hd [] solutions)).

Definition commonPrefix (solutions : list Path) : nat * Path :=
  findPrefix solutions (hd [] solutions) (minLen solutions) 0 [].

Definition commonSuffix (solutions : list Path) : nat * Path :=
  findSuffix solutions (hd [] solutions)
             (minLen solutions - fst (commonPrefix solutions)) 0 [].



(** ** Vocabulary of the marks *)

(** Contig [c] is a node of the path; placeholders do not count. *)
Definition mentions (c : nat) (path : ContigPath) : bool :=
  existsb (fun n => negb (ambiguous n) && (N.to_nat (id n) =? c)%nat) path.

Definition mentionedIn (c : nat) (paths : list Path) : bool :=
  existsb (mentions c) paths.

(** Contig [c] is in a candidate of a gap of the registry for which a
    consensus is stored. *)
Definition inMergedCandidates (E : Env) (g : Graph) (c : nat)
    (reg : AmbPath2Contig) : bool :=
  existsb (fun kv => negb (is_empty (snd kv))
                     && mentionedIn c (candidates E g (fst kv))) reg.

(** ** Vocabulary of the per-base rule

    Used to state the properties of [createConsensus]; the program itself
    does not call these. *)

Definition same_base (x y : ascii) : Prop := toupper x = toupper y.
Definition wildcard (x : ascii) : Prop := toupper x = "N"%char.
Definition compatible (x y : ascii) : Prop :=
  same_base x y \/ wildcard x \/ wildcard y.

(** The base appended by one round of the loop when the two bases are
    compatible. *)
Definition picked (x y : ascii) : ascii :=
  let c := if Ascii.eqb (toupper x) (toupper y) then toupper x
           else if Ascii.eqb (toupper x) "N" then toupper y else toupper x in
  if islower x || islower y then tolower c else c.

(** ** Sample inputs

    Small graphs, contigs and oracles on which the program is run in the
    examples of Part II. *)

Definition contig (i : N) : ContigNode := mkNode false i false.
Definition gap (n : N) : ContigNode := mkNode true n false.

(** [0.9f], the default of [opt::identity], and [1.5f]. *)
Definition float_0_9 : float := S754_finite false 15099494 (-24).
Definition float_1_5 : float := S754_finite false 12582912 (-23).

Definition complementBase (c : ascii) : ascii :=
  match c with
  | "A" => "T" | "C" => "G" | "G" => "C" | "T" => "A"
  | "a" => "t" | "c" => "g" | "g" => "c" | "t" => "a"
  | _ => c
  end%char.

(** A stand-in for [alignGlobal]: the two sequences laid side by side,
    the matches counted position by position, the first sequence as the
    consensus. *)
Definition sideBySide (a b : Sequence) : NWAlignment :=
  mkNW (Z.of_nat (length (filter (fun xy => Ascii.eqb (fst xy) (snd xy))
                                 (combine a b))))
       (Z.of_nat (Nat.max (length a) (length b)))
       a.

(** A stand-in for [ContigID::setNextContigID] on labels that are
    numbers: the number after the one the label spells in decimal. *)
Definition afterLabel (label : string) : ContigID :=
  (fold_left (fun n c => 10 * n + (N_of_ascii c - 48))
             (list_ascii_of_string label) 0 + 1)%N.

Definition sampleEnv (k : Z) (identity : float) (contigs : list Sequence)
    (search : ContigNode -> Constraints -> ContigPaths * Z) : Env :=
  mkEnv k identity 4 6 100 contigs
        (fun s => rev (map complementBase s))
        (fun n => repeat "N"%char (N.to_nat (id n)))
        (fun _ => search)
        sideBySide
        (fun seqs => (hd [] seqs, 0))
        afterLabel.

(** A graph in which every two contigs overlap by [d] bases. *)
Definition overlapGraph (d : Z) : Graph :=
  mkGraph (fun _ _ => Some (- d)) (fun p => Z.of_nat (length p)).

Definition initialState (next : ContigID) : State :=
  mkState (mkStats 0 0 0 0 0 0) [] [] next [] [] [].
Arguments initialState next%_N.

(** One gap between contigs 0 and 2, for which the search finds the
    single path through contig 1. *)
Definition oneCandidateEnv : Env :=
  sampleEnv 4 float_0_9 [seq "ACGTA"; seq "GTACC"; seq "ACCGT"]
            (fun _ _ => ([[contig 1; contig 2]], 3)).

Definition oneGapPaths : list (string * Path) :=
  [("7"%string, [contig 0; gap 5; contig 2])].

(** The same gap, for which the search finds two paths and visits as
    many vertices as [opt::maxCost] allows. *)
Definition tooComplexEnv : Env :=
  sampleEnv 4 float_0_9 [seq "ACGTA"; seq "GTACC"; seq "ACCGT"]
            (fun _ _ => ([[contig 1; contig 2]; [contig 2]], 100)).

(** Eight contigs and three paths.  Two paths go through the same gap
    between contigs 0 and 2, for which the search finds two paths, through
    contig 1 and through contig 3, whose sequences differ in one base of
    ten; the second path has another gap, between contigs 2 and 4, for
    which the search finds nothing.  Contig 7 is in no path. *)
Definition sampleContigs : list Sequence :=
  [seq "ACGTACGTAC"; seq "GGGTTTAAAC"; seq "CCATTGGAAC"; seq "GGGTTTAAAG";
   seq "TTGACCAGTA"; seq "CAGTCAGTCA"; seq "GATTACAGAT"; seq "TTTTGGGGCC"].

Definition sampleSearch (src : ContigNode) (cs : Constraints)
    : ContigPaths * Z :=
  match cs with
  | [(dst, _)] =>
      if node_eqb src (contig 0) && node_eqb dst (contig 2)
      then ([[contig 1; contig 2]; [contig 3; contig 2]], 5)
      else ([], 2)
  | _ => ([], 0)
  end.

Definition sampleRunEnv : Env :=
  sampleEnv 4 float_0_9 sampleContigs sampleSearch.

Definition samplePaths : list (string * Path) :=
  [("10"%string, [contig 0; gap 5; contig 2]);
   ("11"%string, [contig 0; gap 5; contig 2; gap 3; contig 4]);
   ("12"%string, [contig 5; contig 6])].

(** A path with a placeholder at either end. *)
Definition flanklessPaths : list (string * Path) :=
  [("7"%string, [gap 5; contig 0; contig 1; gap 3])].


(** Contig 1 is its own reverse complement. *)
Definition palindromeEnv : Env :=
  sampleEnv 4 float_0_9 [seq "ACGTACGTAC"; seq "AACGTT"; seq "CCATTGGAAC"]
            (fun _ _ => ([], 0)).

(** Contigs 1 and 3 have the same sequence. *)
Definition duplicateEnv : Env :=
  sampleEnv 4 float_0_9
            [seq "ACGTACGTAC"; seq "GGGTTTAAAC"; seq "CCATTGGAAC";
             seq "GGGTTTAAAC"]
            (fun _ _ => ([], 0)).

(** Contig 1 has ten bases and contig 3 four.  To contig 2 the search
    finds two paths from contig 0, through contigs 1 and 3, and three
    paths from contig 5, through contigs 1, 3 and 4. *)
Definition ratioSearch (src : ContigNode) (cs : Constraints)
    : ContigPaths * Z :=
  if node_eqb src (contig 0)
  then ([[contig 1; contig 2]; [contig 3; contig 2]], 5)
  else ([[contig 1; contig 2]; [contig 3; contig 2]; [contig 4; contig 2]],
        7).

Definition ratioEnv : Env :=
  sampleEnv 4 float_0_9
            [seq "ACGTACGTAC"; seq "GGGTTTAAAC"; seq "CCATTGGAAC";
             seq "GGGT"; seq "GGGTTTAAAG"; seq "CAGTCAGTCA"]
            ratioSearch.


(** A threshold of 1.5; contigs 3 and 4 overlap by three bases and merge
    into the sequence of contig 1. *)
Definition transitiveEnv : Env :=
  sampleEnv 4 float_1_5
            [seq "ACGTACGTAC"; seq "GGGTTTAAAC"; seq "CCATTGGAAC";
             seq "GGGTTT"; seq "TTTAAAC"]
            (fun _ _ => ([], 0)).

(** ** Vocabulary of the new contigs *)

(** The identifiers that [ContigID::create] hands out in [n] calls from
    the state [st]. *)
Definition freshIds (st : State) (n : nat) : list ContigID :=
  map (fun j => (nextContigID st + N.of_nat j)%N) (List.seq 0 n).

(** Between [st] and [st'], [n] contigs were made: as many identifiers
    were taken, and each has its vertex queued for the graph and its
    record in the FASTA file, in the order of the identifiers. *)
Definition made (n : nat) (st st' : State) : Prop :=
  nextContigID st' = (nextContigID st + N.of_nat n)%N
  /\ exists vs fs,
       g_newVertices st' = g_newVertices st ++ vs
       /\ fa st' = fa st ++ fs
       /\ map nv_u vs = map (fun i => mkNode false i false) (freshIds st n)
       /\ map fa_id fs = freshIds st n
       /\ Forall (fun r => fa_length r = length (fa_seq r)) fs.

(** The nodes of a candidate between a prefix of [longestPrefix] nodes and
    a suffix of [longestSuffix] nodes, as [outputNewContig] prints them:
    nothing stands for ['*']. *)
Definition printedCore (longestPrefix longestSuffix : nat) (path : Path)
    : option ContigPath :=
  let core := firstn (length path - longestPrefix - longestSuffix)
                     (skipn longestPrefix path) in
  if is_empty core then None else Some core.

(** Between [st] and [st'] nothing was called but, at most once, an
    alignment oracle. *)
Definition alignedAtMostOnce (st st' : State) : Prop :=
  exists cs, calls st' = calls st ++ cs
             /\ (length cs <= 1)%nat /\ forallb isAlignment cs = true.

(** The node of a contig made by the program. *)
Definition newNode (i : ContigID) : ContigNode := mkNode false i false.

(** ** Vocabulary of the overlap merger *)

(** The sequence without its trailing filler bases. *)
Definition trimFiller (sq : Sequence) : Sequence :=
  rev ((fix drop (l : Sequence) : Sequence :=
          match l with
          | x :: r => if Ascii.eqb x "n" then drop r else l
          | [] => []
          end) (rev sq)).

(** ** Vocabulary of the path merger *)

(** The sequence of a node, empty when [getSequence] has none. *)
Definition seqOf (E : Env) (n : ContigNode) : Sequence :=
  match getSequence E n with
  | OK s => s
  | Abort _ => []
  end.

(** The graph has the edge from [a] to [b] with an overlap of [ov]
    bases, both sequences are longer than that, and the last [ov] bases
    of the first are the first [ov] bases of the second. *)
Definition overlapsExactly (E : Env) (g : Graph) (ov : nat)
    (a b : ContigNode) : Prop :=
  edge_distance g a b = Some (- Z.of_nat ov)
  /\ (ov < length (seqOf E a))%nat /\ (ov < length (seqOf E b))%nat
  /\ skipn (length (seqOf E a) - ov) (seqOf E a) = firstn ov (seqOf E b).

(** Every node of the path is related to the next. *)
Fixpoint chained (R : ContigNode -> ContigNode -> Prop) (path : Path)
    : Prop :=
  match path with
  | a :: ((b :: _) as rest) => R a b /\ chained R rest
  | _ => True
  end.

(** ** Vocabulary of the final pass *)

(** What the final pass writes for the node [it] of a window: the inner
    nodes of the resolution of the gap when [it] is a placeholder that
    has one, and [it] itself otherwise. *)
Definition substitute (reg : AmbPath2Contig)
    (w : ContigNode * ContigNode * ContigNode) : Path :=
  match w with
  | (prev, it, next) =>
      if ambiguous it then
        match map_find (mkConstraint prev next (gapDistance it)) reg with
        | Some solution =>
            if is_empty solution then [it] else interior solution
        | None => [it]
        end
      else [it]
  end.

(** A path with every window substituted, between its two ends. *)
Definition spliced (reg : AmbPath2Contig) (path : Path) : Path :=
  front path :: flat_map (substitute reg) (windows path) ++ [back path].

(** The path written for a path of the input. *)
Definition finalPath (reg : AmbPath2Contig) (path : Path) : Path :=
  if hasGap path then spliced reg path else path.

(** A path that the loader flags and that ends in a placeholder. *)
Definition endsInGap (path : Path) : bool :=
  hasGap path && ambiguous (back path).

(** Every gap of the list has an entry, which is empty or has two nodes
    at least. *)
Definition resolvedIn (reg : AmbPath2Contig)
    (gaps : list AmbPathConstraint) : Prop :=
  forall k, In k gaps ->
    exists v, map_find k reg = Some v /\ (v = [] \/ (2 <= length v)%nat).

(** The paths as the final pass goes through them. *)
Definition flagged (records : list (string * Path))
    : list (Path * string * bool) :=
  combine (combine (map snd records) (map fst records))
          (map (fun r => hasGap (snd r)) records).

(* ===================================================================== *)
(** * Part II: properties *)
(* ===================================================================== *)

(** ** Character facts *)

Ltac all_chars c :=
  destruct c as [[] [] [] [] [] [] [] []]; vm_compute; try reflexivity;
  try discriminate; auto.

Lemma toupper_not_x (c : ascii) : Ascii.eqb (toupper c) "x" = false.
Proof. all_chars c. Qed.

Lemma toupper_idem (c : ascii) : toupper (toupper c) = toupper c.
Proof. all_chars c. Qed.

Lemma toupper_tolower (c : ascii) : toupper (tolower c) = toupper c.
Proof. all_chars c. Qed.

Lemma islower_toupper (c : ascii) : islower (toupper c) = false.
Proof. all_chars c. Qed.

Lemma isupper_toupper (c : ascii) : isupper (toupper c) = isalpha c.
Proof. all_chars c. Qed.

Lemma islower_tolower (c : ascii) : islower (tolower c) = isalpha c.
Proof. all_chars c. Qed.

Lemma isupper_tolower (c : ascii) : isupper (tolower c) = false.
Proof. all_chars c. Qed.

Lemma isalpha_toupper (c : ascii) : isalpha (toupper c) = isalpha c.
Proof. all_chars c. Qed.

(** ** The per-base rule of [createConsensus] *)

Lemma compatible_dec (x y : ascii) : {compatible x y} + {~ compatible x y}.
Proof.
  unfold compatible, same_base, wildcard.
  destruct (ascii_dec (toupper x) (toupper y)); [left; auto|].
  destruct (ascii_dec (toupper x) "N"); [left; auto|].
  destruct (ascii_dec (toupper y) "N"); [left; auto|].
  right; intuition.
Qed.

Lemma loop_step_compatible (x y : ascii) (a b s : Sequence) :
  compatible x y ->
  createConsensus_loop (x :: a) (y :: b) s
  = createConsensus_loop a b (s ++ [picked x y]).
Proof.
  unfold compatible, same_base, wildcard, picked. intros H. simpl.
  destruct (Ascii.eqb_spec (toupper x) (toupper y)) as [E|E].
  - rewrite toupper_not_x. reflexivity.
  - destruct (Ascii.eqb_spec (toupper x) "N") as [E1|E1].
    + rewrite toupper_not_x. reflexivity.
    + destruct (Ascii.eqb_spec (toupper y) "N") as [E2|E2].
      * rewrite toupper_not_x. reflexivity.
      * exfalso. intuition.
Qed.

Lemma loop_step_conflict (x y : ascii) (a b s : Sequence) :
  ~ compatible x y -> createConsensus_loop (x :: a) (y :: b) s = [].
Proof.
  unfold compatible, same_base, wildcard. intros H. simpl.
  destruct (Ascii.eqb_spec (toupper x) (toupper y)) as [E|E]; [tauto|].
  destruct (Ascii.eqb_spec (toupper x) "N") as [E1|E1]; [tauto|].
  destruct (Ascii.eqb_spec (toupper y) "N") as [E2|E2]; [tauto|].
  reflexivity.
Qed.

Lemma loop_all_compatible (a b : Sequence) :
  Forall2 compatible a b ->
  forall s, createConsensus_loop a b s
            = s ++ map (fun p => picked (fst p) (snd p)) (combine a b).
Proof.
  induction 1 as [|x y a b Hxy _ IH]; intros s.
  - simpl. now rewrite app_nil_r.
  - rewrite loop_step_compatible by assumption.
    rewrite IH. simpl. now rewrite <- app_assoc.
Qed.

Lemma loop_some_conflict (a b : Sequence) :
  length a = length b -> ~ Forall2 compatible a b ->
  forall s, createConsensus_loop a b s = [].
Proof.
  revert b. induction a as [|x a IH]; intros [|y b] Hlen Hn s;
    try discriminate.
  - exfalso. apply Hn. constructor.
  - destruct (compatible_dec x y) as [C|C].
    + rewrite loop_step_compatible by assumption.
      apply IH; [simpl in Hlen; lia|].
      intros F. apply Hn. now constructor.
    + now apply loop_step_conflict.
Qed.

Lemma picked_letter (x y : ascii) :
  (same_base x y -> toupper (picked x y) = toupper x) /\
  (wildcard y -> compatible x y -> toupper (picked x y) = toupper x) /\
  (wildcard x -> toupper (picked x y) = toupper y).
Proof.
  unfold same_base, wildcard, compatible, picked.
  destruct (Ascii.eqb_spec (toupper x) (toupper y)) as [E|E];
    [|destruct (Ascii.eqb_spec (toupper x) "N") as [E1|E1]];
    destruct (islower x || islower y);
    rewrite ?toupper_tolower, ?toupper_idem;
    repeat split; intros; try congruence; unfold same_base, wildcard in *;
    intuition congruence.
Qed.

Lemma picked_case (x y : ascii) :
  isalpha x = true -> isalpha y = true ->
  islower (picked x y) = (islower x || islower y) /\
  isupper (picked x y) = negb (islower x || islower y).
Proof.
  intros Hx Hy. unfold picked.
  set (c := if Ascii.eqb (toupper x) (toupper y) then toupper x
            else if Ascii.eqb (toupper x) "N" then toupper y else toupper x).
  assert (Hc : exists z, c = toupper z /\ isalpha z = true).
  { subst c. destruct (Ascii.eqb (toupper x) (toupper y)); eauto.
    destruct (Ascii.eqb (toupper x) "N"); eauto. }
  destruct Hc as (z & -> & Hz).
  destruct (islower x || islower y).
  - now rewrite islower_tolower, isupper_tolower, isalpha_toupper.
  - now rewrite islower_toupper, isupper_toupper.
Qed.

Lemma seq_eqb_eq (a b : Sequence) : seq_eqb a b = true <-> a = b.
Proof. unfold seq_eqb. destruct (list_eq_dec ascii_dec a b); intuition congruence. Qed.

Lemma isupper_not_lower (x : ascii) :
  isalpha x = true -> isupper x = negb (islower x).
Proof. all_chars x. Qed.

(** C3. Over two sequences of equal length, [createConsensus] applies the
    per-base rule position by position: where every pair of bases is
    compatible the result has, at each position, the letter of [a] when the
    two bases agree up to case or [b] is the wildcard, the letter of [b]
    when [a] is the wildcard, in lower case exactly when one of the two
    input bases is lower case and in upper case otherwise; where some pair
    conflicts the whole result is the empty string. *)
Theorem createConsensus_per_base (a b : Sequence) :
  length a = length b ->
  (Forall2 compatible a b ->
   exists o, createConsensus a b = OK o /\ length o = length a /\
     forall i x y, nth_error a i = Some x -> nth_error b i = Some y ->
       exists c, nth_error o i = Some c /\
         (same_base x y -> toupper c = toupper x) /\
         (wildcard y -> toupper c = toupper x) /\
         (wildcard x -> toupper c = toupper y) /\
         (isalpha x = true -> isalpha y = true ->
            islower c = (islower x || islower y) /\
            isupper c = negb (islower x || islower y)))
  /\ (~ Forall2 compatible a b -> createConsensus a b = OK []).
Proof.
  intros Hlen. unfold createConsensus.
  rewrite (proj2 (Nat.eqb_eq _ _) Hlen). simpl. split.
  - intros Hc. destruct (seq_eqb a b) eqn:E.
    + apply seq_eqb_eq in E. subst b. exists a. repeat split; trivial.
      intros i x y Hx Hy. rewrite Hx in Hy. injection Hy as <-.
      exists x. repeat split; auto.
      * now rewrite orb_diag.
      * rewrite orb_diag. now apply isupper_not_lower.
    + eexists. split; [reflexivity|]. rewrite loop_all_compatible by assumption.
      simpl. split.
      * rewrite length_map, length_combine. lia.
      * intros i x y Hx Hy.
        exists (picked x y). split.
        { rewrite nth_error_map.
          assert (Hxy : nth_error (combine a b) i = Some (x, y)).
          { clear E Hlen. revert i Hx Hy.
            induction Hc; intros [|i] Hx Hy; simpl in *; try discriminate.
            - congruence.
            - auto. }
          now rewrite Hxy. }
        assert (Cxy : compatible x y).
        { clear E Hlen. revert i Hx Hy.
          induction Hc; intros [|i] Hx Hy; simpl in *; try discriminate.
          - congruence.
          - eauto. }
        destruct (picked_letter x y) as (L1 & L2 & L3).
        repeat split; auto; now apply picked_case.
  - intros Hn. destruct (seq_eqb a b) eqn:E.
    + apply seq_eqb_eq in E. subst b. exfalso. apply Hn.
      clear. induction a; constructor; auto. left. reflexivity.
    + now rewrite loop_some_conflict.
Qed.

(** The rule at work on ["ACgNt"] against ["AcGTN"], and a conflict. *)
Lemma createConsensus_per_base_witness :
  (exists o, createConsensus (seq "ACgNt") (seq "AcGTN") = OK o /\
     length o = length (seq "ACgNt") /\
     forall i x y, nth_error (seq "ACgNt") i = Some x ->
                   nth_error (seq "AcGTN") i = Some y ->
       exists c, nth_error o i = Some c /\
         (same_base x y -> toupper c = toupper x) /\
         (wildcard y -> toupper c = toupper x) /\
         (wildcard x -> toupper c = toupper y) /\
         (isalpha x = true -> isalpha y = true ->
            islower c = (islower x || islower y) /\
            isupper c = negb (islower x || islower y)))
  /\ createConsensus (seq "ACGT") (seq "ACCT") = OK [].
Proof.
  split.
  - apply (createConsensus_per_base (seq "ACgNt") (seq "AcGTN")).
    + reflexivity.
    + repeat (apply Forall2_cons;
              [first [left; reflexivity | right; left; reflexivity
                     | right; right; reflexivity]|]).
      apply Forall2_nil.
  - apply (createConsensus_per_base (seq "ACGT") (seq "ACCT")).
    + reflexivity.
    + intros F. cbv [seq list_ascii_of_string] in F.
      inversion F as [|? ? ? ? _ F1]; subst.
      inversion F1 as [|? ? ? ? _ F2]; subst.
      inversion F2 as [|? ? ? ? C _]; subst.
      destruct C as [C|[C|C]]; vm_compute in C; discriminate.
Defined.

Example createConsensus_ex1 :
  createConsensus (seq "ACgNt") (seq "AcGTN") = OK (seq "AcgTt").
Proof. reflexivity. Qed.

(** ** The candidate evaluator *)

Ltac run_monad :=
  unfold bind, ret, assert, abort, modify, gets, lift in *; simpl in *.

(** C4. When the number of vertices visited by the search reaches
    [opt::maxCost], [fillGap] returns the empty path whatever candidates
    the search found: the marks are left as they were, [tooComplex] has
    grown by one and no other counter has changed, nothing but the
    search is called, no contig is made and the run goes on. *)
Theorem fillGap_too_complex (E : Env) (g : Graph) (ap : AmbPathConstraint)
    (seen : list bool) (st : State) :
  opt_maxCost E <= snd (searchResult E g ap) ->
  exists st',
    fillGap E g ap seen st = OK (([], seen), st')
    /\ st' = set_stats incr_tooComplex (searched E ap st)
    /\ tooComplex (stats st') = (tooComplex (stats st) + 1) mod 2 ^ 32
    /\ numMerged (stats st') = numMerged (stats st)
    /\ numNoSolutions (stats st') = numNoSolutions (stats st)
    /\ numTooManySolutions (stats st') = numTooManySolutions (stats st)
    /\ notMerged (stats st') = notMerged (stats st)
    /\ numAmbPaths (stats st') = numAmbPaths (stats st)
    /\ calls st' = calls st
                   ++ [CallSearch (source ap)
                         [(dest ap,
                           (dist ap + opt_distanceError E) mod 2 ^ 32)]]
    /\ g_ambpath_contig st' = g_ambpath_contig st
    /\ g_newVertices st' = g_newVertices st
    /\ nextContigID st' = nextContigID st
    /\ fa st' = fa st
    /\ cerr st' = cerr st.
Proof.
  intros H. exists (set_stats incr_tooComplex (searched E ap st)).
  split; [|repeat split].
  unfold fillGap, searchResult in *.
  destruct (constrainedSearch E g (source ap) (searchConstraints E ap))
    as [solutions numVisited]. simpl in H.
  apply Z.leb_le in H. run_monad. rewrite H. reflexivity.
Qed.

(** A single candidate found within the budget, with at least one branch
    allowed: the gap is counted as merged, nothing is aligned or marked,
    and the path returned is the empty one, the candidate being dropped. *)
Lemma fillGap_one_candidate (E : Env) (g : Graph) (ap : AmbPathConstraint)
    (seen : list bool) (st : State) (sol : Path) (numVisited : Z) :
  searchResult E g ap = ([sol], numVisited) ->
  numVisited < opt_maxCost E ->
  1 <= opt_numBranches E ->
  fillGap E g ap seen st
  = OK (([], seen), set_stats incr_numMerged (searched E ap st)).
Proof.
  intros H Hv Hb. unfold fillGap, searchResult in *. rewrite H.
  apply Z.leb_gt in Hv. run_monad. rewrite Hv.
  replace (opt_numBranches E <? 1) with false by (symmetry; lia).
  reflexivity.
Qed.

(** A gap reaching the budget of the search, with two candidates found. *)
Lemma fillGap_too_complex_witness :
  opt_maxCost tooComplexEnv
  <= snd (searchResult tooComplexEnv (overlapGraph 3)
                       (mkConstraint (contig 0) (contig 2) (-5)))
  /\ length (candidates tooComplexEnv (overlapGraph 3)
                (mkConstraint (contig 0) (contig 2) (-5))) = 2%nat
  /\ exists st',
       fillGap tooComplexEnv (overlapGraph 3)
               (mkConstraint (contig 0) (contig 2) (-5))
               [false; false; false] (initialState 8)
       = OK (([], [false; false; false]), st')
       /\ stats st' = mkStats 0 0 0 0 1 0
       /\ calls st' = [CallSearch (contig 0) [(contig 2, 1)]].
Proof.
  split; [vm_compute; discriminate|]. split; [reflexivity|].
  destruct (fillGap_too_complex tooComplexEnv (overlapGraph 3)
              (mkConstraint (contig 0) (contig 2) (-5))
              [false; false; false] (initialState 8))
    as (st' & F & -> & _).
  - vm_compute. discriminate.
  - exists (set_stats incr_tooComplex
              (searched tooComplexEnv
                 (mkConstraint (contig 0) (contig 2) (-5))
                 (initialState 8))).
    split; [exact F|]. split; reflexivity.
Defined.

(** C1. The run on one gap with a single candidate path: the search finds
    [0 1 2] within its budget, no alignment is called and the gap is
    counted as merged, but the registry keeps the empty path for it and
    the placeholder is still in the path written out. *)
Theorem one_candidate_gap_left_unfilled :
  let key := mkConstraint (contig 0) (contig 2) (-5) in
  candidates oneCandidateEnv (overlapGraph 3) key
    = [[contig 0; contig 1; contig 2]]
  /\ snd (searchResult oneCandidateEnv (overlapGraph 3) key)
     < opt_maxCost oneCandidateEnv
  /\ exists st,
       main oneCandidateEnv (overlapGraph 3) oneGapPaths (initialState 8)
         = OK ([PathLine "7" [contig 0; gap 5; contig 2]], st)
       /\ numMerged (stats st) = 1
       /\ alignmentCalls st = []
       /\ g_ambpath_contig st = [(key, [])].
Proof.
  simpl. split; [reflexivity|]. split; [reflexivity|].
  eexists. split; [vm_compute; reflexivity|].
  repeat split.
Qed.

(** ** The order of constraints and the registry *)

Section Registry.

Lemma node_index_inj (a b : ContigNode) :
  node_index a = node_index b -> a = b.
Proof.
  destruct a as [[] i []], b as [[] j []]; unfold node_index;
    cbn [ambiguous id sense]; intros H;
    first [exfalso; lia | f_equal; lia].
Qed.

Lemma node_eqb_eq (a b : ContigNode) : node_eqb a b = true <-> a = b.
Proof.
  unfold node_eqb. rewrite Z.eqb_eq. split.
  - apply node_index_inj.
  - now intros ->.
Qed.

Lemma constraint_ltb_iff (x a : AmbPathConstraint) :
  constraint_ltb x a = true <->
  (node_index (source x) < node_index (source a)
   \/ (node_index (source x) = node_index (source a)
       /\ node_index (dest x) < node_index (dest a))
   \/ (node_index (source x) = node_index (source a)
       /\ node_index (dest x) = node_index (dest a)
       /\ dist x < dist a)).
Proof.
  unfold constraint_ltb, node_ltb, node_eqb.
  rewrite !orb_true_iff, !andb_true_iff, !Z.ltb_lt, !Z.eqb_eq. tauto.
Qed.

Lemma constraint_eqb_eq (x a : AmbPathConstraint) :
  constraint_eqb x a = true <-> x = a.
Proof.
  unfold constraint_eqb.
  rewrite !andb_true_iff, !node_eqb_eq, Z.eqb_eq.
  destruct x, a; simpl. split.
  - intros [[-> ->] ->]. reflexivity.
  - intros H. injection H as -> -> ->. auto.
Qed.

Lemma constraint_ltb_irrefl (x : AmbPathConstraint) :
  constraint_ltb x x = false.
Proof.
  destruct (constraint_ltb x x) eqn:E; [|reflexivity].
  apply constraint_ltb_iff in E. lia.
Qed.

Lemma constraint_ltb_trans (x y z : AmbPathConstraint) :
  constraint_ltb x y = true -> constraint_ltb y z = true ->
  constraint_ltb x z = true.
Proof. rewrite !constraint_ltb_iff. lia. Qed.

Lemma constraint_ltb_total (x y : AmbPathConstraint) :
  constraint_ltb x y = false -> constraint_ltb y x = false -> x = y.
Proof.
  intros H1 H2.
  assert (N1 : ~ constraint_ltb x y = true) by congruence.
  assert (N2 : ~ constraint_ltb y x = true) by congruence.
  rewrite constraint_ltb_iff in N1, N2.
  destruct x as [sx dx ix], y as [sy dy iy]; simpl in *.
  assert (node_index sx = node_index sy) by lia.
  assert (node_index dx = node_index dy) by lia.
  assert (ix = iy) by lia.
  f_equal; auto using node_index_inj.
Qed.

Lemma keys_insert (k : AmbPathConstraint) (v : ContigPath)
    (m : AmbPath2Contig) (k' : AmbPathConstraint) :
  In k' (keys (map_insert k v m)) <-> k' = k \/ In k' (keys m).
Proof.
  induction m as [|[k0 v0] m IH]; simpl.
  - intuition.
  - destruct (constraint_ltb k k0) eqn:L1; simpl; [intuition|].
    destruct (constraint_ltb k0 k) eqn:L2; simpl.
    + unfold keys in IH. rewrite IH. intuition.
    + pose proof (constraint_ltb_total _ _ L1 L2). subst. intuition.
Qed.

Lemma ordered_insert (k : AmbPathConstraint) (v : ContigPath)
    (m : AmbPath2Contig) :
  ordered m -> ordered (map_insert k v m).
Proof.
  unfold ordered. induction m as [|[k0 v0] m IH]; simpl; intros H.
  - repeat constructor.
  - inversion H as [|? ? Hm Hall]; subst.
    destruct (constraint_ltb k k0) eqn:L1; simpl.
    + constructor; [assumption|]. constructor; [assumption|].
      rewrite Forall_forall in *. intros z Hz.
      eauto using constraint_ltb_trans.
    + destruct (constraint_ltb k0 k) eqn:L2; simpl; [|assumption].
      constructor; [auto|].
      rewrite Forall_forall in *. intros z Hz.
      apply (keys_insert k v m z) in Hz. destruct Hz as [->|Hz]; auto.
Qed.

Lemma ordered_NoDup (m : AmbPath2Contig) : ordered m -> NoDup (keys m).
Proof.
  unfold ordered. induction 1 as [|k l _ IH Hall]; constructor; auto.
  intros Hin. rewrite Forall_forall in Hall.
  specialize (Hall _ Hin). now rewrite constraint_ltb_irrefl in Hall.
Qed.

Lemma unresolved_insert (k : AmbPathConstraint) (m : AmbPath2Contig) :
  unresolved m -> unresolved (map_insert k [] m).
Proof.
  unfold unresolved. induction m as [|[k0 v0] m IH]; simpl; intros H.
  - repeat constructor.
  - inversion H; subst.
    destruct (constraint_ltb k k0); [repeat constructor; auto|].
    destruct (constraint_ltb k0 k); [constructor; auto|assumption].
Qed.



(** Inserting under a key that is there leaves the map as it is. *)
Lemma map_insert_present (k : AmbPathConstraint) (v : ContigPath)
    (m : AmbPath2Contig) :
  ordered m -> In k (keys m) -> map_insert k v m = m.
Proof.
  unfold ordered. induction m as [|[k0 v0] m IH]; simpl; intros Ho Hin;
    [tauto|].
  inversion Ho as [|? ? Hm Hall]; subst.
  destruct Hin as [->|Hin].
  - now rewrite constraint_ltb_irrefl.
  - rewrite Forall_forall in Hall. pose proof (Hall _ Hin) as L.
    destruct (constraint_ltb k k0) eqn:L'.
    + pose proof (constraint_ltb_trans _ _ _ L L') as T.
      now rewrite constraint_ltb_irrefl in T.
    + rewrite L. f_equal. auto.
Qed.

Lemma map_find_present (k : AmbPathConstraint) (m : AmbPath2Contig) :
  ordered m -> In k (keys m) -> exists v, map_find k m = Some v /\ In (k, v) m.
Proof.
  unfold ordered. induction m as [|[k0 v0] m IH]; simpl; intros Ho Hin;
    [tauto|].
  inversion Ho as [|? ? Hm Hall]; subst.
  destruct Hin as [->|Hin].
  - rewrite constraint_ltb_irrefl. eauto.
  - rewrite Forall_forall in Hall. pose proof (Hall _ Hin) as L.
    destruct (constraint_ltb k k0) eqn:L'.
    + pose proof (constraint_ltb_trans _ _ _ L L') as T.
      now rewrite constraint_ltb_irrefl in T.
    + rewrite L. destruct (IH Hm Hin) as (v & F & I). eauto.
Qed.

End Registry.

(** ** The path loader *)

Section Loader.

Lemma set_registry_same (st : State) :
  set_registry (fun _ => g_ambpath_contig st) st = st.
Proof. now destruct st. Qed.

Lemma set_registry_twice (m m' : AmbPath2Contig) (st : State) :
  set_registry (fun _ => m') (set_registry (fun _ => m) st)
  = set_registry (fun _ => m') st.
Proof. reflexivity. Qed.

Lemma windows_short (path : Path) :
  (length path <= 2)%nat -> windows path = [].
Proof.
  destruct path as [|a [|b [|c p]]]; simpl; intros; trivial; lia.
Qed.

(** What one scan adds to the registry. *)
Lemma scanPath_spec (path : Path) :
  forall (cur : bool) (m : AmbPath2Contig),
    ordered m -> unresolved m ->
    exists m',
      scanPath path cur m = (cur || hasGap path, m')
      /\ ordered m' /\ unresolved m'
      /\ forall k, In k (keys m') <-> In k (keys m) \/ In k (gapsOfPath path).
Proof.
  induction path as [|prev rest IH]; intros cur m Ho Hu.
  - exists m. simpl. rewrite orb_false_r. intuition.
  - destruct rest as [|it [|next rest']].
    + exists m. simpl. rewrite orb_false_r. intuition.
    + exists m. simpl. rewrite orb_false_r. intuition.
    + change (scanPath (prev :: it :: next :: rest') cur m)
        with (if ambiguous it
              then scanPath (it :: next :: rest') true
                     (map_insert (mkConstraint prev next (gapDistance it))
                                 [] m)
              else scanPath (it :: next :: rest') cur m).
      unfold hasGap, gapsOfPath in *.
      change (windows (prev :: it :: next :: rest'))
        with ((prev, it, next) :: windows (it :: next :: rest')).
      simpl existsb. simpl filter.
      destruct (ambiguous it) eqn:A.
      * destruct (IH true
                    (map_insert (mkConstraint prev next (gapDistance it))
                                [] m))
          as (m' & E & Ho' & Hu' & Hk);
          [now apply ordered_insert | now apply unresolved_insert |].
        exists m'. rewrite E. rewrite orb_true_r. simpl.
        repeat split; trivial; intros H.
        -- apply Hk in H. rewrite keys_insert in H. simpl. intuition.
        -- apply Hk. rewrite keys_insert. simpl in H. intuition.
      * destruct (IH cur m Ho Hu) as (m' & E & Ho' & Hu' & Hk).
        exists m'. rewrite E. simpl. intuition.
Qed.

(** The loader never aborts once started: it returns every path with
    its label and flag, and leaves in the registry the constraints it
    found there together with those of the placeholders that have a node
    on either side, all unresolved. *)
Lemma readPath_loop_spec (records : list (string * Path)) :
  forall (paths : ContigPaths) (ids : list string) (isAmb : list bool)
         (st : State),
    ordered (g_ambpath_contig st) -> unresolved (g_ambpath_contig st) ->
    exists m',
      readPath_loop records paths ids isAmb st
      = OK ((paths ++ map snd records, ids ++ map fst records,
             isAmb ++ map (fun r => hasGap (snd r)) records),
            set_registry (fun _ => m') st)
      /\ ordered m' /\ unresolved m'
      /\ forall k, In k (keys m')
                   <-> In k (keys (g_ambpath_contig st))
                       \/ In k (gapsOf records).
Proof.
  induction records as [|[i path] records IH]; intros paths ids isAmb st Ho Hu.
  - exists (g_ambpath_contig st). simpl. rewrite !app_nil_r.
    rewrite set_registry_same. unfold ret. intuition.
  - simpl readPath_loop. destruct (length path <=? 2)%nat eqn:L.
    + apply Nat.leb_le in L.
      destruct (IH (paths ++ [path]) (ids ++ [i]) (isAmb ++ [false]) st Ho Hu)
        as (m' & E & Ho' & Hu' & Hk).
      exists m'. rewrite E. simpl.
      unfold hasGap at 2, gapsOfPath.
      rewrite (windows_short path L). simpl.
      rewrite <- !app_assoc. simpl. repeat split; trivial; apply Hk.
    + destruct (scanPath_spec path false Ho Hu) as (m1 & E1 & Ho1 & Hu1 & Hk1).
      unfold bind, gets, modify. rewrite E1. simpl orb.
      destruct (IH (paths ++ [path]) (ids ++ [i]) (isAmb ++ [hasGap path])
                   (set_registry (fun _ => m1) st) Ho1 Hu1)
        as (m' & E & Ho' & Hu' & Hk).
      exists m'. rewrite E. rewrite set_registry_twice.
      simpl. rewrite <- !app_assoc. simpl. repeat split; trivial; intros H.
      * apply Hk in H. simpl in H. rewrite Hk1 in H.
        rewrite in_app_iff. tauto.
      * apply Hk. simpl. rewrite Hk1. rewrite in_app_iff in H. tauto.
Qed.

Lemma readPath_spec (records : list (string * Path)) (st : State) :
  g_ambpath_contig st = [] ->
  exists m',
    readPath records st
    = OK ((map snd records, map fst records,
           map (fun r => hasGap (snd r)) records),
          set_registry (fun _ => m') st)
    /\ ordered m' /\ unresolved m'
    /\ forall k, In k (keys m') <-> In k (gapsOf records).
Proof.
  intros He. unfold readPath, bind, gets, assert. rewrite He. simpl.
  assert (Ho : ordered (g_ambpath_contig st))
    by (rewrite He; constructor).
  assert (Hu : unresolved (g_ambpath_contig st))
    by (rewrite He; constructor).
  destruct (readPath_loop_spec records [] [] [] st Ho Hu)
    as (m' & E & Ho' & Hu' & Hk).
  exists m'. simpl in E. rewrite E. repeat split; trivial; intros H.
  - apply Hk in H. rewrite He in H. simpl in H. tauto.
  - apply Hk. auto.
Qed.

End Loader.

(** ** Frames: what the builders leave untouched *)

Section Frames.

Variable R : State -> State -> Prop.
Hypothesis R_refl : forall st, R st st.
Hypothesis R_trans : forall a b c, R a b -> R b c -> R a c.

Lemma preserves_ret {A} (a : A) : preserves R (ret a).
Proof using R_refl. intros st x st' H. injection H as _ <-. auto. Qed.

Lemma preserves_abort {A} (msg : string) : preserves R (@abort A msg).
Proof using. intros st x st' H. discriminate. Qed.

Lemma preserves_assert (b : bool) (msg : string) :
  preserves R (assert b msg).
Proof using R_refl.
  destruct b; [apply preserves_ret | apply preserves_abort].
Qed.

Lemma preserves_lift {A} (r : Result A) : preserves R (lift r).
Proof using R_refl.
  intros st x st' H. destruct r; [|discriminate].
  injection H as _ <-. auto.
Qed.

Lemma preserves_gets {A} (f : State -> A) : preserves R (gets f).
Proof using R_refl. intros st x st' H. injection H as _ <-. auto. Qed.

Lemma preserves_modify (f : State -> State) :
  (forall st, R st (f st)) -> preserves R (modify f).
Proof using. intros Hf st x st' H. injection H as _ <-. auto. Qed.

Lemma preserves_bind {A B} (m : M A) (f : A -> M B) :
  preserves R m -> (forall a, preserves R (f a)) -> preserves R (bind m f).
Proof using R_trans.
  intros Hm Hf st b st' H. unfold bind in H.
  destruct (m st) as [[a st1]|] eqn:E; [|discriminate].
  exact (R_trans (Hm _ _ _ E) (Hf _ _ _ _ H)).
Qed.

End Frames.

Lemma preserves_weaken (R R' : State -> State -> Prop) {A} (m : M A) :
  (forall st st', R st st' -> R' st st') -> preserves R m -> preserves R' m.
Proof. intros H Hm st a st' E. eauto. Qed.

Lemma onlyWarns_refl (st : State) : onlyWarns st st.
Proof. exists []. destruct st. unfold warned. simpl. now rewrite app_nil_r. Qed.

Lemma onlyWarns_trans (a b c : State) :
  onlyWarns a b -> onlyWarns b c -> onlyWarns a c.
Proof.
  intros [w1 ->] [w2 ->]. exists (w1 ++ w2). unfold warned. simpl.
  now rewrite app_assoc.
Qed.

Lemma onlyAligns_refl (st : State) : onlyAligns st st.
Proof. repeat split. exists []. now rewrite app_nil_r. Qed.

Lemma onlyAligns_trans (a b c : State) :
  onlyAligns a b -> onlyAligns b c -> onlyAligns a c.
Proof.
  intros (S1 & G1 & c1 & C1 & F1) (S2 & G2 & c2 & C2 & F2).
  repeat split; try congruence.
  exists (c1 ++ c2). rewrite C2, C1, app_assoc, forallb_app, F1, F2. auto.
Qed.

Lemma onlyWarns_onlyAligns (st st' : State) :
  onlyWarns st st' -> onlyAligns st st'.
Proof.
  intros [ws ->]. repeat split. exists []. simpl. now rewrite app_nil_r.
Qed.

(** One step of a frame proof: split a bind, close a primitive, or open a
    conditional. *)
Ltac frame_step refl trans :=
  match goal with
  | |- preserves _ (bind _ _) => apply preserves_bind; [exact trans| |intros]
  | |- preserves _ (ret _) => apply preserves_ret; exact refl
  | |- preserves _ (abort _) => apply preserves_abort
  | |- preserves _ (assert _ _) => apply preserves_assert; exact refl
  | |- preserves _ (lift _) => apply preserves_lift; exact refl
  | |- preserves _ (gets _) => apply preserves_gets; exact refl
  | |- preserves _ (if ?b then _ else _) => destruct b
  | |- preserves _ (match ?x with _ => _ end) => destruct x
  | |- preserves _ (let (_, _) := ?x in _) => destruct x
  end.

Ltac frame refl trans := repeat frame_step refl trans.

Lemma mergeContigs_onlyWarns (overlap : nat) (sq s : Sequence)
    (node : ContigNode) (path : Path) :
  preserves onlyWarns (mergeContigs overlap sq s node path).
Proof.
  unfold mergeContigs. frame onlyWarns_refl onlyWarns_trans.
  apply preserves_modify. intros st. eexists [_]. reflexivity.
Qed.

Lemma mergePath_loop_onlyWarns (E : Env) (g : Graph) (path : Path)
    (its : list ContigNode) :
  forall (prev : ContigNode) (sq : Sequence),
    preserves onlyWarns (mergePath_loop E g path prev its sq).
Proof.
  induction its as [|it its IH]; intros prev sq; simpl.
  - apply preserves_ret, onlyWarns_refl.
  - apply preserves_bind; [exact onlyWarns_trans| |intros; apply IH].
    frame onlyWarns_refl onlyWarns_trans.
    apply mergeContigs_onlyWarns.
Qed.

Lemma mergePath_onlyWarns (E : Env) (g : Graph) (path : Path) :
  preserves onlyWarns (mergePath E g path).
Proof. apply mergePath_loop_onlyWarns. Qed.

Lemma mergePath_onlyAligns (E : Env) (g : Graph) (path : Path) :
  preserves onlyAligns (mergePath E g path).
Proof.
  eapply preserves_weaken; [apply onlyWarns_onlyAligns|].
  apply mergePath_onlyWarns.
Qed.

Lemma onlyAligns_same (st st' : State) :
  stats st' = stats st -> g_ambpath_contig st' = g_ambpath_contig st ->
  calls st' = calls st -> onlyAligns st st'.
Proof.
  intros S G C. repeat split; trivial. exists []. now rewrite app_nil_r.
Qed.

Lemma outputNewContig_onlyAligns (solutions : list Path)
    (longestPrefix longestSuffix : nat) (sq : Sequence) (coverage : Z) :
  preserves onlyAligns
    (outputNewContig solutions longestPrefix longestSuffix sq coverage).
Proof.
  unfold outputNewContig. frame onlyAligns_refl onlyAligns_trans.
  - intros st x st' H. injection H as _ <-. now apply onlyAligns_same.
  - apply preserves_modify. intros st. now apply onlyAligns_same.
  - apply preserves_modify. intros st. now apply onlyAligns_same.
Qed.

Lemma record_alignment_onlyAligns (c : Call) :
  isAlignment c = true -> preserves onlyAligns (modify (record_call c)).
Proof.
  intros H. apply preserves_modify. intros st. repeat split.
  exists [c]. simpl. now rewrite H.
Qed.

Lemma warn_onlyAligns (w : Warning) : preserves onlyAligns (modify (warn w)).
Proof.
  apply preserves_modify. intros st. apply onlyWarns_onlyAligns.
  now exists [w].
Qed.

Ltac frame_aligns :=
  repeat first
    [ frame_step onlyAligns_refl onlyAligns_trans
    | apply mergePath_onlyAligns
    | apply outputNewContig_onlyAligns
    | apply record_alignment_onlyAligns; reflexivity
    | apply warn_onlyAligns ].

Lemma alignPair_onlyAligns (E : Env) (g : Graph) (solutions : ContigPaths) :
  preserves onlyAligns (alignPair E g solutions).
Proof. unfold alignPair. frame_aligns. Qed.

Lemma ambSeqs_onlyAligns (E : Env) (g : Graph) (sol0 : Path)
    (solutions : list Path) (longestPrefix longestSuffix : nat) :
  forall (amb_seqs : list Sequence) (coverage : Z),
    preserves onlyAligns
      (ambSeqs E g sol0 solutions longestPrefix longestSuffix amb_seqs
               coverage).
Proof.
  induction solutions as [|sol rest IH]; intros amb_seqs coverage; simpl.
  - apply preserves_ret, onlyAligns_refl.
  - frame_aligns; apply IH.
Qed.

Lemma checkPalindromes_onlyAligns (E : Env) (solutions : list Path)
    (longestPrefix longestSuffix : nat) (p0 p1 : ContigID) :
  preserves onlyAligns
    (checkPalindromes E solutions longestPrefix longestSuffix p0 p1).
Proof. unfold checkPalindromes. frame_aligns. Qed.

Lemma alignMulti_onlyAligns (E : Env) (g : Graph) (solutions : list Path) :
  preserves onlyAligns (alignMulti E g solutions).
Proof.
  unfold alignMulti.
  repeat first [ apply ambSeqs_onlyAligns
               | apply checkPalindromes_onlyAligns
               | frame_aligns ].
Qed.

Lemma align_onlyAligns (E : Env) (g : Graph) (sequences : list Path) :
  preserves onlyAligns (align E g sequences).
Proof.
  unfold align. frame_aligns.
  - apply alignPair_onlyAligns.
  - apply alignMulti_onlyAligns.
Qed.

(** ** One gap *)

Lemma searchCalls_app (a b : list Call) :
  searchCalls (a ++ b) = searchCalls a ++ searchCalls b.
Proof. apply flat_map_app. Qed.

Lemma searchCalls_alignments (cs : list Call) :
  forallb isAlignment cs = true -> searchCalls cs = [].
Proof.
  induction cs as [|c cs IH]; simpl; [reflexivity|].
  destruct c; simpl; intros H; try discriminate; auto.
Qed.

(** Whatever its outcome, a call of [fillGap] that returns has bumped one
    of the five counters, has called the search once, has left the registry
    alone, and has marked the contigs of the candidates exactly when it
    returns a consensus. *)
Lemma fillGap_outcome (E : Env) (g : Graph) (ap : AmbPathConstraint)
    (seen seen' : list bool) (st st' : State) (r : ContigPath) :
  fillGap E g ap seen st = OK ((r, seen'), st') ->
  (exists f, In f outcomeCounters /\ stats st' = f (stats st))
  /\ g_ambpath_contig st' = g_ambpath_contig st
  /\ searchCalls (calls st') = searchCalls (calls st) ++ [searchOf E ap]
  /\ seen' = (if is_empty r then seen
              else markSeenPaths seen (candidates E g ap) true).
Proof.
  unfold fillGap, candidates, searchResult.
  destruct (constrainedSearch E g (source ap) (searchConstraints E ap))
    as [solutions numVisited]. simpl fst.
  set (sols := map (fun sol => source ap :: sol) solutions).
  unfold bind at 1. unfold modify at 1.
  assert (S0 : searchCalls (calls (searched E ap st))
               = searchCalls (calls st) ++ [searchOf E ap]).
  { unfold searched. simpl. now rewrite searchCalls_app. }
  fold (searched E ap st).
  assert (Simple : forall f, In f outcomeCounters ->
            (modify (set_stats f) ;;; ret ([], seen)) (searched E ap st)
            = OK ((r, seen'), st') ->
            (exists f, In f outcomeCounters /\ stats st' = f (stats st))
            /\ g_ambpath_contig st' = g_ambpath_contig st
            /\ searchCalls (calls st')
               = searchCalls (calls st) ++ [searchOf E ap]
            /\ seen' = (if is_empty r then seen
                        else markSeenPaths seen sols true)).
  { intros f Hf H. run_monad. injection H as <- <- <-. simpl.
    repeat split; eauto. }
  destruct (opt_maxCost E <=? numVisited).
  { apply Simple. simpl. auto. }
  destruct (opt_numBranches E <? Z.of_nat (length sols)).
  { apply Simple. simpl. auto. }
  destruct (is_empty sols).
  { apply Simple. simpl. auto. }
  destruct (length sols =? 1)%nat.
  { apply Simple. simpl. auto 6. }
  clear Simple. intros H. unfold bind in H.
  destruct (assert (1 <? length sols)%nat "solutions.size() > 1"
                   (searched E ap st)) as [[[] st1]|] eqn:A; [|discriminate].
  assert (st1 = searched E ap st).
  { unfold assert in A. destruct (1 <? length sols)%nat;
      [injection A as <-; reflexivity | discriminate]. }
  subst st1. clear A.
  destruct (align E g sols (searched E ap st)) as [[c st2]|] eqn:Al;
    [|discriminate].
  destruct (align_onlyAligns E g sols _ Al) as (S2 & G2 & cs & C2 & F2).
  assert (SC : searchCalls (calls st2)
               = searchCalls (calls st) ++ [searchOf E ap]).
  { rewrite C2, searchCalls_app, S0, (searchCalls_alignments cs F2).
    now rewrite app_nil_r. }
  destruct (is_empty c) eqn:Ec; simpl in H; unfold modify, ret in H;
    injection H as <- <- <-; simpl; rewrite Ec; repeat split; trivial.
  - exists incr_notMerged. split; [simpl; auto 6|]. now rewrite S2.
  - exists incr_numMerged. split; [simpl; auto 6|]. now rewrite S2.
Qed.

(** ** The resolution loop *)

Lemma resolveGaps_inv (E : Env) (g : Graph) (k : AmbPathConstraint)
    (v : ContigPath) (rest reg' : AmbPath2Contig) (seen seen' : list bool)
    (st st' : State) :
  resolveGaps E g ((k, v) :: rest) seen st = OK ((reg', seen'), st') ->
  exists c seen1 st1 rest',
    fillGap E g k seen st = OK ((c, seen1), st1)
    /\ resolveGaps E g rest seen1 st1 = OK ((rest', seen'), st')
    /\ reg' = (k, c) :: rest'.
Proof.
  simpl. unfold bind. intros H.
  destruct (fillGap E g k seen st) as [[[c seen1] st1]|] eqn:F;
    [|discriminate].
  destruct (resolveGaps E g rest seen1 st1) as [[[rest' seen2] st2]|] eqn:Rv;
    [|discriminate].
  injection H as <- <- <-. exists c, seen1, st1, rest'. auto.
Qed.

(** The loop keeps the keys, leaves the registry of the state alone and
    calls the search once for each entry, in order. *)
Lemma resolveGaps_searches (E : Env) (g : Graph) (todo : AmbPath2Contig) :
  forall (seen seen' : list bool) (st st' : State) (reg' : AmbPath2Contig),
    resolveGaps E g todo seen st = OK ((reg', seen'), st') ->
    keys reg' = keys todo
    /\ g_ambpath_contig st' = g_ambpath_contig st
    /\ searchCalls (calls st')
       = searchCalls (calls st) ++ map (searchOf E) (keys todo).
Proof.
  induction todo as [|[k v] rest IH]; intros seen seen' st st' reg' H.
  - injection H as <- <- <-. simpl. now rewrite app_nil_r.
  - apply resolveGaps_inv in H.
    destruct H as (c & seen1 & st1 & rest' & F & Rv & ->).
    apply fillGap_outcome in F. destruct F as (_ & G1 & C1 & _).
    apply IH in Rv. destruct Rv as (K & G2 & C2).
    simpl. rewrite K, G2, G1, C2, C1, <- app_assoc. auto.
Qed.

Lemma outcome_step (f : Stats -> Stats) (s : Stats) :
  In f outcomeCounters -> counted s -> outcomes s + 1 < 2 ^ 32 ->
  counted (f s) /\ outcomes (f s) = outcomes s + 1
  /\ numAmbPaths (f s) = numAmbPaths s.
Proof.
  unfold outcomeCounters, counted, outcomes.
  intros Hf (H1 & H2 & H3 & H4 & H5) Hb.
  simpl in Hf.
  destruct Hf as [<-|[<-|[<-|[<-|[<-|[]]]]]]; simpl;
    unfold incr, to_unsigned; rewrite Z.mod_small by lia; lia.
Qed.

(** Every entry adds one to the sum of the five counters. *)
Lemma resolveGaps_outcomes (E : Env) (g : Graph) (todo : AmbPath2Contig) :
  forall (seen seen' : list bool) (st st' : State) (reg' : AmbPath2Contig),
    resolveGaps E g todo seen st = OK ((reg', seen'), st') ->
    counted (stats st) ->
    outcomes (stats st) + Z.of_nat (length todo) < 2 ^ 32 ->
    counted (stats st')
    /\ outcomes (stats st') = outcomes (stats st) + Z.of_nat (length todo)
    /\ numAmbPaths (stats st') = numAmbPaths (stats st).
Proof.
  induction todo as [|[k v] rest IH]; intros seen seen' st st' reg' H Hc Hb.
  - injection H as <- <- <-. simpl. rewrite Z.add_0_r. auto.
  - apply resolveGaps_inv in H.
    destruct H as (c & seen1 & st1 & rest' & F & Rv & ->).
    apply fillGap_outcome in F. destruct F as ((f & Hf & S1) & _).
    simpl length in *. rewrite Nat2Z.inj_succ in *.
    destruct (outcome_step Hf Hc) as (Hc1 & O1 & N1); [lia|].
    rewrite <- S1 in *.
    destruct (IH _ _ _ _ _ Rv Hc1) as (Hc2 & O2 & N2); [lia|].
    split; [exact Hc2|]. split; [lia|congruence].
Qed.

(** ** The run as a whole *)

Lemma startNumbering_numbered (E : Env) (pathIDs : list string)
    (st : State) :
  startNumbering E pathIDs st = OK (tt, numbered E pathIDs st).
Proof. destruct pathIDs; reflexivity. Qed.

(** The numbering touches nothing but the counter of identifiers. *)
Lemma numbered_frame (E : Env) (pathIDs : list string) (st : State) :
  stats (numbered E pathIDs st) = stats st
  /\ g_ambpath_contig (numbered E pathIDs st) = g_ambpath_contig st
  /\ g_newVertices (numbered E pathIDs st) = g_newVertices st
  /\ fa (numbered E pathIDs st) = fa st
  /\ cerr (numbered E pathIDs st) = cerr st
  /\ calls (numbered E pathIDs st) = calls st.
Proof. destruct pathIDs; repeat split. Qed.

(** A run that ends has loaded the paths, resolved the registry that the
    loader left, and written the contigs still marked followed by the
    paths. *)
Lemma main_inv (E : Env) (g : Graph) (records : list (string * Path))
    (st st' : State) (out : list OutLine) :
  g_ambpath_contig st = [] ->
  main E g records st = OK (out, st') ->
  exists m reg seen st2 lines,
    readPath records st
    = OK ((map snd records, map fst records,
           map (fun r => hasGap (snd r)) records),
          set_registry (fun _ => m) st)
    /\ ordered m /\ unresolved m
    /\ (forall k, In k (keys m) <-> In k (gapsOf records))
    /\ resolveGaps E g m (repeat false (length (g_contigs E)))
                    (numbered E (map fst records) (loaded m st))
       = OK ((reg, seen), st2)
    /\ st' = set_registry (fun _ => reg) st2
    /\ outputPaths reg
         (combine (combine (map snd records) (map fst records))
                  (map (fun r => hasGap (snd r)) records))
       = OK lines
    /\ out = outputSeen (length (g_contigs E))
                        (unmarkUsed reg (map snd records) seen)
             ++ lines.
Proof.
  intros He H. destruct (readPath_spec records st He) as (m & Rd & Ho & Hu & Hk).
  unfold main in H. unfold bind at 1 in H. rewrite Rd in H.
  unfold bind at 1 in H. unfold gets at 1 in H. simpl g_ambpath_contig in H.
  unfold bind at 1 in H. unfold modify at 1 in H.
  fold (loaded m st) in H.
  unfold bind at 1 in H. rewrite startNumbering_numbered in H.
  unfold bind at 1 in H.
  destruct (resolveGaps E g m (repeat false (length (g_contigs E)))
                        (numbered E (map fst records) (loaded m st)))
    as [[[reg seen] st2]|] eqn:Rv;
    [|discriminate].
  unfold bind at 1 in H. unfold modify at 1 in H.
  unfold bind, lift in H.
  destruct (outputPaths reg _) as [lines|] eqn:Op; [|discriminate].
  injection H as <- <-.
  exists m, reg, seen, st2, lines. repeat split; trivial; apply Hk.
Qed.

(** C10. Each call of [fillGap] that returns has incremented one of the
    five outcome counters, and at the end of a run started with the
    counters at zero their sum is the number of entries of the registry,
    which is what the summary reports as ambiguous paths. *)
Theorem outcome_counters_add_up (E : Env) (g : Graph)
    (records : list (string * Path)) (st st' : State) (out : list OutLine) :
  g_ambpath_contig st = [] ->
  stats st = mkStats 0 0 0 0 0 0 ->
  Z.of_nat (length (gapsOf records)) < 2 ^ 32 ->
  main E g records st = OK (out, st') ->
  (forall k seen seen1 st0 st1 c,
      fillGap E g k seen st0 = OK ((c, seen1), st1) ->
      exists f, In f outcomeCounters /\ stats st1 = f (stats st0))
  /\ numAmbPaths (stats st') = Z.of_nat (length (g_ambpath_contig st'))
  /\ outcomes (stats st') = numAmbPaths (stats st').
Proof.
  intros He Hs Hb Hm. split.
  { intros k seen seen1 st0 st1 c F. now apply fillGap_outcome in F. }
  apply main_inv in Hm; [|exact He].
  destruct Hm
    as (m & reg & seen & st2 & lines & _ & Ho & _ & Hk & Rv & -> & _).
  assert (Len : (length m <= length (gapsOf records))%nat).
  { rewrite <- (length_map fst m). apply NoDup_incl_length.
    - now apply ordered_NoDup.
    - intros k Hin. now apply Hk. }
  assert (Small : to_unsigned (Z.of_nat (length m)) = Z.of_nat (length m)).
  { unfold to_unsigned. apply Z.mod_small. lia. }
  pose proof Rv as Rs. apply resolveGaps_searches in Rs.
  destruct Rs as (K & _ & _).
  destruct (numbered_frame E (map fst records) (loaded m st)) as (Ns & _).
  apply resolveGaps_outcomes in Rv. destruct Rv as (_ & O & N).
  - rewrite Ns in O, N.
    simpl. rewrite N, O. unfold loaded. simpl. rewrite Hs, Small.
    unfold outcomes. simpl.
    assert (length reg = length m).
    { rewrite <- (length_map fst reg), <- (length_map fst m).
      unfold keys in K. now rewrite K. }
    lia.
  - rewrite Ns. unfold loaded. simpl. rewrite Hs. unfold counted. simpl. lia.
  - rewrite Ns. unfold loaded. simpl. rewrite Hs. unfold outcomes. simpl.
    lia.
Qed.

(** The sample run: two gaps, one merged and one without solution. *)
Lemma outcome_counters_add_up_witness :
  exists out st',
    main sampleRunEnv (overlapGraph 3) samplePaths (initialState 13)
    = OK (out, st')
    /\ numAmbPaths (stats st') = 2
    /\ outcomes (stats st') = numAmbPaths (stats st').
Proof.
  destruct (main sampleRunEnv (overlapGraph 3) samplePaths (initialState 13))
    as [[out st']|] eqn:Hm; [|vm_compute in Hm; discriminate].
  exists out, st'. split; [reflexivity|].
  pose proof (@outcome_counters_add_up sampleRunEnv (overlapGraph 3)
                samplePaths (initialState 13) st' out
                eq_refl eq_refl eq_refl Hm) as (_ & N & O).
  split; [|exact O].
  vm_compute in Hm. injection Hm as _ <-. reflexivity.
Defined.











Example sample_gaps :
  gapsOf samplePaths
  = [mkConstraint (contig 0) (contig 2) (-5);
     mkConstraint (contig 0) (contig 2) (-5);
     mkConstraint (contig 2) (contig 4) (-3)].
Proof. reflexivity. Qed.





(** ** The overlap merger *)

Lemma createConsensus_conflict (a b : Sequence) :
  length a = length b -> ~ Forall2 compatible a b ->
  createConsensus a b = OK [].
Proof.
  intros Hlen Hn. unfold createConsensus.
  rewrite (proj2 (Nat.eqb_eq _ _) Hlen). simpl.
  destruct (seq_eqb a b) eqn:E.
  - apply seq_eqb_eq in E. subst b. exfalso. apply Hn.
    clear. induction a; constructor; auto. left. reflexivity.
  - now rewrite loop_some_conflict.
Qed.

(** The loop of [mergeContigs], one round at a time. *)
Lemma mergeContigs_loop_round (overlap : nat) (bo sq : Sequence) :
  mergeContigs_loop overlap bo sq
  = if (overlap <? length sq)%nat then
      match createConsensus (skipn (length sq - overlap) sq) bo with
      | Abort msg => Abort msg
      | OK o =>
          if is_empty o then
            match chomp sq "n" with
            | (true, sq') => mergeContigs_loop overlap bo sq'
            | (false, _) => OK (sq, skipn (length sq - overlap) sq, o)
            end
          else OK (sq, skipn (length sq - overlap) sq, o)
      end
    else Abort "seq.length() > overlap".
Proof.
  rewrite mergeContigs_loop_equation_1.
  destruct (overlap <? length sq)%nat; simpl; [|reflexivity].
  destruct (createConsensus _ bo) as [o|]; simpl; [|reflexivity].
  destruct (is_empty o); simpl; [|reflexivity].
  unfold inspect.
  destruct (chomp sq "n") as [[] sq']; reflexivity.
Qed.



Lemma overlap_lengths (overlap : nat) (sq s : Sequence) :
  (overlap < length s)%nat -> (overlap < length sq)%nat ->
  length (skipn (length sq - overlap) sq) = length (firstn overlap s).
Proof. intros. rewrite length_skipn, length_firstn. lia. Qed.




(** ** The pairwise builder *)

Lemma node_eqb_refl (a : ContigNode) : node_eqb a a = true.
Proof. now apply node_eqb_eq. Qed.

Lemma complement_differs (a : ContigNode) : node_eqb a (complement a) = false.
Proof.
  destruct (node_eqb a (complement a)) eqn:E; [|reflexivity].
  apply node_eqb_eq in E. destruct a as [am i []]; discriminate.
Qed.

Lemma complement_involutive (a : ContigNode) : complement (complement a) = a.
Proof. destruct a as [am i []]; reflexivity. Qed.

Lemma std_equal_refl (p : Path) : std_equal p p = true.
Proof.
  unfold std_equal. induction p as [|x p IH]; simpl; [reflexivity|].
  now rewrite node_eqb_refl.
Qed.

Lemma mismatch_at (common rest rest' : Path) (x y : ContigNode) :
  node_eqb x y = false ->
  mismatch (common ++ x :: rest) (common ++ y :: rest') = (x :: rest, y :: rest').
Proof.
  intros H. induction common as [|c common IH]; simpl.
  - now rewrite H.
  - now rewrite node_eqb_refl.
Qed.

Lemma is_empty_false {A} (l : list A) : l <> [] -> is_empty l = false.
Proof. destruct l; [contradiction | reflexivity]. Qed.

Lemma onlyWarns_frame (st st' : State) :
  onlyWarns st st' ->
  stats st' = stats st /\ g_ambpath_contig st' = g_ambpath_contig st
  /\ g_newVertices st' = g_newVertices st
  /\ nextContigID st' = nextContigID st /\ fa st' = fa st
  /\ calls st' = calls st.
Proof. intros [ws ->]. repeat split. Qed.

(** The start of [alignPair] on two candidates with inner nodes: the
    assertions pass and the two inner paths are merged. *)
Ltac enter_alignPair L0 L1 F B N0 N1 M0 M1 :=
  unfold alignPair;
  rewrite (proj2 (Nat.ltb_lt _ _) L0), (proj2 (Nat.ltb_lt _ _) L1);
  rewrite F, B, !node_eqb_refl;
  rewrite (is_empty_false N0), (is_empty_false N1);
  unfold bind, assert, ret; cbn [orb];
  rewrite M0, M1.

Lemma mismatch_same (p : Path) : mismatch p p = ([], []).
Proof.
  induction p as [|x p IH]; [reflexivity|].
  simpl. now rewrite node_eqb_refl.
Qed.

(** Two paths of the same length are the same path or differ first at
    some position. *)
Lemma first_difference (p : Path) :
  forall q, length p = length q ->
    p = q
    \/ exists common x y rest rest',
         p = common ++ x :: rest /\ q = common ++ y :: rest'
         /\ x <> y /\ length rest = length rest'.
Proof.
  induction p as [|a p IH]; intros [|b q] L; try discriminate L.
  - now left.
  - injection L as L.
    destruct (node_eqb a b) eqn:Eab.
    + apply node_eqb_eq in Eab. subst b.
      destruct (IH q L) as [->|(c & x & y & r & r' & -> & -> & Ne & Lr)].
      * now left.
      * right. exists (a :: c), x, y, r, r'. auto.
    + right. exists [], a, b, p, q. repeat split; trivial.
      intros ->. now rewrite node_eqb_refl in Eab.
Qed.

Lemma std_equal_eq (p : Path) :
  forall q, length p = length q -> (std_equal p q = true <-> p = q).
Proof.
  unfold std_equal.
  induction p as [|a p IH]; intros [|b q] L; try discriminate L.
  - simpl. tauto.
  - injection L as L. simpl. rewrite andb_true_iff, (IH q L), node_eqb_eq.
    split; [intros [-> ->]; reflexivity | intros [= -> ->]; auto].
Qed.

Lemma node_neq (x y : ContigNode) : x <> y -> node_eqb x y = false.
Proof.
  intros Ne. destruct (node_eqb x y) eqn:Eq; [|reflexivity].
  apply node_eqb_eq in Eq. contradiction.
Qed.

(** The start of [alignPair] on two candidates whose inner paths have
    as many nodes and merge to the same sequence. *)
Ltac enter_palindrome L0 L1 F B N0 N1 M0 M1 Len :=
  enter_alignPair L0 L1 F B N0 N1 M0 M1;
  match goal with
  | |- context [seq_eqb ?sq ?sq] =>
      rewrite (proj2 (seq_eqb_eq sq sq) eq_refl)
  end;
  rewrite (proj2 (Nat.eqb_eq _ _) Len).

(** C8 as the builder has it. Two candidates whose inner paths merge to
    the same sequence.  When the inner paths are equal up to one position,
    at which the node of one is the node of the other on the opposite
    strand, the first candidate is returned as it is: no contig is made
    and nothing is aligned.  When the inner paths have as many nodes and
    are not of this kind the builder aborts: on its first assertion when
    they are the same path, on its third when the nodes at which they
    first differ are not opposite strands of a contig, on its fourth when
    they differ after that position; so the builder returns only for
    inner paths of the first kind. *)
Theorem alignPair_palindrome (E : Env) (g : Graph) (sol0 sol1 : Path)
    (sq : Sequence) (st st1 st2 : State) :
  (1 < length sol0)%nat -> (1 < length sol1)%nat ->
  front sol0 = front sol1 -> back sol0 = back sol1 ->
  mergePath E g (interior sol0) st = OK (sq, st1) ->
  mergePath E g (interior sol1) st1 = OK (sq, st2) ->
  (forall common x rest,
      interior sol0 = common ++ x :: rest ->
      interior sol1 = common ++ complement x :: rest ->
      alignPair E g [sol0; sol1] st = OK (sol0, st2)
      /\ length (interior sol0) = length (interior sol1)
      /\ g_newVertices st2 = g_newVertices st
      /\ nextContigID st2 = nextContigID st
      /\ fa st2 = fa st
      /\ calls st2 = calls st)
  /\ (interior sol0 <> [] -> interior sol0 = interior sol1 ->
      alignPair E g [sol0; sol1] st = Abort "it.first != fstSol.end()")
  /\ (forall common x y rest rest',
        interior sol0 = common ++ x :: rest ->
        interior sol1 = common ++ y :: rest' ->
        length rest = length rest' ->
        x <> y -> x <> complement y ->
        alignPair E g [sol0; sol1] st = Abort "*it.first == ~*it.second")
  /\ (forall common x rest rest',
        interior sol0 = common ++ x :: rest ->
        interior sol1 = common ++ complement x :: rest' ->
        length rest = length rest' ->
        rest <> rest' ->
        alignPair E g [sol0; sol1] st
        = Abort "equal(it.first+1, It(fstSol.end()), it.second+1)")
  /\ (forall r st',
        interior sol0 <> [] ->
        length (interior sol0) = length (interior sol1) ->
        alignPair E g [sol0; sol1] st = OK (r, st') ->
        r = sol0 /\ st' = st2
        /\ exists common x rest,
             interior sol0 = common ++ x :: rest
             /\ interior sol1 = common ++ complement x :: rest).
Proof.
  intros L0 L1 F B M0 M1.
  assert (Pos : forall common x rest,
             interior sol0 = common ++ x :: rest ->
             interior sol1 = common ++ complement x :: rest ->
             alignPair E g [sol0; sol1] st = OK (sol0, st2)).
  { intros common x rest I0 I1.
    assert (N0 : interior sol0 <> []) by (rewrite I0; now destruct common).
    assert (N1 : interior sol1 <> []) by (rewrite I1; now destruct common).
    assert (Len : length (interior sol0) = length (interior sol1))
      by (rewrite I0, I1, !length_app; reflexivity).
    enter_palindrome L0 L1 F B N0 N1 M0 M1 Len.
    rewrite I0, I1, (@mismatch_at common rest rest _ _ (complement_differs x)).
    rewrite complement_involutive, node_eqb_refl, std_equal_refl.
    reflexivity. }
  assert (Same : interior sol0 <> [] -> interior sol0 = interior sol1 ->
                 alignPair E g [sol0; sol1] st
                 = Abort "it.first != fstSol.end()").
  { intros N0 Eq.
    assert (N1 : interior sol1 <> []) by (rewrite <- Eq; exact N0).
    assert (Len : length (interior sol0) = length (interior sol1))
      by (now rewrite Eq).
    enter_palindrome L0 L1 F B N0 N1 M0 M1 Len.
    rewrite Eq, mismatch_same. reflexivity. }
  assert (Third : forall common x y rest rest',
             interior sol0 = common ++ x :: rest ->
             interior sol1 = common ++ y :: rest' ->
             length rest = length rest' ->
             x <> y -> x <> complement y ->
             alignPair E g [sol0; sol1] st
             = Abort "*it.first == ~*it.second").
  { intros common x y rest rest' I0 I1 Lr Ne Nc.
    assert (N0 : interior sol0 <> []) by (rewrite I0; now destruct common).
    assert (N1 : interior sol1 <> []) by (rewrite I1; now destruct common).
    assert (Len : length (interior sol0) = length (interior sol1))
      by (rewrite I0, I1, !length_app; simpl; now rewrite Lr).
    enter_palindrome L0 L1 F B N0 N1 M0 M1 Len.
    rewrite I0, I1, (@mismatch_at common rest rest' _ _ (node_neq Ne)).
    rewrite (node_neq Nc). reflexivity. }
  assert (Fourth : forall common x rest rest',
             interior sol0 = common ++ x :: rest ->
             interior sol1 = common ++ complement x :: rest' ->
             length rest = length rest' ->
             rest <> rest' ->
             alignPair E g [sol0; sol1] st
             = Abort "equal(it.first+1, It(fstSol.end()), it.second+1)").
  { intros common x rest rest' I0 I1 Lr Nr.
    assert (N0 : interior sol0 <> []) by (rewrite I0; now destruct common).
    assert (N1 : interior sol1 <> []) by (rewrite I1; now destruct common).
    assert (Len : length (interior sol0) = length (interior sol1))
      by (rewrite I0, I1, !length_app; simpl; now rewrite Lr).
    enter_palindrome L0 L1 F B N0 N1 M0 M1 Len.
    rewrite I0, I1, (@mismatch_at common rest rest' _ _ (complement_differs x)).
    rewrite complement_involutive, node_eqb_refl.
    replace (std_equal rest rest') with false; [reflexivity|].
    symmetry. destruct (std_equal rest rest') eqn:Eq; [|reflexivity].
    apply (std_equal_eq rest rest' Lr) in Eq. contradiction. }
  split; [|split; [exact Same|split; [exact Third|split; [exact Fourth|]]]].
  - intros common x rest I0 I1.
    split; [now apply (Pos common x rest)|].
    split; [rewrite I0, I1, !length_app; reflexivity|].
    apply mergePath_onlyWarns in M0. apply mergePath_onlyWarns in M1.
    apply onlyWarns_frame in M0. apply onlyWarns_frame in M1.
    intuition congruence.
  - intros r st' N0 Len H.
    destruct (first_difference (interior sol0) (interior sol1) Len)
      as [Eq|(common & x & y & rest & rest' & I0 & I1 & Ne & Lr)].
    + rewrite (Same N0 Eq) in H. discriminate H.
    + destruct (node_eqb x (complement y)) eqn:Ec.
      * apply node_eqb_eq in Ec. subst x.
        rewrite <- (complement_involutive y) in I1 at 1.
        destruct (list_eq_dec
                    (fun a b : ContigNode =>
                       match Bool.bool_dec (node_eqb a b) true with
                       | left e => left (proj1 (node_eqb_eq a b) e)
                       | right n =>
                           right (fun e => n (proj2 (node_eqb_eq a b) e))
                       end) rest rest') as [<-|Nr].
        -- rewrite (Pos common (complement y) rest I0 I1) in H.
           injection H as <- <-. split; [reflexivity|].
           split; [reflexivity|]. eauto.
        -- rewrite (Fourth common (complement y) rest rest' I0 I1 Lr Nr)
             in H. discriminate H.
      * assert (Nc : x <> complement y).
        { intros ->. now rewrite node_eqb_refl in Ec. }
        rewrite (Third common x y rest rest' I0 I1 Lr Ne Nc) in H.
        discriminate H.
Qed.

(** Contig 1 of the sample is a palindrome: its two strands give two
    candidates with the same sequence, and the first is returned.  Two
    different contigs with the same sequence stop the run. *)
Lemma alignPair_palindrome_witness :
  alignPair palindromeEnv (overlapGraph 3)
            [[contig 0; contig 1; contig 2];
             [contig 0; mkNode false 1 true; contig 2]] (initialState 8)
  = OK ([contig 0; contig 1; contig 2], initialState 8)
  /\ alignPair duplicateEnv (overlapGraph 3)
               [[contig 0; contig 1; contig 2];
                [contig 0; contig 3; contig 2]] (initialState 8)
     = Abort "*it.first == ~*it.second".
Proof.
  assert (L : (1 < 3)%nat) by lia.
  split.
  - destruct (@alignPair_palindrome palindromeEnv (overlapGraph 3)
                [contig 0; contig 1; contig 2]
                [contig 0; mkNode false 1 true; contig 2]
                (seq "AACGTT")
                (initialState 8) (initialState 8) (initialState 8)
                L L eq_refl eq_refl eq_refl eq_refl)
      as (P & _).
    apply (P [] (contig 1) []); reflexivity.
  - destruct (@alignPair_palindrome duplicateEnv (overlapGraph 3)
                [contig 0; contig 1; contig 2]
                [contig 0; contig 3; contig 2]
                (seq "GGGTTTAAAC")
                (initialState 8) (initialState 8) (initialState 8)
                L L eq_refl eq_refl eq_refl eq_refl)
      as (_ & _ & T & _).
    apply (T [] (contig 1) (contig 3) [] []);
      try reflexivity; discriminate.
Defined.

(** Two different contigs with the same sequence: the inner paths merge
    to identical sequences and have one node each, and the builder aborts
    on its assertion instead of returning the first candidate. *)
Lemma alignPair_duplicate_contigs_abort :
  let st := initialState 8 in
  let sol0 := [contig 0; contig 1; contig 2] in
  let sol1 := [contig 0; contig 3; contig 2] in
  mergePath duplicateEnv (overlapGraph 3) (interior sol0) st
    = OK (seq "GGGTTTAAAC", st)
  /\ mergePath duplicateEnv (overlapGraph 3) (interior sol1) st
     = OK (seq "GGGTTTAAAC", st)
  /\ length (interior sol0) = length (interior sol1)
  /\ alignPair duplicateEnv (overlapGraph 3) [sol0; sol1] st
     = Abort "*it.first == ~*it.second".
Proof. repeat split. Qed.

(** ** The length-ratio prefilter *)

Lemma ambSeqs_onlyWarns (E : Env) (g : Graph) (sol0 : Path)
    (solutions : list Path) (longestPrefix longestSuffix : nat) :
  forall (amb_seqs : list Sequence) (coverage : Z),
    preserves onlyWarns
      (ambSeqs E g sol0 solutions longestPrefix longestSuffix amb_seqs
               coverage).
Proof.
  induction solutions as [|sol rest IH]; intros amb_seqs coverage; simpl.
  - apply preserves_ret, onlyWarns_refl.
  - repeat first [ frame_step onlyWarns_refl onlyWarns_trans
                 | apply mergePath_onlyWarns ]; apply IH.
Qed.

Unset Implicit Arguments.

(** ** Single precision: what the rounded quotient is *)





















(** ** The prefilter as [fillGap] has it *)








Lemma outputNewContig_loop_spec (solutions : list Path) (lp ls : nat) :
  (Forall (fun p => (lp + ls <= length p)%nat) solutions ->
   outputNewContig_loop solutions lp ls
   = OK (map (printedCore lp ls) solutions))
  /\ (forall cores, outputNewContig_loop solutions lp ls = OK cores ->
        Forall (fun p => (lp + ls <= length p)%nat) solutions).
Proof.
  induction solutions as [|p rest [IH1 IH2]]; simpl; split.
  - reflexivity.
  - constructor.
  - intros F. inversion F as [|? ? Hp Hr]; subst.
    rewrite (proj2 (Nat.leb_le _ _) Hp). simpl. now rewrite (IH1 Hr).
  - intros cores H. destruct (lp + ls <=? length p)%nat eqn:L;
      [|discriminate]. simpl in H.
    destruct (outputNewContig_loop rest lp ls) as [l|] eqn:R;
      [|discriminate].
    constructor; [now apply Nat.leb_le | now apply (IH2 l)].
Qed.

Lemma made_one_explicit (st st' : State) (v : NewVertex) (r : FastaRecord) :
  nextContigID st' = N.succ (nextContigID st) ->
  g_newVertices st' = g_newVertices st ++ [v] ->
  fa st' = fa st ++ [r] ->
  nv_u v = newNode (nextContigID st) -> fa_id r = nextContigID st ->
  fa_length r = length (fa_seq r) ->
  made 1 st st'.
Proof.
  intros I V F U D L. split; [rewrite I; simpl; lia|].
  exists [v], [r]. unfold freshIds. simpl. rewrite N.add_0_r, U, D.
  repeat split; trivial. repeat constructor. exact L.
Qed.






(** A ratio of lengths below the default threshold and above the
    single-precision number just below it: the quotient is rounded to the
    threshold and does not test as too low. *)
Lemma ratio_rounded_to_threshold :
  15099493 * 4194299 < 3774869 * 2 ^ 24 < 15099494 * 4194299
  /\ tooLow ratioEnv (ratio 3774869 4194299) = false.
Proof. split; [lia | vm_compute; reflexivity]. Qed.




Set Implicit Arguments.

(** ** The marks of the contigs seen *)

Section Marks.

Lemma length_assign {A} (l : list A) (i : nat) (x : A) :
  length (assign l i x) = length l.
Proof.
  revert i. induction l as [|y l IH]; intros [|i]; simpl; auto.
Qed.

Lemma nth_assign (l : list bool) (i c : nat) (x : bool) :
  nth c (assign l i x) false
  = if ((c =? i) && (i <? length l))%nat then x else nth c l false.
Proof.
  revert i c. induction l as [|y l IH]; intros i c.
  - simpl. destruct c; rewrite andb_false_r; destruct i; reflexivity.
  - destruct i as [|i], c as [|c]; simpl; try reflexivity.
    rewrite IH. reflexivity.
Qed.

Lemma length_markSeen (path : ContigPath) (flag : bool) :
  forall seen, length (markSeen seen path flag) = length seen.
Proof.
  unfold markSeen. induction path as [|it path IH]; intros seen; simpl;
    [reflexivity|].
  rewrite IH. destruct (_ && _); [apply length_assign | reflexivity].
Qed.

Lemma nth_markSeen (path : ContigPath) (flag : bool) (c : nat) :
  forall seen,
    nth c (markSeen seen path flag) false
    = if mentions c path && (c <? length seen)%nat then flag
      else nth c seen false.
Proof.
  unfold markSeen, mentions.
  induction path as [|it path IH]; intros seen; simpl; [reflexivity|].
  rewrite IH. clear IH.
  destruct (ambiguous it); simpl; [reflexivity|].
  destruct (N.to_nat (id it) <? length seen)%nat eqn:In.
  - rewrite length_assign, nth_assign, In, andb_true_r.
    rewrite (Nat.eqb_sym c).
    destruct (N.to_nat (id it) =? c)%nat eqn:Eq; simpl; [|reflexivity].
    apply Nat.eqb_eq in Eq. subst c. rewrite In.
    now destruct (existsb _ path).
  - destruct (N.to_nat (id it) =? c)%nat eqn:Eq; simpl; [|reflexivity].
    apply Nat.eqb_eq in Eq. subst c. rewrite In, !andb_false_r.
    reflexivity.
Qed.

Lemma length_markSeenPaths (paths : list Path) (flag : bool) :
  forall seen, length (markSeenPaths seen paths flag) = length seen.
Proof.
  unfold markSeenPaths. induction paths as [|p paths IH]; intros seen;
    simpl; [reflexivity|].
  now rewrite IH, length_markSeen.
Qed.

Lemma nth_markSeenPaths (paths : list Path) (flag : bool) (c : nat) :
  forall seen,
    nth c (markSeenPaths seen paths flag) false
    = if mentionedIn c paths && (c <? length seen)%nat then flag
      else nth c seen false.
Proof.
  unfold markSeenPaths, mentionedIn.
  induction paths as [|p paths IH]; intros seen; simpl; [reflexivity|].
  rewrite IH, length_markSeen, nth_markSeen.
  destruct (mentions c p), (existsb (mentions c) paths),
    (c <? length seen)%nat; reflexivity.
Qed.

Lemma nth_beyond (seen : list bool) (c : nat) :
  (c <? length seen)%nat = false -> nth c seen false = false.
Proof. intros H. apply nth_overflow. now apply Nat.ltb_ge. Qed.

(** After the loop a contig is marked when it was marked before or is in
    a candidate of a gap that came back with a consensus. *)
Lemma resolveGaps_seen (E : Env) (g : Graph) (todo : AmbPath2Contig) :
  forall (seen seen' : list bool) (st st' : State) (reg' : AmbPath2Contig),
    resolveGaps E g todo seen st = OK ((reg', seen'), st') ->
    length seen' = length seen
    /\ forall c, nth c seen' false
                 = nth c seen false
                   || ((c <? length seen)%nat
                       && inMergedCandidates E g c reg').
Proof.
  induction todo as [|[k v] rest IH]; intros seen seen' st st' reg' H.
  - injection H as <- <- <-. split; [reflexivity|]. intros c. simpl.
    now rewrite andb_false_r, orb_false_r.
  - apply resolveGaps_inv in H.
    destruct H as (r & seen1 & st1 & rest' & F & Rv & ->).
    apply fillGap_outcome in F. destruct F as (_ & _ & _ & S1).
    apply IH in Rv. destruct Rv as (L2 & N2).
    assert (L1 : length seen1 = length seen).
    { rewrite S1. destruct (is_empty r); [reflexivity|].
      apply length_markSeenPaths. }
    split; [congruence|]. intros c. rewrite N2, L1.
    unfold inMergedCandidates at 2. simpl. fold (inMergedCandidates E g c rest').
    rewrite S1. destruct (is_empty r); simpl.
    + reflexivity.
    + rewrite nth_markSeenPaths.
      destruct (mentionedIn c (candidates E g k)),
        (c <? length seen)%nat eqn:In, (inMergedCandidates E g c rest');
        simpl; rewrite ?orb_true_r, ?orb_false_r; try reflexivity;
        now rewrite (nth_beyond seen c In).
Qed.

Lemma unmark_registry (reg : AmbPath2Contig) :
  forall seen,
    fold_left (fun seen kv => markSeen seen (snd kv) false) reg seen
    = markSeenPaths seen (map snd reg) false.
Proof.
  unfold markSeenPaths. induction reg as [|kv reg IH]; intros seen; simpl;
    [reflexivity|]. apply IH.
Qed.

(** After the unmarking a contig is marked when it was and is neither in
    a resolution nor in a path. *)
Lemma nth_unmarkUsed (reg : AmbPath2Contig) (paths : ContigPaths)
    (seen : list bool) (c : nat) :
  nth c (unmarkUsed reg paths seen) false
  = nth c seen false && negb (mentionedIn c (map snd reg))
    && negb (mentionedIn c paths).
Proof.
  unfold unmarkUsed. rewrite unmark_registry.
  rewrite nth_markSeenPaths, length_markSeenPaths, nth_markSeenPaths.
  destruct (c <? length seen)%nat eqn:In.
  - destruct (mentionedIn c paths), (mentionedIn c (map snd reg));
      simpl; rewrite ?andb_false_r, ?andb_true_r; reflexivity.
  - rewrite (nth_beyond seen c In), !andb_false_r. reflexivity.
Qed.

Lemma outputPaths_lines (reg : AmbPath2Contig)
    (paths : list (Path * string * bool)) :
  forall lines, outputPaths reg paths = OK lines ->
                forall c, ~ In (ContigLine c) lines.
Proof.
  induction paths as [|[[path label] isAmb] paths IH]; intros lines H c.
  - injection H as <-. auto.
  - simpl in H.
    destruct (if negb isAmb then _ else _) as [cur|]; [|discriminate].
    destruct (outputPaths reg paths) as [ls|]; [|discriminate].
    injection H as <-. intros [D|D]; [discriminate|].
    exact (IH ls eq_refl c D).
Qed.

End Marks.

(** C2 as the run has it. The contigs written on a line of their own, one
    line each and before the paths, are those that are in a candidate of a
    gap for which a consensus is stored and that are neither in a stored
    resolution nor in an input path; a contig that no such candidate
    contains is not written, whether or not anything refers to it. *)
Theorem leftover_contigs (E : Env) (g : Graph)
    (records : list (string * Path)) (st st' : State) (out : list OutLine) :
  g_ambpath_contig st = [] ->
  main E g records st = OK (out, st') ->
  exists cs lines,
    out = map ContigLine cs ++ lines
    /\ NoDup cs
    /\ (forall c, ~ In (ContigLine c) lines)
    /\ forall c,
         In c cs <->
         (c < length (g_contigs E))%nat
         /\ inMergedCandidates E g c (g_ambpath_contig st') = true
         /\ mentionedIn c (map snd (g_ambpath_contig st')) = false
         /\ mentionedIn c (map snd records) = false.
Proof.
  intros He Hm. apply main_inv in Hm; [|exact He].
  destruct Hm as (m & reg & seen & st2 & lines & _ & _ & _ & _ & Rv & -> & Op & ->).
  apply resolveGaps_seen in Rv. destruct Rv as (Ls & Ns).
  rewrite repeat_length in Ls.
  set (n := length (g_contigs E)) in *.
  exists (filter (fun c => nth c (unmarkUsed reg (map snd records) seen) false)
                 (List.seq 0 n)), lines.
  split; [reflexivity|]. split; [apply NoDup_filter, seq_NoDup|].
  split; [exact (outputPaths_lines _ _ Op)|].
  intros c. rewrite filter_In, in_seq, nth_unmarkUsed, Ns.
  rewrite nth_repeat, repeat_length. simpl g_ambpath_contig. simpl orb.
  rewrite !andb_true_iff, !negb_true_iff, Nat.ltb_lt. intuition lia.
Qed.

(** In the sample run contigs 1 and 3, the inner nodes of the candidates of
    the merged gap, are written on lines of their own. *)
Lemma leftover_contigs_witness :
  exists out st' cs lines,
    main sampleRunEnv (overlapGraph 3) samplePaths (initialState 13)
    = OK (out, st')
    /\ out = map ContigLine cs ++ lines
    /\ NoDup cs
    /\ (forall c, ~ In (ContigLine c) lines)
    /\ forall c,
         In c cs <->
         (c < length (g_contigs sampleRunEnv))%nat
         /\ inMergedCandidates sampleRunEnv (overlapGraph 3) c
                               (g_ambpath_contig st') = true
         /\ mentionedIn c (map snd (g_ambpath_contig st')) = false
         /\ mentionedIn c (map snd samplePaths) = false.
Proof.
  destruct (main sampleRunEnv (overlapGraph 3) samplePaths (initialState 13))
    as [[out st']|] eqn:Hm; [|vm_compute in Hm; discriminate].
  destruct (@leftover_contigs sampleRunEnv (overlapGraph 3) samplePaths
              (initialState 13) st' out eq_refl Hm) as (cs & lines & H).
  exists out, st', cs, lines. split; [reflexivity | exact H].
Defined.

(** Contig 7 of the sample is in no input path and in no resolution, and
    the run does not write it. *)
Lemma unreferenced_contig_not_emitted :
  exists out st',
    main sampleRunEnv (overlapGraph 3) samplePaths (initialState 13)
    = OK (out, st')
    /\ (7 < length (g_contigs sampleRunEnv))%nat
    /\ mentionedIn 7 (map snd samplePaths) = false
    /\ mentionedIn 7 (map snd (g_ambpath_contig st')) = false
    /\ ~ In (ContigLine 7) out.
Proof.
  eexists. eexists. split; [vm_compute; reflexivity|].
  split; [simpl; lia|]. split; [reflexivity|]. split; [reflexivity|].
  simpl. intuition discriminate.
Qed.

(* ===================================================================== *)
(** * Part III: more of the program *)
(* ===================================================================== *)

Unset Implicit Arguments.

(** ** More on the per-base rule *)

Lemma compatible_sym (x y : ascii) : compatible x y -> compatible y x.
Proof. unfold compatible, same_base. intuition. Qed.

Lemma picked_sym (x y : ascii) : compatible x y -> picked x y = picked y x.
Proof.
  unfold compatible, same_base, wildcard, picked. intros C.
  rewrite (orb_comm (islower y)).
  destruct (Ascii.eqb_spec (toupper x) (toupper y)) as [E|E].
  - rewrite <- E, Ascii.eqb_refl. reflexivity.
  - destruct (Ascii.eqb_spec (toupper y) (toupper x)) as [E'|_];
      [congruence|].
    destruct (Ascii.eqb_spec (toupper x) "N") as [E1|E1];
      destruct (Ascii.eqb_spec (toupper y) "N") as [E2|E2];
      try reflexivity; try congruence. intuition.
Qed.

Lemma Forall2_compatible_sym (a b : Sequence) :
  Forall2 compatible a b -> Forall2 compatible b a.
Proof. induction 1; constructor; auto using compatible_sym. Qed.

Lemma picked_combine_sym (a b : Sequence) :
  Forall2 compatible a b ->
  map (fun p => picked (fst p) (snd p)) (combine a b)
  = map (fun p => picked (fst p) (snd p)) (combine b a).
Proof.
  induction 1 as [|x y a b C _ IH]; simpl; [reflexivity|].
  now rewrite IH, (picked_sym _ _ C).
Qed.

Lemma Forall2_compatible_dec (a b : Sequence) :
  {Forall2 compatible a b} + {~ Forall2 compatible a b}.
Proof.
  revert b. induction a as [|x a IH]; intros [|y b].
  - left. constructor.
  - right. intros F. inversion F.
  - right. intros F. inversion F.
  - destruct (compatible_dec x y) as [C|C].
    + destruct (IH b) as [F|F].
      * left. now constructor.
      * right. intros G. inversion G. contradiction.
    + right. intros G. inversion G. contradiction.
Qed.

(** X3. The consensus of two sequences does not depend on their order. *)
Theorem createConsensus_comm (a b : Sequence) :
  createConsensus a b = createConsensus b a.
Proof.
  unfold createConsensus. rewrite (Nat.eqb_sym (length b)).
  destruct (length a =? length b)%nat eqn:L; simpl; [|reflexivity].
  apply Nat.eqb_eq in L.
  destruct (seq_eqb a b) eqn:E.
  - apply seq_eqb_eq in E. subst b.
    now rewrite (proj2 (seq_eqb_eq a a) eq_refl).
  - replace (seq_eqb b a) with false.
    + f_equal. destruct (Forall2_compatible_dec a b) as [F|F].
      * rewrite (loop_all_compatible F).
        rewrite (loop_all_compatible (Forall2_compatible_sym _ _ F)).
        simpl. now apply picked_combine_sym.
      * rewrite (loop_some_conflict L F).
        rewrite loop_some_conflict; auto.
        intros G. apply F. now apply Forall2_compatible_sym.
    + symmetry. destruct (seq_eqb b a) eqn:E'; [|reflexivity].
      apply seq_eqb_eq in E'. subst b.
      now rewrite (proj2 (seq_eqb_eq a a) eq_refl) in E.
Qed.

Lemma picked_wildcard_r (x : ascii) : picked x "N" = x.
Proof. all_chars x. Qed.

Lemma picked_wildcard_l (x : ascii) : picked "N" x = x.
Proof. all_chars x. Qed.

Lemma compatible_wildcards (a : Sequence) :
  Forall2 compatible a (repeat "N"%char (length a))
  /\ Forall2 compatible (repeat "N"%char (length a)) a.
Proof.
  induction a as [|x a [IH1 IH2]]; simpl; split; constructor; auto.
  - right. right. reflexivity.
  - right. left. reflexivity.
Qed.

Lemma picked_wildcards (a : Sequence) :
  map (fun p => picked (fst p) (snd p))
      (combine a (repeat "N"%char (length a))) = a
  /\ map (fun p => picked (fst p) (snd p))
         (combine (repeat "N"%char (length a)) a) = a.
Proof.
  induction a as [|x a [IH1 IH2]]; simpl; [auto|].
  now rewrite IH1, IH2, picked_wildcard_r, picked_wildcard_l.
Qed.

(** X4. A run of ['N'] is neutral: the consensus of a sequence with as
    many wildcards is the sequence itself, whatever its case and on
    either side. *)
Theorem createConsensus_wildcards (a : Sequence) :
  createConsensus a (repeat "N"%char (length a)) = OK a
  /\ createConsensus (repeat "N"%char (length a)) a = OK a.
Proof.
  destruct (compatible_wildcards a) as [C1 C2].
  destruct (picked_wildcards a) as [P1 P2].
  unfold createConsensus. rewrite repeat_length, Nat.eqb_refl. simpl. split.
  - destruct (seq_eqb a _) eqn:E; [reflexivity|].
    rewrite (loop_all_compatible C1). simpl. now rewrite P1.
  - destruct (seq_eqb _ a) eqn:E.
    + apply seq_eqb_eq in E. now rewrite E.
    + rewrite (loop_all_compatible C2). simpl. now rewrite P2.
Qed.

(** X5. Sequences of different lengths fail the assertion; for sequences
    of the same, non-zero length the empty result means a conflict and
    nothing else, which is what the merger relies on. *)
Theorem createConsensus_empty_iff_conflict (a b : Sequence) :
  (length a <> length b ->
   createConsensus a b = Abort "a.length() == b.length()")
  /\ (length a = length b -> a <> [] ->
      (createConsensus a b = OK [] <-> ~ Forall2 compatible a b)).
Proof.
  split.
  - intros L. unfold createConsensus.
    now rewrite (proj2 (Nat.eqb_neq _ _) L).
  - intros L Ne. split.
    + intros H F. unfold createConsensus in H.
      rewrite (proj2 (Nat.eqb_eq _ _) L) in H. simpl in H.
      destruct (seq_eqb a b).
      * injection H as ->. now apply Ne.
      * rewrite (loop_all_compatible F) in H. simpl in H.
        injection H as H. apply (f_equal (@length _)) in H.
        rewrite length_map, length_combine, <- L, Nat.min_id in H.
        destruct a; [now apply Ne | discriminate].
    + intros F. now apply createConsensus_conflict.
Qed.

Lemma createConsensus_empty_iff_conflict_witness :
  createConsensus (seq "ACGT") (seq "AC") = Abort "a.length() == b.length()"
  /\ (createConsensus (seq "ACGT") (seq "ACCT") = OK []
      <-> ~ Forall2 compatible (seq "ACGT") (seq "ACCT")).
Proof.
  split.
  - apply (createConsensus_empty_iff_conflict (seq "ACGT") (seq "AC")).
    simpl. lia.
  - apply (createConsensus_empty_iff_conflict (seq "ACGT") (seq "ACCT"));
      [reflexivity | discriminate].
Defined.

(** ** More on the order of constraints and the registry *)

(** X1. [operator<] of constraints is a strict total order, and two
    constraints are [operator==] exactly when neither is less than the
    other, so that the map holds one entry for each triple. *)
Theorem constraint_order_strict_total :
  (forall x, constraint_ltb x x = false)
  /\ (forall x y z, constraint_ltb x y = true -> constraint_ltb y z = true ->
                    constraint_ltb x z = true)
  /\ (forall x y, constraint_eqb x y
                  = negb (constraint_ltb x y) && negb (constraint_ltb y x))
  /\ (forall x y, constraint_eqb x y = true <-> x = y).
Proof.
  split; [exact constraint_ltb_irrefl|].
  split; [exact constraint_ltb_trans|].
  split; [|exact constraint_eqb_eq].
  intros x y.
  destruct (constraint_ltb x y) eqn:L1; destruct (constraint_ltb y x) eqn:L2;
    simpl.
  - pose proof (constraint_ltb_trans _ _ _ L1 L2) as T.
    now rewrite constraint_ltb_irrefl in T.
  - destruct (constraint_eqb x y) eqn:E; [|reflexivity].
    apply constraint_eqb_eq in E. subst.
    now rewrite constraint_ltb_irrefl in L1.
  - destruct (constraint_eqb x y) eqn:E; [|reflexivity].
    apply constraint_eqb_eq in E. subst.
    now rewrite constraint_ltb_irrefl in L2.
  - apply constraint_eqb_eq. now apply constraint_ltb_total.
Qed.

(** Three constraints in increasing order: by source, then by
    destination. *)
Lemma constraint_order_strict_total_witness :
  constraint_ltb (mkConstraint (contig 0) (contig 2) (-5))
                 (mkConstraint (contig 2) (contig 4) (-3)) = true
  /\ constraint_ltb (mkConstraint (contig 2) (contig 4) (-3))
                    (mkConstraint (contig 2) (contig 6) (-9)) = true
  /\ constraint_ltb (mkConstraint (contig 0) (contig 2) (-5))
                    (mkConstraint (contig 2) (contig 6) (-9)) = true.
Proof.
  destruct constraint_order_strict_total as (_ & T & _).
  assert (L1 : constraint_ltb (mkConstraint (contig 0) (contig 2) (-5))
                 (mkConstraint (contig 2) (contig 4) (-3)) = true)
    by reflexivity.
  assert (L2 : constraint_ltb (mkConstraint (contig 2) (contig 4) (-3))
                 (mkConstraint (contig 2) (contig 6) (-9)) = true)
    by reflexivity.
  split; [exact L1|]. split; [exact L2|]. exact (T _ _ _ L1 L2).
Defined.

Lemma constraint_eq_dec (x y : AmbPathConstraint) : {x = y} + {x <> y}.
Proof.
  destruct (constraint_eqb x y) eqn:E.
  - left. now apply constraint_eqb_eq.
  - right. intros H. apply constraint_eqb_eq in H. congruence.
Qed.

Lemma map_find_absent (k : AmbPathConstraint) (m : AmbPath2Contig) :
  ordered m -> ~ In k (keys m) -> map_find k m = None.
Proof.
  unfold ordered. induction m as [|[k0 v0] m IH]; simpl; intros Ho Hn;
    [reflexivity|].
  inversion Ho as [|? ? Hm Hall]; subst.
  destruct (constraint_ltb k k0) eqn:L1; [reflexivity|].
  destruct (constraint_ltb k0 k) eqn:L2; [apply IH; tauto|].
  exfalso. apply Hn. left. symmetry. now apply constraint_ltb_total.
Qed.

Lemma map_find_insert_same (k : AmbPathConstraint) (v : ContigPath)
    (m : AmbPath2Contig) :
  ordered m -> ~ In k (keys m) -> map_find k (map_insert k v m) = Some v.
Proof.
  unfold ordered. induction m as [|[k0 v0] m IH]; simpl; intros Ho Hn.
  - now rewrite constraint_ltb_irrefl.
  - inversion Ho as [|? ? Hm Hall]; subst.
    destruct (constraint_ltb k k0) eqn:L1; simpl.
    + now rewrite constraint_ltb_irrefl.
    + destruct (constraint_ltb k0 k) eqn:L2; simpl.
      * rewrite L1, L2. apply IH; tauto.
      * exfalso. apply Hn. left. symmetry. now apply constraint_ltb_total.
Qed.

Lemma map_find_insert_other (k k' : AmbPathConstraint) (v : ContigPath)
    (m : AmbPath2Contig) :
  k' <> k -> map_find k' (map_insert k v m) = map_find k' m.
Proof.
  intros Ne. induction m as [|[k0 v0] m IH]; simpl.
  - destruct (constraint_ltb k' k) eqn:L1; [reflexivity|].
    destruct (constraint_ltb k k') eqn:L2; [reflexivity|].
    exfalso. apply Ne. now apply constraint_ltb_total.
  - destruct (constraint_ltb k k0) eqn:L1; simpl.
    + destruct (constraint_ltb k' k) eqn:L3.
      * now rewrite (constraint_ltb_trans _ _ _ L3 L1).
      * destruct (constraint_ltb k k') eqn:L4; [reflexivity|].
        exfalso. apply Ne. now apply constraint_ltb_total.
    + destruct (constraint_ltb k0 k) eqn:L2; simpl; [|reflexivity].
      now rewrite IH.
Qed.

(** X2. Insertion followed by lookup in the registry: the key inserted is
    found, with the path it already had if it was there and with the new
    one otherwise, and the lookup of any other key is as before. *)
Theorem map_find_insert (k k' : AmbPathConstraint) (v : ContigPath)
    (m : AmbPath2Contig) :
  ordered m ->
  map_find k (map_insert k v m)
  = Some (match map_find k m with Some v' => v' | None => v end)
  /\ (k' <> k -> map_find k' (map_insert k v m) = map_find k' m).
Proof.
  intros Ho. split; [|apply map_find_insert_other].
  destruct (in_dec constraint_eq_dec k (keys m)) as [Hin|Hn].
  - rewrite (@map_insert_present k v m Ho Hin).
    destruct (@map_find_present k m Ho Hin) as (v' & F & _). now rewrite F.
  - rewrite (map_find_insert_same k v m Ho Hn), (map_find_absent k m Ho Hn).
    reflexivity.
Qed.

Lemma map_find_insert_witness :
  ordered [(mkConstraint (contig 2) (contig 4) (-3),
            [contig 2; contig 9; contig 4])]
  /\ map_find (mkConstraint (contig 0) (contig 2) (-5))
       (map_insert (mkConstraint (contig 0) (contig 2) (-5)) []
          [(mkConstraint (contig 2) (contig 4) (-3),
            [contig 2; contig 9; contig 4])])
     = Some []
  /\ map_find (mkConstraint (contig 2) (contig 4) (-3))
       (map_insert (mkConstraint (contig 0) (contig 2) (-5)) []
          [(mkConstraint (contig 2) (contig 4) (-3),
            [contig 2; contig 9; contig 4])])
     = Some [contig 2; contig 9; contig 4]
  /\ map_find (mkConstraint (contig 2) (contig 4) (-3))
       (map_insert (mkConstraint (contig 2) (contig 4) (-3)) []
          [(mkConstraint (contig 2) (contig 4) (-3),
            [contig 2; contig 9; contig 4])])
     = Some [contig 2; contig 9; contig 4].
Proof.
  assert (Ho : ordered [(mkConstraint (contig 2) (contig 4) (-3),
                         [contig 2; contig 9; contig 4])])
    by (repeat constructor).
  split; [exact Ho|].
  destruct (map_find_insert (mkConstraint (contig 0) (contig 2) (-5))
              (mkConstraint (contig 2) (contig 4) (-3)) [] _ Ho) as [F1 F2].
  destruct (map_find_insert (mkConstraint (contig 2) (contig 4) (-3))
              (mkConstraint (contig 0) (contig 2) (-5)) [] _ Ho) as [F3 _].
  split; [exact F1|]. split; [|exact F3].
  rewrite F2; [reflexivity | discriminate].
Defined.
(** ** More on the overlap merger *)

Lemma createConsensus_compatible (a b : Sequence) :
  length a = length b -> Forall2 compatible a b ->
  exists o, createConsensus a b = OK o /\ length o = length a.
Proof.
  intros L F. unfold createConsensus.
  rewrite (proj2 (Nat.eqb_eq _ _) L). simpl.
  destruct (seq_eqb a b); [eauto|].
  eexists. split; [reflexivity|].
  rewrite (loop_all_compatible F). simpl.
  rewrite length_map, length_combine. lia.
Qed.

Lemma is_empty_length {A} (l : list A) :
  (0 < length l)%nat -> is_empty l = false.
Proof. destruct l; simpl; [lia | reflexivity]. Qed.

(** The merger on a tail and a head that agree. *)
Lemma mergeContigs_with_consensus (overlap : nat) (sq s o : Sequence)
    (node : ContigNode) (path : Path) (st : State) :
  (overlap < length s)%nat -> (overlap < length sq)%nat ->
  createConsensus (skipn (length sq - overlap) sq) (firstn overlap s) = OK o ->
  o <> [] ->
  mergeContigs overlap sq s node path st
  = OK (firstn (length sq - overlap) sq ++ o ++ skipn overlap s, st).
Proof.
  intros Hs Hsq C Ne. unfold mergeContigs.
  rewrite (proj2 (Nat.ltb_lt _ _) Hs).
  rewrite mergeContigs_loop_round, (proj2 (Nat.ltb_lt _ _) Hsq), C.
  rewrite (@is_empty_false _ o Ne). unfold bind, assert, ret, lift. simpl.
  rewrite (@is_empty_false _ o Ne). reflexivity.
Qed.

(** X6. When the last bases of the accumulated sequence are compatible
    with the first bases of the next one, over an overlap that is not
    zero, the merger keeps what comes before the overlap, puts their
    consensus in its place and appends the rest of the next sequence; it
    warns of nothing and the result is as long as the two sequences less
    the overlap. *)
Theorem mergeContigs_compatible (overlap : nat) (sq s : Sequence)
    (node : ContigNode) (path : Path) (st : State) :
  (0 < overlap)%nat -> (overlap < length s)%nat -> (overlap < length sq)%nat ->
  Forall2 compatible (skipn (length sq - overlap) sq) (firstn overlap s) ->
  exists o,
    createConsensus (skipn (length sq - overlap) sq) (firstn overlap s) = OK o
    /\ length o = overlap
    /\ mergeContigs overlap sq s node path st
       = OK (firstn (length sq - overlap) sq ++ o ++ skipn overlap s, st)
    /\ length (firstn (length sq - overlap) sq ++ o ++ skipn overlap s)
       = (length sq + length s - overlap)%nat.
Proof.
  intros H0 Hs Hsq F.
  destruct (createConsensus_compatible _ _ (@overlap_lengths overlap sq s Hs Hsq) F)
    as (o & C & Lo).
  rewrite length_skipn in Lo.
  assert (Lo' : length o = overlap) by lia.
  exists o. split; [exact C|]. split; [exact Lo'|]. split.
  - apply mergeContigs_with_consensus; trivial.
    intros ->. simpl in Lo'. lia.
  - rewrite !length_app, length_firstn, length_skipn. lia.
Qed.

Lemma mergeContigs_compatible_witness :
  exists o,
    createConsensus (skipn (length (seq "ACGTn") - 2) (seq "ACGTn"))
                    (firstn 2 (seq "NACC")) = OK o
    /\ length o = 2%nat
    /\ mergeContigs 2 (seq "ACGTn") (seq "NACC") (contig 1)
                    [contig 0; contig 1] (initialState 8)
       = OK (firstn (length (seq "ACGTn") - 2) (seq "ACGTn") ++ o
             ++ skipn 2 (seq "NACC"), initialState 8)
    /\ length (firstn (length (seq "ACGTn") - 2) (seq "ACGTn") ++ o
               ++ skipn 2 (seq "NACC"))
       = (length (seq "ACGTn") + length (seq "NACC") - 2)%nat.
Proof.
  apply (mergeContigs_compatible 2 (seq "ACGTn") (seq "NACC") (contig 1)
           [contig 0; contig 1] (initialState 8)); try (simpl; lia).
  simpl. repeat (apply Forall2_cons;
                 [first [left; reflexivity | right; left; reflexivity
                        | right; right; reflexivity]|]).
  apply Forall2_nil.
Defined.

(** X7. When the accumulated sequence ends with exactly the bases the
    next one begins with, the merge is the first sequence followed by the
    rest of the second: the overlap is written once. *)
Theorem mergeContigs_exact_overlap (overlap : nat) (sq s : Sequence)
    (node : ContigNode) (path : Path) (st : State) :
  (0 < overlap)%nat -> (overlap < length s)%nat -> (overlap < length sq)%nat ->
  skipn (length sq - overlap) sq = firstn overlap s ->
  mergeContigs overlap sq s node path st = OK (sq ++ skipn overlap s, st).
Proof.
  intros H0 Hs Hsq E.
  rewrite (mergeContigs_with_consensus overlap sq s (firstn overlap s)
             node path st Hs Hsq).
  - rewrite <- E at 1. now rewrite app_assoc, firstn_skipn.
  - rewrite E. unfold createConsensus. rewrite Nat.eqb_refl. simpl.
    now rewrite (proj2 (seq_eqb_eq _ _) eq_refl).
  - intros N. apply (f_equal (@length _)) in N.
    rewrite length_firstn in N. simpl in N. lia.
Qed.

Lemma mergeContigs_exact_overlap_witness :
  mergeContigs 3 (seq "GGGTTT") (seq "TTTAAAC") (contig 4)
               [contig 3; contig 4] (initialState 8)
  = OK (seq "GGGTTT" ++ skipn 3 (seq "TTTAAAC"), initialState 8).
Proof.
  apply (mergeContigs_exact_overlap 3 (seq "GGGTTT") (seq "TTTAAAC") (contig 4) [contig 3; contig 4] (initialState 8));
    try reflexivity; simpl; lia.
Defined.

Lemma createConsensus_N_right (a : Sequence) :
  createConsensus a (repeat "N"%char (length a)) = OK a.
Proof.
  destruct (compatible_wildcards a) as [C1 _].
  destruct (picked_wildcards a) as [P1 _].
  unfold createConsensus. rewrite repeat_length, Nat.eqb_refl. simpl.
  destruct (seq_eqb a _) eqn:E; [reflexivity|].
  rewrite (loop_all_compatible C1). simpl. now rewrite P1.
Qed.

(** X8. Merging the sequence of a placeholder after a sequence, with the
    overlap of [k - 1] bases that the placeholder's leading wildcards
    make, leaves the sequence as it is and appends the run of the gap, in
    lower case when the run is shorter than [k]. *)
Theorem mergeContigs_placeholder (E : Env) (n node : ContigNode)
    (sq : Sequence) (path : Path) (st : State) :
  ambiguous n = true ->
  2 <= opt_k E < 2 ^ 32 ->
  ambiguousSequence E n <> [] ->
  opt_k E - 1 < Z.of_nat (length sq) ->
  let run := if Z.of_nat (length (ambiguousSequence E n)) <? opt_k E
             then map tolower (ambiguousSequence E n)
             else ambiguousSequence E n in
  getSequence E n = OK (repeat "N"%char (Z.to_nat (opt_k E - 1)) ++ run)
  /\ mergeContigs (Z.to_nat (opt_k E - 1)) sq
                  (repeat "N"%char (Z.to_nat (opt_k E - 1)) ++ run)
                  node path st
     = OK (sq ++ run, st).
Proof.
  intros A K Ne Lsq run.
  assert (U : to_unsigned (opt_k E - 1) = opt_k E - 1).
  { unfold to_unsigned. apply Z.mod_small. lia. }
  set (ov := Z.to_nat (opt_k E - 1)).
  assert (Rn : run <> []).
  { subst run. destruct (ambiguousSequence E n); [contradiction|].
    destruct (_ <? _); discriminate. }
  assert (O0 : (0 < ov)%nat) by (subst ov; lia).
  assert (Osq : (ov < length sq)%nat) by (subst ov; lia).
  assert (Os : (ov < length (repeat "N"%char ov ++ run))%nat).
  { rewrite length_app, repeat_length. destruct run; [contradiction|].
    simpl. lia. }
  assert (Hd : firstn ov (repeat "N"%char ov ++ run) = repeat "N"%char ov).
  { rewrite firstn_app, repeat_length, Nat.sub_diag. simpl.
    rewrite app_nil_r, firstn_all2; [reflexivity|].
    rewrite repeat_length. lia. }
  assert (Tl : skipn ov (repeat "N"%char ov ++ run) = run).
  { rewrite skipn_app, repeat_length, Nat.sub_diag. simpl.
    rewrite skipn_all2; [reflexivity|]. rewrite repeat_length. lia. }
  split.
  - unfold getSequence. rewrite A, U. reflexivity.
  - rewrite (mergeContigs_with_consensus ov sq _
               (skipn (length sq - ov) sq) node path st Os Osq).
    + rewrite Tl, app_assoc, firstn_skipn. reflexivity.
    + rewrite Hd.
      replace ov with (length (skipn (length sq - ov) sq)) at 2
        by (rewrite length_skipn; lia).
      apply createConsensus_N_right.
    + intros N. apply (f_equal (@length _)) in N.
      rewrite length_skipn in N. simpl in N. lia.
Qed.

Lemma mergeContigs_placeholder_witness :
  getSequence oneCandidateEnv (gap 2) = OK (seq "NNNnn")
  /\ mergeContigs 3 (seq "ACGTA") (seq "NNNnn") (gap 2)
                  [contig 0; gap 2] (initialState 8)
     = OK (seq "ACGTAnn", initialState 8).
Proof.
  apply (mergeContigs_placeholder oneCandidateEnv (gap 2) (gap 2)
           (seq "ACGTA") [contig 0; gap 2] (initialState 8));
    try reflexivity; try discriminate; simpl; lia.
Defined.

Lemma chomp_true (sq sq' : Sequence) (c : ascii) :
  chomp sq c = (true, sq') -> sq = sq' ++ [c].
Proof.
  unfold chomp. destruct (rev sq) as [|x r] eqn:R; [discriminate|].
  destruct (Ascii.eqb_spec x c) as [->|]; [|discriminate].
  intros H. injection H as <-.
  rewrite <- (rev_involutive sq), R. reflexivity.
Qed.

Lemma trimFiller_filler (sq : Sequence) :
  trimFiller (sq ++ ["n"%char]) = trimFiller sq.
Proof. unfold trimFiller. rewrite rev_app_distr. reflexivity. Qed.

Lemma trimFiller_length (sq : Sequence) :
  (length (trimFiller sq) <= length sq)%nat.
Proof.
  unfold trimFiller. rewrite length_rev, <- (length_rev sq).
  induction (rev sq) as [|x r IH]; simpl; [lia|].
  destruct (Ascii.eqb x "n"); simpl; lia.
Qed.

Lemma createConsensus_length (a b o : Sequence) :
  length a = length b -> createConsensus a b = OK o ->
  o = [] \/ length o = length a.
Proof.
  intros L C. destruct (Forall2_compatible_dec a b) as [F|F].
  - destruct (createConsensus_compatible _ _ L F) as (o' & C' & Lo).
    right. congruence.
  - left. rewrite (createConsensus_conflict L F) in C. congruence.
Qed.

Lemma createConsensus_returns (a b : Sequence) :
  length a = length b -> exists o, createConsensus a b = OK o.
Proof.
  intros L. unfold createConsensus. rewrite (proj2 (Nat.eqb_eq _ _) L).
  simpl. destruct (seq_eqb a b); eauto.
Qed.

Lemma mergeContigs_loop_total (overlap : nat) (bo : Sequence) (n : nat) :
  forall sq, (length sq <= n)%nat ->
    length bo = overlap -> (overlap < length (trimFiller sq))%nat ->
    exists sq' o,
      mergeContigs_loop overlap bo sq
      = OK (sq', skipn (length sq' - overlap) sq', o)
      /\ (overlap < length sq')%nat
      /\ (o = [] \/ length o = overlap).
Proof.
  induction n as [|n IH]; intros sq Ln Lb Lt.
  - pose proof (trimFiller_length sq). lia.
  - pose proof (trimFiller_length sq) as Tl.
    assert (Lsq : (overlap < length sq)%nat) by lia.
    assert (La : length (skipn (length sq - overlap) sq) = length bo)
      by (rewrite length_skipn; lia).
    rewrite mergeContigs_loop_round, (proj2 (Nat.ltb_lt _ _) Lsq).
    destruct (createConsensus_returns _ _ La) as [o C].
    rewrite C.
    assert (Lo : o = [] \/ length o = overlap).
    { destruct (createConsensus_length _ _ _ La C) as [->|Lo]; [auto|].
      right. rewrite Lo, length_skipn. lia. }
    destruct (is_empty o); [|eauto 6].
    destruct (chomp sq "n") as [[] sq'] eqn:Ch; [|eauto 6].
    apply chomp_true in Ch. subst sq.
    rewrite trimFiller_filler in Lt. rewrite length_app in Ln. simpl in Ln.
    apply IH; trivial. lia.
Qed.

(** X9. The merger returns whenever the next sequence and the accumulated
    one, its trailing filler bases set aside, are both longer than the
    overlap: no sequence of trims can then fail the assertion of the
    loop.  The state is left as it was, or with the one warning of a head
    that does not match the tail, and the result is longer than the next
    sequence. *)
Theorem mergeContigs_returns (overlap : nat) (sq s : Sequence)
    (node : ContigNode) (path : Path) (st : State) :
  (overlap < length s)%nat -> (overlap < length (trimFiller sq))%nat ->
  exists r st', mergeContigs overlap sq s node path st = OK (r, st')
                /\ (st' = st
                    \/ exists ao,
                         st' = mkState (stats st) (g_ambpath_contig st)
                                 (g_newVertices st) (nextContigID st) (fa st)
                                 (cerr st
                                  ++ [HeadTailMismatch node ao
                                        (firstn overlap s) path])
                                 (calls st))
                /\ (length s < length r)%nat.
Proof.
  intros Hs Ht.
  destruct (mergeContigs_loop_total overlap (firstn overlap s) (length sq) sq)
    as (sq' & o & L & Lsq' & Lo); trivial.
  { rewrite length_firstn. lia. }
  unfold mergeContigs. rewrite (proj2 (Nat.ltb_lt _ _) Hs), L.
  unfold bind, assert, ret, lift, modify. simpl.
  destruct (is_empty o) eqn:Eo; eexists; eexists;
    (split; [reflexivity|]); split.
  - right. eexists. reflexivity.
  - rewrite !length_app. simpl. lia.
  - now left.
  - destruct Lo as [->|Lo]; [discriminate|].
    rewrite !length_app, length_firstn, length_skipn. lia.
Qed.

(** The filler bases of [ACCnn] stand for any base: the head [GG] is
    merged onto them without a warning. *)
Lemma mergeContigs_returns_witness :
  exists r st',
    mergeContigs 2 (seq "ACCnn") (seq "GGT") (contig 1) [contig 0; contig 1]
                 (initialState 8) = OK (r, st')
    /\ (st' = initialState 8
        \/ exists ao,
             st' = mkState (stats (initialState 8))
                     (g_ambpath_contig (initialState 8))
                     (g_newVertices (initialState 8))
                     (nextContigID (initialState 8)) (fa (initialState 8))
                     (cerr (initialState 8)
                      ++ [HeadTailMismatch (contig 1) ao
                            (firstn 2 (seq "GGT")) [contig 0; contig 1]])
                     (calls (initialState 8)))
    /\ (length (seq "GGT") < length r)%nat.
Proof.
  apply (mergeContigs_returns 2 (seq "ACCnn") (seq "GGT") (contig 1)
           [contig 0; contig 1] (initialState 8)); simpl; lia.
Defined.

(** ** Reading a run backwards *)

Lemma bind_inv {A B} (m : M A) (f : A -> M B) (st : State)
    (r : B * State) :
  bind m f st = OK r -> exists a st1, m st = OK (a, st1) /\ f a st1 = OK r.
Proof.
  unfold bind. destruct (m st) as [[a st1]|]; [eauto | discriminate].
Qed.

Lemma ret_inv {A} (a b : A) (st st' : State) :
  ret a st = OK (b, st') -> b = a /\ st' = st.
Proof. unfold ret. intros H. injection H as <- <-. auto. Qed.

Lemma assert_inv (b : bool) (msg : string) (x : unit) (st st' : State) :
  assert b msg st = OK (x, st') -> b = true /\ st' = st.
Proof.
  unfold assert. destruct b; [|discriminate].
  intros H. apply ret_inv in H. tauto.
Qed.

Lemma modify_inv (f : State -> State) (x : unit) (st st' : State) :
  modify f st = OK (x, st') -> st' = f st.
Proof. unfold modify. intros H. now injection H as _ <-. Qed.

Lemma gets_inv {A} (f : State -> A) (a : A) (st st' : State) :
  gets f st = OK (a, st') -> a = f st /\ st' = st.
Proof. unfold gets. intros H. injection H as <- <-. auto. Qed.

Lemma lift_inv {A} (r : Result A) (a : A) (st st' : State) :
  lift r st = OK (a, st') -> r = OK a /\ st' = st.
Proof.
  unfold lift. destruct r; [|discriminate].
  intros H. injection H as <- <-. auto.
Qed.

(** Take apart a run that returned, down to the calls of the functions of
    the program. *)
Ltac minv H :=
  lazymatch type of H with
  | bind _ _ _ = OK _ =>
      let a := fresh "a" in
      let s := fresh "st" in
      let E := fresh "E" in
      apply bind_inv in H; destruct H as (a & s & E & H); minv E; minv H
  | ret _ _ = OK _ =>
      apply ret_inv in H; destruct H as [? ?]; subst
  | assert _ _ _ = OK _ =>
      let T := fresh "T" in
      apply assert_inv in H; destruct H as [T ?]; subst
  | modify _ _ = OK _ => apply modify_inv in H; subst
  | gets _ _ = OK _ => apply gets_inv in H; destruct H as [? ?]; subst
  | lift _ _ = OK _ => apply lift_inv in H; destruct H as [H ?]; subst
  | abort _ _ = OK _ => discriminate H
  | (if ?b then _ else _) _ = OK _ =>
      let C := fresh "C" in destruct b eqn:C; minv H
  | (match ?x with _ => _ end) _ = OK _ =>
      let C := fresh "C" in destruct x eqn:C; minv H
  | _ => idtac
  end.

(** ** The new contigs *)

Lemma made_none (st st' : State) :
  nextContigID st' = nextContigID st ->
  g_newVertices st' = g_newVertices st -> fa st' = fa st ->
  made 0 st st'.
Proof.
  intros I V F. split; [rewrite I; simpl; now rewrite N.add_0_r|].
  exists [], []. rewrite V, F, !app_nil_r. repeat split. constructor.
Qed.

Lemma made_refl (st : State) : made 0 st st.
Proof. now apply made_none. Qed.

Lemma map_seq_from {A} (f : nat -> A) (n1 n2 : nat) :
  map f (List.seq n1 n2) = map (fun j => f (n1 + j)%nat) (List.seq 0 n2).
Proof.
  revert n1. induction n2 as [|n2 IH]; intros n1; simpl; [reflexivity|].
  rewrite Nat.add_0_r. f_equal.
  rewrite (IH (S n1)), <- seq_shift, map_map.
  apply map_ext. intros j. f_equal. lia.
Qed.

Lemma freshIds_app (st st1 : State) (n1 n2 : nat) :
  nextContigID st1 = (nextContigID st + N.of_nat n1)%N ->
  freshIds st (n1 + n2) = freshIds st n1 ++ freshIds st1 n2.
Proof.
  intros I. unfold freshIds. rewrite seq_app, map_app. f_equal.
  simpl. rewrite map_seq_from. apply map_ext.
  intros j. rewrite I. lia.
Qed.

Lemma made_trans (n1 n2 : nat) (a b c : State) :
  made n1 a b -> made n2 b c -> made (n1 + n2) a c.
Proof.
  intros (I1 & v1 & f1 & V1 & F1 & U1 & D1 & L1)
         (I2 & v2 & f2 & V2 & F2 & U2 & D2 & L2).
  split; [rewrite I2, I1; lia|].
  exists (v1 ++ v2), (f1 ++ f2).
  rewrite V2, V1, F2, F1, <- !app_assoc, !map_app.
  rewrite (freshIds_app a b n1 n2 I1), map_app, U1, U2, D1, D2.
  repeat split. now apply Forall_app.
Qed.

Lemma onlyWarns_made (st st' : State) : onlyWarns st st' -> made 0 st st'.
Proof. intros [ws ->]. now apply made_none. Qed.

(** The state after [outputNewContig] has made the contig [i]. *)
Lemma outputNewContig_inv (solutions : list Path) (lp ls : nat)
    (sq : Sequence) (coverage : Z) (st st' : State) (i : ContigID) :
  outputNewContig solutions lp ls sq coverage st = OK (i, st') ->
  solutions <> [] /\ (0 < lp)%nat /\ (0 < ls)%nat
  /\ Forall (fun p => (lp + ls <= length p)%nat) solutions
  /\ i = nextContigID st
  /\ st' = mkState (stats st) (g_ambpath_contig st)
             (g_newVertices st
              ++ [mkNewVertex (nth (lp - 1) (hd [] solutions) noNode)
                              (mkNode false i false)
                              (nth (ls - 1) (rev (hd [] solutions)) noNode)
                              (mkProp (to_unsigned (Z.of_nat (length sq)))
                                      coverage)])
             (N.succ i)
             (fa st ++ [mkFasta i (length sq) coverage
                                (map (printedCore lp ls) solutions) sq])
             (cerr st) (calls st).
Proof.
  intros H. unfold outputNewContig in H. minv H.
  match goal with
  | C : create _ = OK _ |- _ => unfold create in C; injection C as <- <-
  end.
  match goal with
  | L : outputNewContig_loop _ _ _ = OK _ |- _ =>
      pose proof (proj2 (outputNewContig_loop_spec solutions lp ls) _ L) as F;
      rewrite (proj1 (outputNewContig_loop_spec solutions lp ls) F) in L;
      injection L as <-
  end.
  repeat split; trivial.
  - intros ->. discriminate.
  - now apply Nat.ltb_lt.
  - now apply Nat.ltb_lt.
Qed.

Lemma outputNewContig_made (solutions : list Path) (lp ls : nat)
    (sq : Sequence) (coverage : Z) (st st' : State) (i : ContigID) :
  outputNewContig solutions lp ls sq coverage st = OK (i, st') ->
  i = nextContigID st /\ made 1 st st'
  /\ stats st' = stats st /\ g_ambpath_contig st' = g_ambpath_contig st
  /\ calls st' = calls st.
Proof.
  intros H. apply outputNewContig_inv in H.
  destruct H as (_ & _ & _ & _ & -> & ->).
  split; [reflexivity|]. split; [|repeat split].
  split; [simpl; lia|].
  eexists [_], [_]. unfold freshIds. simpl. rewrite N.add_0_r.
  repeat split. repeat constructor.
Qed.

(** X12. [outputNewContig] returns exactly when there is a solution, both
    lengths are positive and no solution is shorter than the prefix and
    the suffix together; it then hands out the next identifier, queues
    one vertex between the last node of the prefix and the first node of
    the suffix of the first solution, and writes one record, whose comment
    has the inner nodes of every solution; nothing else changes. *)
Theorem outputNewContig_effect (solutions : list Path) (lp ls : nat)
    (sq : Sequence) (coverage : Z) (st : State) :
  ((exists i st', outputNewContig solutions lp ls sq coverage st
                  = OK (i, st'))
   <-> solutions <> [] /\ (0 < lp)%nat /\ (0 < ls)%nat
       /\ Forall (fun p => (lp + ls <= length p)%nat) solutions)
  /\ forall i st',
       outputNewContig solutions lp ls sq coverage st = OK (i, st') ->
       i = nextContigID st
       /\ nextContigID st' = N.succ i
       /\ g_newVertices st'
          = g_newVertices st
            ++ [mkNewVertex (nth (lp - 1) (hd [] solutions) noNode)
                            (mkNode false i false)
                            (nth (ls - 1) (rev (hd [] solutions)) noNode)
                            (mkProp (to_unsigned (Z.of_nat (length sq)))
                                    coverage)]
       /\ fa st' = fa st ++ [mkFasta i (length sq) coverage
                                     (map (printedCore lp ls) solutions) sq]
       /\ stats st' = stats st
       /\ g_ambpath_contig st' = g_ambpath_contig st
       /\ cerr st' = cerr st /\ calls st' = calls st.
Proof.
  split; [split|].
  - intros (i & st' & H). apply outputNewContig_inv in H. tauto.
  - intros (Ne & Lp & Ls & F). unfold outputNewContig.
    rewrite (@is_empty_false _ solutions Ne).
    rewrite (proj2 (Nat.ltb_lt _ _) Lp), (proj2 (Nat.ltb_lt _ _) Ls).
    rewrite (proj1 (outputNewContig_loop_spec solutions lp ls) F).
    eexists. eexists. reflexivity.
  - intros i st' H. apply outputNewContig_inv in H.
    destruct H as (_ & _ & _ & _ & -> & ->). repeat split.
Qed.

(** The two candidates of the sample gap, with one node of prefix and
    one of suffix. *)
Lemma outputNewContig_effect_witness :
  exists st',
    outputNewContig [[contig 0; contig 1; contig 2];
                     [contig 0; contig 3; contig 2]] 1 1
                    (seq "GGGTTTAAAC") 7 (initialState 13)
    = OK (13%N, st')
    /\ nextContigID st' = 14%N
    /\ fa st' = [mkFasta 13%N 10%nat 7 [Some [contig 1]; Some [contig 3]]
                         (seq "GGGTTTAAAC")].
Proof.
  destruct (outputNewContig_effect
              [[contig 0; contig 1; contig 2]; [contig 0; contig 3; contig 2]]
              1 1 (seq "GGGTTTAAAC") 7 (initialState 13)) as [[_ Ex] Eff].
  destruct Ex as (i & st' & H).
  { split; [discriminate|]. split; [lia|]. split; [lia|].
    repeat constructor. }
  destruct (Eff i st' H) as (Ei & En & _ & Ef & _).
  simpl in Ei. subst i.
  exists st'. split; [exact H|].
  split; [rewrite En; reflexivity|]. rewrite Ef. reflexivity.
Defined.
(** ** The common prefix and suffix of the candidates *)

Lemma fold_min_le (l : list Path) :
  forall a,
    (fold_left (fun m it => Nat.min m (length it)) l a <= a)%nat
    /\ forall x, In x l ->
         (fold_left (fun m it => Nat.min m (length it)) l a <= length x)%nat.
Proof.
  induction l as [|y l IH]; intros a; cbn [fold_left In]; split.
  - lia.
  - intros x [].
  - destruct (IH (Nat.min a (length y))) as [H _]. lia.
  - intros x [->|Hx].
    + destruct (IH (Nat.min a (length x))) as [H _]. lia.
    + now apply IH.
Qed.

Lemma minLen_le (solutions : list Path) (sol : Path) :
  In sol solutions -> (minLen solutions <= length sol)%nat.
Proof.
  unfold minLen. destruct solutions as [|first rest]; [contradiction|].
  simpl. intros [->|H].
  - destruct (fold_min_le rest (length sol)) as [Le _]. exact Le.
  - destruct (fold_min_le rest (length first)) as [_ Le]. now apply Le.
Qed.

Lemma firstn_snoc_nth (l : Path) (i : nat) :
  (i < length l)%nat -> firstn i l ++ [nth i l noNode] = firstn (S i) l.
Proof.
  revert i. induction l as [|x l IH]; intros i H; simpl in H; [lia|].
  destruct i as [|i]; simpl; [reflexivity|]. f_equal. apply IH. lia.
Qed.

Lemma skipn_cons_nth (l : Path) (i : nat) :
  (i < length l)%nat -> skipn i l = nth i l noNode :: skipn (S i) l.
Proof.
  revert i. induction l as [|x l IH]; intros i H; simpl in H; [lia|].
  destruct i as [|i]; [reflexivity|]. simpl. apply IH. lia.
Qed.

Lemma firstn_agree (a b : Path) (n : nat) :
  (n <= length a)%nat -> (n <= length b)%nat ->
  (forall j, (j < n)%nat -> nth j a noNode = nth j b noNode) ->
  firstn n a = firstn n b.
Proof.
  revert a b. induction n as [|n IH]; intros a b La Lb H; [reflexivity|].
  destruct a as [|x a], b as [|y b]; simpl in *; try lia.
  f_equal.
  - apply (H 0%nat). lia.
  - apply IH; try lia. intros j Hj. apply (H (S j)). lia.
Qed.

Lemma skipn_agree (a b : Path) (n : nat) :
  (n <= length a)%nat -> (n <= length b)%nat ->
  (forall j, (j < n)%nat ->
     nth (length a - j - 1) a noNode = nth (length b - j - 1) b noNode) ->
  skipn (length a - n) a = skipn (length b - n) b.
Proof.
  intros La Lb H.
  rewrite <- (rev_involutive (skipn (length a - n) a)).
  rewrite <- (rev_involutive (skipn (length b - n) b)).
  rewrite <- !firstn_rev. f_equal.
  apply firstn_agree; rewrite ?length_rev; trivial.
  intros j Hj. rewrite !rev_nth by lia.
  replace (length a - S j)%nat with (length a - j - 1)%nat by lia.
  replace (length b - S j)%nat with (length b - j - 1)%nat by lia.
  now apply H.
Qed.

Lemma forallb_false_some (solutions : list Path) (f : Path -> bool) :
  forallb f solutions = false ->
  exists sol, In sol solutions /\ f sol = false.
Proof.
  induction solutions as [|s l IH]; simpl; [discriminate|].
  destruct (f s) eqn:F; simpl.
  - intros H. destruct (IH H) as (sol & Hs & Hf). eauto.
  - eauto.
Qed.

Lemma findPrefix_spec (solutions : list Path) (first : Path) (todo : nat) :
  forall i acc,
    acc = firstn i first -> (i + todo <= length first)%nat ->
    let r := findPrefix solutions first todo i acc in
    snd r = firstn (fst r) first
    /\ (i <= fst r <= i + todo)%nat
    /\ (forall j sol, (i <= j < fst r)%nat -> In sol solutions ->
          nth j sol noNode = nth j first noNode)
    /\ ((fst r < i + todo)%nat ->
        exists sol, In sol solutions
                    /\ nth (fst r) sol noNode <> nth (fst r) first noNode).
Proof.
  induction todo as [|todo IH]; intros i acc Ha Hl.
  - simpl. subst acc. repeat split; intros; lia.
  - set (ok := forallb (fun sol => node_eqb (nth i sol noNode)
                                            (nth i first noNode)) solutions).
    change (findPrefix solutions first (S todo) i acc)
      with (if ok then findPrefix solutions first todo (S i)
                                  (acc ++ [nth i first noNode])
            else (i, acc)).
    destruct ok eqn:All; subst ok.
    + destruct (IH (S i) (acc ++ [nth i first noNode])) as (E & B & Ag & Mx).
      * subst acc. apply firstn_snoc_nth. lia.
      * lia.
      * cbv zeta. split; [exact E|]. split; [lia|]. split.
        -- intros j sol Hj Hs. destruct (Nat.eq_dec j i) as [->|Ne].
           ++ rewrite forallb_forall in All. apply node_eqb_eq.
              now apply All.
           ++ apply Ag; trivial. lia.
        -- intros H. apply Mx. lia.
    + cbv zeta. simpl. subst acc. split; [reflexivity|]. split; [lia|].
      split; [intros; lia|]. intros _.
      destruct (forallb_false_some _ _ All) as (sol & Hs & Hn).
      exists sol. split; [exact Hs|]. intros Eq.
      apply node_eqb_eq in Eq. congruence.
Qed.

Lemma findSuffix_spec (solutions : list Path) (first : Path) (todo : nat) :
  forall i acc,
    rev acc = skipn (length first - i) first ->
    (i + todo <= length first)%nat ->
    let r := findSuffix solutions first todo i acc in
    rev (snd r) = skipn (length first - fst r) first
    /\ (i <= fst r <= i + todo)%nat
    /\ (forall j sol, (i <= j < fst r)%nat -> In sol solutions ->
          nth (length sol - j - 1) sol noNode
          = nth (length first - j - 1) first noNode)
    /\ ((fst r < i + todo)%nat ->
        exists sol, In sol solutions
                    /\ nth (length sol - fst r - 1) sol noNode
                       <> nth (length first - fst r - 1) first noNode).
Proof.
  induction todo as [|todo IH]; intros i acc Ha Hl.
  - simpl. repeat split; trivial; intros; lia.
  - set (ok := forallb
                 (fun sol => node_eqb (nth (length sol - i - 1) sol noNode)
                                      (nth (length first - i - 1) first noNode))
                 solutions).
    change (findSuffix solutions first (S todo) i acc)
      with (if ok
            then findSuffix solutions first todo (S i)
                   (acc ++ [nth (length first - i - 1) first noNode])
            else (i, acc)).
    destruct ok eqn:All; subst ok.
    + destruct (IH (S i) (acc ++ [nth (length first - i - 1) first noNode]))
        as (Rv & B & Ag & Mx).
      * rewrite rev_app_distr. cbn [rev app]. rewrite Ha.
        replace (length first - S i)%nat with (length first - i - 1)%nat
          by lia.
        rewrite (skipn_cons_nth first (length first - i - 1)) by lia.
        do 2 f_equal. lia.
      * lia.
      * cbv zeta. split; [exact Rv|]. split; [lia|]. split.
        -- intros j sol Hj Hs. destruct (Nat.eq_dec j i) as [->|Ne].
           ++ rewrite forallb_forall in All. apply node_eqb_eq.
              now apply All.
           ++ apply Ag; trivial. lia.
        -- intros H. apply Mx. lia.
    + cbv zeta. simpl. split; [exact Ha|]. split; [lia|].
      split; [intros; lia|]. intros _.
      destruct (forallb_false_some _ _ All) as (sol & Hs & Hn).
      exists sol. split; [exact Hs|]. intros Eq.
      apply node_eqb_eq in Eq. congruence.
Qed.

(** The common prefix that the multi builder finds is as long as the
    shortest candidate at most, is a prefix of every candidate, and is the
    longest such. *)
Lemma commonPrefix_facts (solutions : list Path) :
  solutions <> [] ->
  let lp := fst (commonPrefix solutions) in
  let vppath := snd (commonPrefix solutions) in
  (lp <= minLen solutions)%nat
  /\ length vppath = lp
  /\ (forall sol, In sol solutions -> firstn lp sol = vppath)
  /\ ((lp < minLen solutions)%nat ->
      exists sol, In sol solutions
                  /\ nth lp sol noNode <> nth lp (hd [] solutions) noNode).
Proof.
  intros Ne. destruct solutions as [|first rest]; [contradiction|].
  assert (Hf : (minLen (first :: rest) <= length first)%nat)
    by (apply minLen_le; now left).
  destruct (findPrefix_spec (first :: rest) first (minLen (first :: rest))
                            0 [] eq_refl Hf) as (E & B & Ag & Mx).
  unfold commonPrefix. cbn [hd]. cbv zeta in *.
  set (r := findPrefix (first :: rest) first (minLen (first :: rest)) 0 [])
    in *.
  split; [lia|]. split; [rewrite E, length_firstn; lia|]. split.
  - intros sol Hs. rewrite E. apply firstn_agree.
    + pose proof (minLen_le _ _ Hs). lia.
    + lia.
    + intros j Hj. apply Ag; trivial. lia.
  - intros H. apply Mx. lia.
Qed.

(** The common suffix is found in what the prefix leaves of the shortest
    candidate; it is a suffix of every candidate, and the longest such
    within that bound. *)
Lemma commonSuffix_facts (solutions : list Path) :
  solutions <> [] ->
  let lp := fst (commonPrefix solutions) in
  let ls := fst (commonSuffix solutions) in
  let vspath := rev (snd (commonSuffix solutions)) in
  (lp + ls <= minLen solutions)%nat
  /\ (forall sol, In sol solutions -> (lp + ls <= length sol)%nat)
  /\ length vspath = ls
  /\ (forall sol, In sol solutions -> skipn (length sol - ls) sol = vspath)
  /\ ((lp + ls < minLen solutions)%nat ->
      exists sol, In sol solutions
                  /\ nth (length sol - ls - 1) sol noNode
                     <> nth (length (hd [] solutions) - ls - 1)
                            (hd [] solutions) noNode).
Proof.
  intros Ne. destruct solutions as [|first rest]; [contradiction|].
  assert (Hf : (minLen (first :: rest) <= length first)%nat)
    by (apply minLen_le; now left).
  destruct (findPrefix_spec (first :: rest) first (minLen (first :: rest))
                            0 [] eq_refl Hf) as (_ & Bp & _ & _).
  unfold commonSuffix, commonPrefix. cbn [hd]. cbv zeta in *.
  set (lp := fst (findPrefix (first :: rest) first
                             (minLen (first :: rest)) 0 [])) in *.
  assert (Hs0 : (0 + (minLen (first :: rest) - lp) <= length first)%nat)
    by lia.
  assert (R0 : rev (@nil ContigNode) = skipn (length first - 0) first).
  { rewrite Nat.sub_0_r, skipn_all. reflexivity. }
  destruct (findSuffix_spec (first :: rest) first
                            (minLen (first :: rest) - lp) 0 [] R0 Hs0)
    as (Rv & B & Ag & Mx).
  cbv zeta in *.
  set (r := findSuffix (first :: rest) first
                       (minLen (first :: rest) - lp) 0 []) in *.
  split; [lia|]. split.
  { intros sol Hs. pose proof (minLen_le _ _ Hs). lia. }
  split; [rewrite Rv, length_skipn; lia|]. split.
  - intros sol Hs. rewrite Rv. apply skipn_agree.
    + pose proof (minLen_le _ _ Hs). lia.
    + lia.
    + intros j Hj. apply Ag; trivial. lia.
  - intros H. apply Mx. lia.
Qed.

(** X13. What [alignMulti] takes as the common prefix and suffix of the
    candidates: every candidate is the prefix, then its own nodes, then
    the suffix, the two not overlapping in any candidate, so that the
    assertion of the loop over the candidates cannot fail; neither can be
    made longer, the prefix unless it is all of the shortest candidate
    and the suffix unless nothing else is left of it. *)
Theorem candidates_factor (solutions : list Path) :
  solutions <> [] ->
  let lp := fst (commonPrefix solutions) in
  let ls := fst (commonSuffix solutions) in
  let vppath := snd (commonPrefix solutions) in
  let vspath := rev (snd (commonSuffix solutions)) in
  length vppath = lp /\ length vspath = ls
  /\ (forall sol, In sol solutions ->
        (lp + ls <= length sol)%nat
        /\ sol = vppath
                 ++ firstn (length sol - lp - ls) (skipn lp sol)
                 ++ vspath)
  /\ ((lp < minLen solutions)%nat ->
      exists sol, In sol solutions
                  /\ nth lp sol noNode <> nth lp (hd [] solutions) noNode)
  /\ ((lp + ls < minLen solutions)%nat ->
      exists sol, In sol solutions
                  /\ nth (length sol - ls - 1) sol noNode
                     <> nth (length (hd [] solutions) - ls - 1)
                            (hd [] solutions) noNode).
Proof.
  intros Ne.
  destruct (commonPrefix_facts solutions Ne) as (_ & Lvp & Pre & MaxP).
  destruct (commonSuffix_facts solutions Ne) as (_ & Len & Lvs & Suf & MaxS).
  cbv zeta in *.
  split; [exact Lvp|]. split; [exact Lvs|].
  split; [|split; [exact MaxP | exact MaxS]].
  intros sol Hs. pose proof (Len sol Hs) as L. split; [exact L|].
  rewrite <- (Pre sol Hs), <- (Suf sol Hs).
  rewrite <- (firstn_skipn (fst (commonPrefix solutions)) sol) at 1.
  f_equal.
  rewrite <- (firstn_skipn (length sol - fst (commonPrefix solutions)
                            - fst (commonSuffix solutions))
                           (skipn (fst (commonPrefix solutions)) sol)) at 1.
  f_equal. rewrite skipn_skipn. f_equal. lia.
Qed.

(** Three candidates from contig 0 to contig 4: two through contigs 1
    and 3, one through contig 1 only. *)
Lemma candidates_factor_witness :
  fst (commonPrefix [[contig 0; contig 1; contig 2; contig 3; contig 4];
                     [contig 0; contig 1; contig 5; contig 3; contig 4];
                     [contig 0; contig 1; contig 6; contig 4]]) = 2%nat
  /\ fst (commonSuffix [[contig 0; contig 1; contig 2; contig 3; contig 4];
                        [contig 0; contig 1; contig 5; contig 3; contig 4];
                        [contig 0; contig 1; contig 6; contig 4]]) = 1%nat
  /\ forall sol,
       In sol [[contig 0; contig 1; contig 2; contig 3; contig 4];
               [contig 0; contig 1; contig 5; contig 3; contig 4];
               [contig 0; contig 1; contig 6; contig 4]] ->
       (2 + 1 <= length sol)%nat
       /\ sol = [contig 0; contig 1]
                ++ firstn (length sol - 2 - 1) (skipn 2 sol)
                ++ [contig 4].
Proof.
  split; [reflexivity|]. split; [reflexivity|].
  assert (Ne : [[contig 0; contig 1; contig 2; contig 3; contig 4];
                [contig 0; contig 1; contig 5; contig 3; contig 4];
                [contig 0; contig 1; contig 6; contig 4]] <> [])
    by discriminate.
  destruct (candidates_factor _ Ne) as (_ & _ & F & _).
  exact F.
Defined.
(** ** What a builder returns and leaves behind *)

Lemma alignedAtMostOnce_same (st st' : State) :
  calls st' = calls st -> alignedAtMostOnce st st'.
Proof.
  intros C. exists []. rewrite C, app_nil_r. repeat split. simpl. lia.
Qed.

Lemma alignedAtMostOnce_one (st st' : State) (c : Call) :
  calls st' = calls st ++ [c] -> isAlignment c = true ->
  alignedAtMostOnce st st'.
Proof.
  intros C A. exists [c]. simpl. rewrite A. repeat split; trivial.
Qed.

(** Replace the states of a run taken apart by what they are in terms of
    the first one. *)
Ltac explicit_states :=
  repeat match goal with
         | H : mergePath _ _ _ _ = OK _ |- _ =>
             apply mergePath_onlyWarns in H; destruct H as [? ->]
         | H : ambSeqs _ _ _ _ _ _ _ _ _ = OK _ |- _ =>
             apply ambSeqs_onlyWarns in H; destruct H as [? ->]
         | H : outputNewContig _ _ _ _ _ _ = OK _ |- _ =>
             apply outputNewContig_inv in H;
             destruct H as (_ & _ & _ & _ & -> & ->)
         end.

Ltac close_effect :=
  first [ apply made_none; reflexivity
        | apply alignedAtMostOnce_same; reflexivity
        | eapply alignedAtMostOnce_one; [reflexivity | reflexivity]
        | reflexivity ].

Lemma alignPair_cases (E : Env) (g : Graph) (solutions : ContigPaths)
    (st st' : State) (r : ContigPath) :
  alignPair E g solutions st = OK (r, st') ->
  exists sol0 sol1,
    solutions = [sol0; sol1]
    /\ (1 < length sol0)%nat /\ (1 < length sol1)%nat
    /\ front sol0 = front sol1 /\ back sol0 = back sol1
    /\ ((r = [] /\ made 0 st st' /\ alignedAtMostOnce st st')
        \/ ((r = sol0 \/ r = sol1) /\ made 0 st st' /\ calls st' = calls st)
        \/ (r = [front sol0; newNode (nextContigID st); back sol0]
            /\ made 1 st st' /\ alignedAtMostOnce st st')).
Proof.
  intros H. unfold alignPair in H.
  destruct solutions as [|sol0 [|sol1 [|]]]; try discriminate H.
  minv H.
  all: exists sol0, sol1.
  all: repeat match goal with
              | T : (_ <? _)%nat = true |- _ => apply Nat.ltb_lt in T
              | T : node_eqb _ _ = true |- _ => apply node_eqb_eq in T
              end.
  all: explicit_states.
  all: do 5 (split; [assumption || reflexivity|]).
  all: first
         [ solve [left; repeat split; close_effect]
         | solve [right; left; split;
                  [try match goal with
                       | |- context [if ?c then _ else _] => destruct c
                       end; auto|];
                  split; close_effect]
         | solve [right; right; split; [reflexivity|]; split;
                  [ eapply made_one_explicit; reflexivity
                  | close_effect ]] ].
Qed.

Lemma checkPalindromes_inv (E : Env) (solutions : list Path)
    (lp ls : nat) (p0 p1 : ContigID) (x : unit) (st st' : State) :
  checkPalindromes E solutions lp ls p0 p1 st = OK (x, st') -> st' = st.
Proof. intros H. unfold checkPalindromes in H. minv H. reflexivity. Qed.

Lemma alignMulti_cases (E : Env) (g : Graph) (solutions : list Path)
    (st st' : State) (r : ContigPath) :
  alignMulti E g solutions st = OK (r, st') ->
  (0 < fst (commonPrefix solutions))%nat
  /\ (0 < fst (commonSuffix solutions))%nat
  /\ ((r = [] /\ made 0 st st' /\ alignedAtMostOnce st st')
      \/ (r = hd [] solutions /\ made 0 st st' /\ alignedAtMostOnce st st')
      \/ (r = snd (commonPrefix solutions)
              ++ [newNode (nextContigID st)]
              ++ rev (snd (commonSuffix solutions))
          /\ made 1 st st' /\ alignedAtMostOnce st st')).
Proof.
  intros H. unfold alignMulti in H.
  unfold commonSuffix. unfold commonPrefix, minLen in *.
  destruct (findPrefix solutions (hd [] solutions) _ 0 []) as [lp vp].
  cbn [fst snd] in *.
  destruct (findSuffix solutions (hd [] solutions) _ 0 []) as [ls vs].
  cbn [fst snd] in *.
  minv H.
  all: repeat match goal with
              | T : _ && _ = true |- _ =>
                  apply andb_true_iff in T; destruct T as [? ?]
              | T : (_ <? _)%nat = true |- _ => apply Nat.ltb_lt in T
              | P : checkPalindromes _ _ _ _ _ _ _ = OK _ |- _ =>
                  apply checkPalindromes_inv in P; subst
              end.
  all: explicit_states.
  all: do 2 (split; [assumption|]).
  all: first
         [ solve [left; repeat split; close_effect]
         | solve [right; left; repeat split; close_effect]
         | solve [right; right; split; [reflexivity|]; split;
                  [ eapply made_one_explicit; reflexivity
                  | close_effect ]] ].
Qed.

Lemma front_firstn (l : Path) (n : nat) :
  (0 < n)%nat -> front (firstn n l) = front l.
Proof. destruct n, l; simpl; trivial; lia. Qed.

Lemma front_app (a b : Path) : a <> [] -> front (a ++ b) = front a.
Proof. destruct a; [contradiction | reflexivity]. Qed.

Lemma back_app (a b : Path) : b <> [] -> back (a ++ b) = back b.
Proof.
  unfold back. intros Ne. induction a as [|x a IH]; [reflexivity|].
  simpl. destruct (a ++ b) eqn:E; [|exact IH].
  destruct a, b; try discriminate. contradiction.
Qed.

Lemma back_skipn (l : Path) (k : nat) :
  (k < length l)%nat -> back (skipn k l) = back l.
Proof.
  intros H. rewrite <- (firstn_skipn k l) at 2.
  symmetry. apply back_app. intros E.
  apply (f_equal (@length _)) in E. rewrite length_skipn in E.
  simpl in E. lia.
Qed.

Lemma length_nonempty {A} (l : list A) : (0 < length l)%nat -> l <> [].
Proof. destruct l; simpl; [lia | discriminate]. Qed.

(** What [align] returns: nothing, and then no contig was made, or a
    path of two nodes or more between the ends of the first candidate
    that has the contig made, if one was; and it aligns once at most. *)
Lemma align_effect (E : Env) (g : Graph) (solutions : list Path)
    (st st' : State) (r : ContigPath) :
  align E g solutions st = OK (r, st') ->
  ((r = [] /\ made 0 st st')
   \/ (r <> [] /\ front r = front (hd [] solutions)
       /\ back r = back (hd [] solutions) /\ (2 <= length r)%nat
       /\ (made 0 st st'
           \/ (made 1 st st' /\ In (newNode (nextContigID st)) r))))
  /\ alignedAtMostOnce st st'.
Proof.
  intros H. unfold align in H. minv H.
  - apply alignPair_cases in H.
    destruct H as (sol0 & sol1 & -> & L0 & L1 & F & B & Cases). cbn [hd].
    destruct Cases as [(-> & Md & Al)|[([->| ->] & Md & Cl)|(-> & Md & Al)]].
    + split; [now left | exact Al].
    + split; [|now apply alignedAtMostOnce_same].
      right. split; [apply length_nonempty; lia|]. repeat split; auto; lia.
    + split; [|now apply alignedAtMostOnce_same].
      right. split; [apply length_nonempty; lia|]. repeat split; auto; lia.
    + split; [|exact Al]. right. split; [discriminate|].
      split; [reflexivity|]. split; [reflexivity|]. split; [simpl; lia|].
      right. split; [exact Md|]. simpl. auto.
  - apply alignMulti_cases in H. destruct H as (Lp & Ls & Cases).
    assert (Ne : solutions <> []).
    { intros ->. unfold commonPrefix in Lp. simpl in Lp. lia. }
    destruct (commonPrefix_facts solutions Ne) as (_ & Lvp & Pre & _).
    destruct (commonSuffix_facts solutions Ne) as (_ & Len & Lvs & Suf & _).
    cbv zeta in *.
    destruct solutions as [|first rest]; [contradiction|]. cbn [hd] in *.
    assert (Hin : In first (first :: rest)) by now left.
    pose proof (Len _ Hin) as Lf. pose proof (Pre _ Hin) as Pf.
    pose proof (Suf _ Hin) as Sf.
    destruct Cases as [(-> & Md & Al)|[(-> & Md & Al)|(-> & Md & Al)]].
    + split; [now left | exact Al].
    + split; [|exact Al].
      right. split; [apply length_nonempty; lia|]. repeat split; auto; lia.
    + split; [|exact Al]. right.
      assert (Nvp : snd (commonPrefix (first :: rest)) <> [])
        by (apply length_nonempty; lia).
      assert (Nvs : rev (snd (commonSuffix (first :: rest))) <> [])
        by (apply length_nonempty; lia).
      split; [now destruct (snd (commonPrefix (first :: rest)))|].
      split; [|split; [|split]].
      * rewrite (front_app _ _ Nvp), <- Pf. now apply front_firstn.
      * rewrite app_assoc, (back_app _ _ Nvs), <- Sf.
        apply back_skipn. lia.
      * rewrite !length_app, Lvp, Lvs. simpl. lia.
      * right. split; [exact Md|]. rewrite !in_app_iff. simpl. auto.
Qed.

Lemma made_moved (n : nat) (a b c : State) :
  nextContigID b = nextContigID a -> g_newVertices b = g_newVertices a ->
  fa b = fa a -> made n b c -> made n a c.
Proof.
  intros I V F M. change n with (0 + n)%nat.
  apply (made_trans 0 n a b c); [now apply made_none | exact M].
Qed.

(** What a call of [fillGap] that returns has done, besides counting. *)
Lemma fillGap_effect (E : Env) (g : Graph) (ap : AmbPathConstraint)
    (seen seen' : list bool) (st st' : State) (r : ContigPath) :
  fillGap E g ap seen st = OK ((r, seen'), st') ->
  ((r = [] /\ made 0 st st')
   \/ (r <> [] /\ front r = source ap
       /\ back r = back (hd [] (candidates E g ap)) /\ (2 <= length r)%nat
       /\ (made 0 st st'
           \/ (made 1 st st' /\ In (newNode (nextContigID st)) r))))
  /\ exists cs,
       calls st' = calls st
                   ++ CallSearch (source ap) (searchConstraints E ap) :: cs
       /\ (length cs <= 1)%nat /\ forallb isAlignment cs = true.
Proof.
  unfold fillGap, candidates, searchResult.
  destruct (constrainedSearch E g (source ap) (searchConstraints E ap))
    as [solutions numVisited]. cbn [fst].
  set (sols := map (fun sol => source ap :: sol) solutions).
  intros H. minv H;
    repeat match goal with
           | P : (_, _) = (_, _) |- _ => injection P as ? ?; subst
           end.
  1-4: split; [left; split; [reflexivity | now apply made_none]
              | exists []; repeat split; simpl; lia].
  - apply Nat.ltb_lt in T.
    match goal with
    | A : align _ _ _ _ = OK _ |- _ =>
        apply align_effect in A; destruct A as (Shape & cs & Cl & Lc & Fc)
    end.
    split.
    + right. simpl in Shape.
      destruct Shape as [(-> & _)|(Ne & F & B & L & Md)]; [discriminate|].
      assert (Hs : front (hd [] sols) = source ap).
      { subst sols. destruct solutions; [simpl in T; lia | reflexivity]. }
      split; [exact Ne|]. split; [congruence|]. split; [exact B|].
      split; [exact L|].
      destruct Md as [Md|[Md In]].
      * left. eapply made_moved; try exact Md; reflexivity.
      * right. split; [|exact In].
        eapply made_moved; try exact Md; reflexivity.
    + exists cs. simpl. simpl in Cl. rewrite Cl, <- app_assoc.
      repeat split; trivial.
  - apply Nat.ltb_lt in T.
    match goal with
    | A : align _ _ _ _ = OK _ |- _ =>
        apply align_effect in A; destruct A as (Shape & cs & Cl & Lc & Fc)
    end.
    split.
    + left. simpl in Shape.
      match goal with
      | N : negb (is_empty ?c) = false |- _ =>
          destruct c; [clear N | discriminate N]
      end.
      destruct Shape as [(_ & Md)|(Ne & _)]; [|contradiction].
      split; [reflexivity|]. eapply made_moved; try exact Md; reflexivity.
    + exists cs. simpl. simpl in Cl. rewrite Cl, <- app_assoc.
      repeat split; trivial.
Qed.

Lemma align_common_back (E : Env) (g : Graph) (solutions : list Path)
    (st st' : State) (r : ContigPath) :
  align E g solutions st = OK (r, st') ->
  forall sol, In sol solutions -> back sol = back (hd [] solutions).
Proof.
  intros H. unfold align in H. minv H.
  - apply alignPair_cases in H.
    destruct H as (sol0 & sol1 & -> & _ & _ & _ & B & _). cbn [hd].
    intros sol [<-|[<-|[]]]; congruence.
  - apply alignMulti_cases in H. destruct H as (Lp & Ls & _).
    assert (Ne : solutions <> []).
    { intros ->. unfold commonPrefix in Lp. simpl in Lp. lia. }
    destruct (commonSuffix_facts solutions Ne) as (_ & Len & _ & Suf & _).
    cbv zeta in *.
    assert (Bk : forall sol, In sol solutions ->
                   back sol = back (rev (snd (commonSuffix solutions)))).
    { intros sol Hs. rewrite <- (Suf _ Hs). symmetry. apply back_skipn.
      pose proof (Len _ Hs). lia. }
    intros sol Hs. rewrite (Bk _ Hs). symmetry. apply Bk.
    destruct solutions; [contradiction | now left].
Qed.

(** X14. A resolution that [fillGap] returns has two nodes or more, starts
    at the source of the gap and ends at the node at which every
    candidate ends. *)
Theorem fillGap_resolution_ends (E : Env) (g : Graph)
    (ap : AmbPathConstraint) (seen seen' : list bool) (st st' : State)
    (r : ContigPath) :
  fillGap E g ap seen st = OK ((r, seen'), st') ->
  r <> [] ->
  (2 <= length r)%nat
  /\ front r = source ap
  /\ forall c, In c (candidates E g ap) -> back c = back r.
Proof.
  intros H Ne. pose proof H as H'.
  apply fillGap_effect in H'.
  destruct H' as ([(-> & _)|(_ & F & B & L & _)] & _); [contradiction|].
  split; [exact L|]. split; [exact F|].
  intros c Hc. rewrite B.
  unfold fillGap in H. fold (searchResult E g ap) in H.
  unfold candidates in *.
  destruct (searchResult E g ap) as [solutions numVisited]. cbn [fst] in *.
  minv H;
    repeat match goal with
           | P : (_, _) = (_, _) |- _ => injection P as ? ?; subst
           end; try contradiction.
  - match goal with
    | A : align _ _ _ _ = OK _ |- _ =>
        exact (align_common_back _ _ _ _ _ _ A c Hc)
    end.
  - match goal with
    | N : negb (is_empty ?c) = false |- _ =>
        destruct c; [contradiction | discriminate N]
    end.
Qed.

(** X15. A call of [fillGap] makes one contig at most, and none when it
    returns no resolution; the contig made is a node of the resolution
    and has the identifier that was next.  The call searches once, and
    then aligns once at most. *)
Theorem fillGap_one_contig (E : Env) (g : Graph)
    (ap : AmbPathConstraint) (seen seen' : list bool) (st st' : State)
    (r : ContigPath) :
  fillGap E g ap seen st = OK ((r, seen'), st') ->
  (made 0 st st'
   \/ (made 1 st st' /\ In (newNode (nextContigID st)) r))
  /\ (r = [] -> made 0 st st')
  /\ exists cs,
       calls st' = calls st
                   ++ CallSearch (source ap) (searchConstraints E ap) :: cs
       /\ (length cs <= 1)%nat /\ forallb isAlignment cs = true.
Proof.
  intros H. apply fillGap_effect in H. destruct H as (Shape & Calls).
  split; [|split; [|exact Calls]].
  - destruct Shape as [(_ & Md)|(_ & _ & _ & _ & Md)]; [now left | exact Md].
  - intros ->. destruct Shape as [(_ & Md)|(Ne & _)];
      [exact Md | contradiction].
Qed.

Lemma made_ext (n : nat) (a a' b b' : State) :
  nextContigID a' = nextContigID a -> g_newVertices a' = g_newVertices a ->
  fa a' = fa a ->
  nextContigID b' = nextContigID b -> g_newVertices b' = g_newVertices b ->
  fa b' = fa b ->
  made n a b -> made n a' b'.
Proof.
  intros I V F I' V' F' (In & vs & fs & Hv & Hf & Hu & Hd & Hl).
  unfold made, freshIds in *. rewrite I, V, F, I', V', F'.
  split; [exact In|]. exists vs, fs. auto.
Qed.

Lemma filter_alignment_small (cs : list Call) :
  (length cs <= 1)%nat -> (length (filter isAlignment cs) <= 1)%nat.
Proof.
  intros H. pose proof (filter_length_le isAlignment cs). lia.
Qed.

(** The contigs made by the resolution loop. *)
Lemma resolveGaps_made (E : Env) (g : Graph) (todo : AmbPath2Contig) :
  forall (seen seen' : list bool) (st st' : State) (reg' : AmbPath2Contig),
    resolveGaps E g todo seen st = OK ((reg', seen'), st') ->
    (exists n,
        made n st st'
        /\ (n <= length (filter (fun kv => negb (is_empty (snd kv))) reg'))%nat
        /\ forall i, In i (freshIds st n) ->
             exists k v, In (k, v) reg' /\ In (newNode i) v)
    /\ (exists cs, calls st' = calls st ++ cs
                   /\ (length (filter isAlignment cs) <= length todo)%nat)
    /\ Forall (fun kv => snd kv = []
                         \/ ((2 <= length (snd kv))%nat
                             /\ front (snd kv) = source (fst kv))) reg'.
Proof.
  induction todo as [|[k v] rest IH]; intros seen seen' st st' reg' H.
  - injection H as <- <- <-. split; [|split].
    + exists 0%nat. split; [apply made_refl|]. split; [simpl; lia|].
      intros i [].
    + exists []. rewrite app_nil_r. simpl. auto.
    + constructor.
  - apply resolveGaps_inv in H.
    destruct H as (r & seen1 & st1 & rest' & F & Rv & ->).
    apply fillGap_effect in F.
    destruct F as (Shape & cs1 & C1 & L1 & _).
    apply IH in Rv.
    destruct Rv as ((n2 & M2 & N2 & I2) & (cs2 & C2 & L2) & Fa).
    split; [|split].
    + destruct Shape as [(-> & M1)|(Ne & _ & _ & _ & [M1|(M1 & In1)])].
      * exists n2. split; [exact (made_trans 0 n2 _ _ _ M1 M2)|].
        split; [simpl; exact N2|].
        intros i Hi.
        change (freshIds st n2) with (freshIds st (0 + n2)) in Hi.
        rewrite (freshIds_app st st1 0 n2) in Hi
          by (destruct M1 as (I1 & _); exact I1).
        simpl in Hi. destruct (I2 i Hi) as (k' & v' & Hin & Hn).
        exists k', v'. split; [now right | exact Hn].
      * exists n2. split; [exact (made_trans 0 n2 _ _ _ M1 M2)|].
        split.
        { cbn [filter snd]. destruct (negb (is_empty r)); simpl; lia. }
        intros i Hi.
        change (freshIds st n2) with (freshIds st (0 + n2)) in Hi.
        rewrite (freshIds_app st st1 0 n2) in Hi
          by (destruct M1 as (I1 & _); exact I1).
        simpl in Hi. destruct (I2 i Hi) as (k' & v' & Hin & Hn).
        exists k', v'. split; [now right | exact Hn].
      * exists (1 + n2)%nat. split; [exact (made_trans 1 n2 _ _ _ M1 M2)|].
        split.
        { cbn [filter snd]. rewrite (is_empty_false Ne). simpl. lia. }
        intros i Hi.
        rewrite (freshIds_app st st1 1 n2) in Hi
          by (destruct M1 as (I1 & _); exact I1).
        apply in_app_or in Hi. destruct Hi as [Hi|Hi].
        -- unfold freshIds in Hi. simpl in Hi. destruct Hi as [<-|[]].
           rewrite N.add_0_r. exists k, r. split; [now left | exact In1].
        -- destruct (I2 i Hi) as (k' & v' & Hin & Hn).
           exists k', v'. split; [now right | exact Hn].
    + exists (CallSearch (source k) (searchConstraints E k) :: cs1 ++ cs2).
      split.
      * rewrite C2, C1, <- app_assoc. reflexivity.
      * cbn [filter isAlignment]. rewrite filter_app, length_app.
        pose proof (filter_alignment_small cs1 L1). simpl. lia.
    + constructor; [|exact Fa]. cbn [fst snd].
      destruct Shape as [(-> & _)|(_ & Fr & _ & L & _)]; [now left|].
      right. split; assumption.
Qed.

Lemma alignmentCalls_app (st st' : State) (cs : list Call) :
  calls st' = calls st ++ cs ->
  alignmentCalls st' = alignmentCalls st ++ filter isAlignment cs.
Proof. unfold alignmentCalls. intros ->. apply filter_app. Qed.

(** X17. In a run that ends the contigs made are numbered from the
    identifier that [ContigID::setNextContigID] makes of the last label
    (from the identifier that was next at the start when there is no
    path), each with its vertex and its record; each is a node of the
    resolution of a gap of the registry, they are no more than the gaps
    that have a resolution, and the alignment oracles were called no more
    often than there are gaps. *)
Theorem run_new_contigs (E : Env) (g : Graph)
    (records : list (string * Path)) (st st' : State) (out : list OutLine) :
  g_ambpath_contig st = [] ->
  main E g records st = OK (out, st') ->
  exists n,
    made n (numbered E (map fst records) st) st'
    /\ nextContigID st'
       = (match records with
          | [] => nextContigID st
          | _ :: _ => setNextContigID E (last (map fst records) EmptyString)
          end + N.of_nat n)%N
    /\ (n <= length (filter (fun kv => negb (is_empty (snd kv)))
                            (g_ambpath_contig st')))%nat
    /\ (forall i, In i (freshIds (numbered E (map fst records) st) n) ->
          exists k v, In (k, v) (g_ambpath_contig st')
                      /\ In (newNode i) v)
    /\ (length (alignmentCalls st')
        <= length (alignmentCalls st) + length (g_ambpath_contig st'))%nat.
Proof.
  intros He Hm. apply main_inv in Hm; [|exact He].
  destruct Hm
    as (m & reg & seen & st2 & lines & _ & _ & _ & _ & Rv & -> & _).
  pose proof Rv as Rs. apply resolveGaps_searches in Rs.
  destruct Rs as (K & _ & _).
  apply resolveGaps_made in Rv.
  destruct Rv as ((n & Md & Nn & In) & (cs & Cl & Lc) & _).
  assert (Md' : made n (numbered E (map fst records) st)
                       (set_registry (fun _ => reg) st2)).
  { destruct records as [|r0 rs];
      (eapply made_ext; try exact Md; reflexivity). }
  exists n. cbn [g_ambpath_contig set_registry].
  split; [exact Md'|]. split; [|split; [exact Nn|split]].
  - destruct Md' as (I & _). rewrite I. now destruct records.
  - intros i Hi. apply In.
    destruct records as [|r0 rs]; exact Hi.
  - assert (Lk : length reg = length m).
    { rewrite <- (length_map fst reg), <- (length_map fst m).
      unfold keys in K. now rewrite K. }
    change (alignmentCalls (set_registry (fun _ => reg) st2))
      with (alignmentCalls st2).
    rewrite (alignmentCalls_app _ st2 cs Cl), length_app.
    destruct (numbered_frame E (map fst records) (loaded m st))
      as (_ & _ & _ & _ & _ & Nc).
    unfold alignmentCalls. rewrite Nc.
    change (calls (loaded m st)) with (calls st). lia.
Qed.

(** The sample run from a counter at 8: the labels end with 12, and the
    one contig made, for the gap between contigs 0 and 2, is contig
    13. *)
Lemma run_new_contigs_witness :
  exists out st' n,
    main sampleRunEnv (overlapGraph 3) samplePaths (initialState 8)
    = OK (out, st')
    /\ made n (numbered sampleRunEnv (map fst samplePaths) (initialState 8))
            st'
    /\ nextContigID st' = (13 + N.of_nat n)%N
    /\ (n <= length (filter (fun kv => negb (is_empty (snd kv)))
                            (g_ambpath_contig st')))%nat
    /\ (forall i,
          In i (freshIds (numbered sampleRunEnv (map fst samplePaths)
                                   (initialState 8)) n) ->
          exists k v, In (k, v) (g_ambpath_contig st')
                      /\ In (newNode i) v)
    /\ (length (alignmentCalls st')
        <= length (alignmentCalls (initialState 8))
           + length (g_ambpath_contig st'))%nat.
Proof.
  destruct (main sampleRunEnv (overlapGraph 3) samplePaths (initialState 8))
    as [[out st']|] eqn:Hm; [|vm_compute in Hm; discriminate].
  destruct (run_new_contigs sampleRunEnv (overlapGraph 3) samplePaths
              (initialState 8) st' out eq_refl Hm) as (n & H).
  exists out, st', n. split; [reflexivity | exact H].
Defined.

(** The gap of the sample run between contigs 0 and 2. *)
Lemma fillGap_resolution_ends_witness :
  exists r seen' st',
    fillGap sampleRunEnv (overlapGraph 3)
            (mkConstraint (contig 0) (contig 2) (-5))
            (repeat false 8) (initialState 13)
    = OK ((r, seen'), st')
    /\ r <> []
    /\ (2 <= length r)%nat
    /\ front r = contig 0
    /\ forall c, In c (candidates sampleRunEnv (overlapGraph 3)
                         (mkConstraint (contig 0) (contig 2) (-5))) ->
                 back c = back r.
Proof.
  destruct (fillGap sampleRunEnv (overlapGraph 3)
              (mkConstraint (contig 0) (contig 2) (-5))
              (repeat false 8) (initialState 13))
    as [[[r seen'] st']|] eqn:Hf; [|vm_compute in Hf; discriminate].
  assert (Ne : r <> []).
  { vm_compute in Hf. injection Hf as <- _ _. discriminate. }
  exists r, seen', st'. split; [reflexivity|]. split; [exact Ne|].
  exact (fillGap_resolution_ends sampleRunEnv (overlapGraph 3)
           (mkConstraint (contig 0) (contig 2) (-5))
           (repeat false 8) seen' (initialState 13) st' r Hf Ne).
Defined.

Lemma fillGap_one_contig_witness :
  exists r seen' st',
    fillGap sampleRunEnv (overlapGraph 3)
            (mkConstraint (contig 0) (contig 2) (-5))
            (repeat false 8) (initialState 13)
    = OK ((r, seen'), st')
    /\ (made 0 (initialState 13) st'
        \/ (made 1 (initialState 13) st' /\ In (newNode 13%N) r))
    /\ (r = [] -> made 0 (initialState 13) st')
    /\ exists cs,
         calls st'
         = calls (initialState 13)
           ++ CallSearch (contig 0)
                (searchConstraints sampleRunEnv
                   (mkConstraint (contig 0) (contig 2) (-5))) :: cs
         /\ (length cs <= 1)%nat /\ forallb isAlignment cs = true.
Proof.
  destruct (fillGap sampleRunEnv (overlapGraph 3)
              (mkConstraint (contig 0) (contig 2) (-5))
              (repeat false 8) (initialState 13))
    as [[[r seen'] st']|] eqn:Hf; [|vm_compute in Hf; discriminate].
  exists r, seen', st'. split; [reflexivity|].
  exact (fillGap_one_contig sampleRunEnv (overlapGraph 3)
           (mkConstraint (contig 0) (contig 2) (-5))
           (repeat false 8) seen' (initialState 13) st' r Hf).
Defined.

(** ** The final pass *)

Lemma gapsOfPath_cons (prev it next : ContigNode) (rest : Path) :
  gapsOfPath (prev :: it :: next :: rest)
  = (if ambiguous it then [mkConstraint prev next (gapDistance it)] else [])
    ++ gapsOfPath (it :: next :: rest).
Proof.
  unfold gapsOfPath.
  change (windows (prev :: it :: next :: rest))
    with ((prev, it, next) :: windows (it :: next :: rest)).
  cbn [filter]. now destruct (ambiguous it).
Qed.

Lemma resolvedIn_tail (reg : AmbPath2Contig) (prev it next : ContigNode)
    (rest : Path) :
  resolvedIn reg (gapsOfPath (prev :: it :: next :: rest)) ->
  resolvedIn reg (gapsOfPath (it :: next :: rest)).
Proof.
  intros H k Hk. apply H. rewrite gapsOfPath_cons, in_app_iff. now right.
Qed.

Lemma rewritePath_step (reg : AmbPath2Contig) (prev it next : ContigNode)
    (rest cur : Path) :
  resolvedIn reg (gapsOfPath (prev :: it :: next :: rest)) ->
  rewritePath reg prev (it :: next :: rest) cur
  = rewritePath reg it (next :: rest)
                (cur ++ substitute reg (prev, it, next)).
Proof.
  intros H. cbn [rewritePath substitute].
  destruct (ambiguous it) eqn:A; cbn [negb]; [|reflexivity].
  destruct (H (mkConstraint prev next (gapDistance it)))
    as (v & F & Hv).
  { rewrite gapsOfPath_cons, A. now left. }
  rewrite F. destruct Hv as [->|L]; [reflexivity|].
  destruct v as [|x v]; [simpl in L; lia|]. cbn [is_empty negb].
  rewrite (proj2 (Nat.ltb_lt _ _) L). reflexivity.
Qed.

(** The loop over one path whose last node is a contig. *)
Lemma rewritePath_OK (reg : AmbPath2Contig) (its : list ContigNode) :
  forall (prev : ContigNode) (cur : Path),
    resolvedIn reg (gapsOfPath (prev :: its)) ->
    its <> [] -> ambiguous (back its) = false ->
    rewritePath reg prev its cur
    = OK (cur ++ flat_map (substitute reg) (windows (prev :: its))
              ++ [back its]).
Proof.
  induction its as [|it its IH]; intros prev cur H Ne B; [contradiction|].
  destruct its as [|next rest].
  - unfold back in B. cbn [last] in B. cbn [rewritePath]. rewrite B.
    reflexivity.
  - rewrite (rewritePath_step reg prev it next rest cur H).
    rewrite IH;
      [|now apply (resolvedIn_tail reg prev) | discriminate | exact B].
    change (windows (prev :: it :: next :: rest))
      with ((prev, it, next) :: windows (it :: next :: rest)).
    cbn [flat_map]. rewrite <- !app_assoc. reflexivity.
Qed.

(** The loop over one path whose last node is a placeholder. *)
Lemma rewritePath_abort (reg : AmbPath2Contig) (its : list ContigNode) :
  forall (prev : ContigNode) (cur : Path),
    resolvedIn reg (gapsOfPath (prev :: its)) ->
    its <> [] -> ambiguous (back its) = true ->
    rewritePath reg prev its cur = Abort "next != path->end()".
Proof.
  induction its as [|it its IH]; intros prev cur H Ne B; [contradiction|].
  destruct its as [|next rest].
  - unfold back in B. cbn [last] in B. cbn [rewritePath]. rewrite B.
    reflexivity.
  - rewrite (rewritePath_step reg prev it next rest cur H).
    apply IH; [now apply (resolvedIn_tail reg prev) | discriminate | exact B].
Qed.

Lemma hasGap_long (path : Path) :
  hasGap path = true -> (2 < length path)%nat.
Proof.
  intros H. destruct (Nat.le_gt_cases (length path) 2) as [L|L]; [|exact L].
  unfold hasGap in H. rewrite (windows_short path L) in H. discriminate.
Qed.

(** X18. The final pass over one path of three nodes or more whose gaps
    all have an entry: when the path ends in a contig, every placeholder
    with a resolution is replaced by the inner nodes of the resolution and
    all other nodes stay; when it ends in a placeholder, the pass aborts. *)
Theorem rewritePath_splices (reg : AmbPath2Contig) (path : Path) :
  (2 < length path)%nat ->
  resolvedIn reg (gapsOfPath path) ->
  rewritePath reg (front path) (tl path) [front path]
  = if ambiguous (back path) then Abort "next != path->end()"
    else OK (spliced reg path).
Proof.
  intros L H. destruct path as [|p0 [|p1 its]]; try (simpl in L; lia).
  cbn [front hd tl].
  assert (B : back (p0 :: p1 :: its) = back (p1 :: its)) by reflexivity.
  rewrite B. destruct (ambiguous (back (p1 :: its))) eqn:A.
  - now apply rewritePath_abort.
  - rewrite rewritePath_OK; [|exact H | discriminate | exact A].
    unfold spliced. rewrite B. reflexivity.
Qed.

Lemma resolvedIn_app (reg : AmbPath2Contig) (a b : list AmbPathConstraint) :
  resolvedIn reg (a ++ b) <-> resolvedIn reg a /\ resolvedIn reg b.
Proof.
  unfold resolvedIn. split.
  - intros H. split; intros k Hk; apply H; rewrite in_app_iff; auto.
  - intros [Ha Hb] k Hk. apply in_app_iff in Hk. destruct Hk; auto.
Qed.

Lemma rewritePath_flagged (reg : AmbPath2Contig) (path : Path) :
  hasGap path = true ->
  resolvedIn reg (gapsOfPath path) ->
  rewritePath reg (front path) (tl path) [front path]
  = if endsInGap path then Abort "next != path->end()"
    else OK (finalPath reg path).
Proof.
  intros G H. pose proof (hasGap_long path G) as L.
  unfold endsInGap, finalPath. rewrite G. cbn [andb].
  destruct path as [|p0 [|p1 its]]; try (simpl in L; lia).
  cbn [front hd tl].
  assert (B : back (p0 :: p1 :: its) = back (p1 :: its)) by reflexivity.
  rewrite B. destruct (ambiguous (back (p1 :: its))) eqn:A.
  - now apply rewritePath_abort.
  - rewrite rewritePath_OK; [|exact H | discriminate | exact A].
    unfold spliced. rewrite B. reflexivity.
Qed.

(** The final pass over all paths. *)
Lemma outputPaths_flagged (reg : AmbPath2Contig)
    (records : list (string * Path)) :
  resolvedIn reg (gapsOf records) ->
  outputPaths reg (flagged records)
  = if existsb (fun r => endsInGap (snd r)) records
    then Abort "next != path->end()"
    else OK (map (fun r => PathLine (fst r) (finalPath reg (snd r)))
                 records).
Proof.
  unfold flagged.
  induction records as [|[label path] records IH]; intros H; [reflexivity|].
  unfold gapsOf in H. cbn [flat_map snd] in H.
  apply resolvedIn_app in H. destruct H as [Hp Hr].
  cbn [map combine outputPaths existsb fst snd].
  destruct (hasGap path) eqn:G; cbn [negb].
  - rewrite (proj2 (Nat.ltb_lt _ _) (hasGap_long path G)). cbn [negb].
    rewrite (rewritePath_flagged reg path G Hp).
    destruct (endsInGap path); cbn [orb]; [reflexivity|].
    rewrite (IH Hr). now destruct (existsb _ records).
  - unfold endsInGap at 1. rewrite G. cbn [andb orb].
    rewrite (IH Hr). unfold finalPath at 2. rewrite G.
    now destruct (existsb _ records).
Qed.

Lemma map_find_In (k : AmbPathConstraint) (v : ContigPath)
    (m : AmbPath2Contig) :
  map_find k m = Some v -> exists k', In (k', v) m.
Proof.
  induction m as [|[k0 v0] m IH]; simpl; [discriminate|].
  destruct (constraint_ltb k k0); [discriminate|].
  destruct (constraint_ltb k0 k).
  - intros H. destruct (IH H) as (k' & Hin). eauto.
  - intros [= ->]. eauto.
Qed.

(** What the resolution loop leaves is what the final pass needs. *)
Lemma resolveGaps_resolvedIn (E : Env) (g : Graph) (m reg : AmbPath2Contig)
    (seen seen' : list bool) (st st' : State)
    (gaps : list AmbPathConstraint) :
  ordered m -> (forall k, In k gaps -> In k (keys m)) ->
  resolveGaps E g m seen st = OK ((reg, seen'), st') ->
  resolvedIn reg gaps.
Proof.
  intros Ho Hk Rv. pose proof Rv as Rs.
  apply resolveGaps_searches in Rs. destruct Rs as (K & _ & _).
  apply resolveGaps_made in Rv. destruct Rv as (_ & _ & Fa).
  assert (Ho' : ordered reg) by (unfold ordered; now rewrite K).
  intros k Hin. apply Hk in Hin. rewrite <- K in Hin.
  destruct (@map_find_present k reg Ho' Hin) as (v & F & I).
  exists v. split; [exact F|].
  rewrite Forall_forall in Fa. destruct (Fa _ I) as [E0|[L _]]; auto.
Qed.

(** A run whose resolution loop returns. *)
Lemma main_run (E : Env) (g : Graph) (records : list (string * Path))
    (st st2 : State) (m reg : AmbPath2Contig) (seen : list bool) :
  readPath records st
  = OK ((map snd records, map fst records,
         map (fun r => hasGap (snd r)) records),
        set_registry (fun _ => m) st) ->
  resolveGaps E g m (repeat false (length (g_contigs E)))
              (numbered E (map fst records) (loaded m st))
  = OK ((reg, seen), st2) ->
  main E g records st
  = match outputPaths reg (flagged records) with
    | OK lines =>
        OK (outputSeen (length (g_contigs E))
                       (unmarkUsed reg (map snd records) seen) ++ lines,
            set_registry (fun _ => reg) st2)
    | Abort msg => Abort msg
    end.
Proof.
  intros Rd Rv. unfold main. unfold bind at 1. rewrite Rd.
  unfold bind at 1. unfold gets at 1. cbn [g_ambpath_contig set_registry].
  unfold bind at 1. unfold modify at 1.
  fold (loaded m st). unfold bind at 1. rewrite startNumbering_numbered.
  unfold bind at 1. rewrite Rv.
  unfold bind at 1. unfold modify at 1. unfold bind, lift.
  fold (flagged records).
  destruct (outputPaths reg (flagged records)); reflexivity.
Qed.

(** X19. In a run that ends no path that the loader flagged ends in a
    placeholder, and after the lines of the contigs the output has one
    line for each path, in the order and under the labels of the input:
    a path without a gap as it was, a path with gaps with every resolved
    placeholder replaced by the inner nodes of its resolution in the
    registry. *)
Theorem run_output_paths (E : Env) (g : Graph)
    (records : list (string * Path)) (st st' : State) (out : list OutLine) :
  g_ambpath_contig st = [] ->
  main E g records st = OK (out, st') ->
  existsb (fun r => endsInGap (snd r)) records = false
  /\ exists cs,
       out = map ContigLine cs
             ++ map (fun r => PathLine (fst r)
                                (finalPath (g_ambpath_contig st') (snd r)))
                    records.
Proof.
  intros He Hm. apply main_inv in Hm; [|exact He].
  destruct Hm
    as (m & reg & seen & st2 & lines & _ & Ho & _ & Hk & Rv & -> & Op & ->).
  fold (flagged records) in Op.
  assert (Hr : resolvedIn reg (gapsOf records)).
  { eapply (resolveGaps_resolvedIn E g m reg); [exact Ho | | exact Rv].
    intros k. apply Hk. }
  rewrite (outputPaths_flagged reg records Hr) in Op.
  destruct (existsb _ records); [discriminate|].
  injection Op as <-. split; [reflexivity|].
  unfold outputSeen. eexists. reflexivity.
Qed.

(** X20. Once the resolution loop has returned, the run ends or not by
    the paths alone: it aborts on the assertion that a placeholder has a
    node after it when a path that the loader flagged ends in a
    placeholder, and returns otherwise; none of the other assertions of
    the final pass fails. *)
Theorem final_pass_total (E : Env) (g : Graph)
    (records : list (string * Path)) (st st1 st2 : State)
    (x : ContigPaths * list string * list bool)
    (reg : AmbPath2Contig) (seen : list bool) :
  g_ambpath_contig st = [] ->
  readPath records st = OK (x, st1) ->
  resolveGaps E g (g_ambpath_contig st1)
              (repeat false (length (g_contigs E)))
              (numbered E (map fst records)
                        (loaded (g_ambpath_contig st1) st))
  = OK ((reg, seen), st2) ->
  if existsb (fun r => endsInGap (snd r)) records
  then main E g records st = Abort "next != path->end()"
  else exists out,
         main E g records st = OK (out, set_registry (fun _ => reg) st2).
Proof.
  intros He Rd Rv.
  destruct (readPath_spec records st He) as (m & Rd' & Ho & _ & Hk).
  rewrite Rd' in Rd. injection Rd as _ <-.
  cbn [g_ambpath_contig set_registry] in Rv.
  rewrite (main_run E g records st st2 m reg seen Rd' Rv).
  assert (Hr : resolvedIn reg (gapsOf records)).
  { eapply (resolveGaps_resolvedIn E g m reg); [exact Ho | | exact Rv].
    intros k. apply Hk. }
  rewrite (outputPaths_flagged reg records Hr).
  destruct (existsb _ records); [reflexivity|].
  eexists. reflexivity.
Qed.

(** ** The path merger on exact overlaps *)

Lemma seqOf_long (E : Env) (n : ContigNode) (ov : nat) :
  (ov < length (seqOf E n))%nat -> getSequence E n = OK (seqOf E n).
Proof.
  unfold seqOf. destruct (getSequence E n); [reflexivity|].
  simpl. lia.
Qed.

Lemma skipn_tail_app (pre s : Sequence) (ov : nat) :
  (ov <= length s)%nat ->
  skipn (length (pre ++ s) - ov) (pre ++ s) = skipn (length s - ov) s.
Proof.
  intros L. rewrite length_app, skipn_app.
  rewrite skipn_all2 by lia. simpl. f_equal. lia.
Qed.

Lemma mergePath_loop_exact (E : Env) (g : Graph) (ov : nat) (path : Path)
    (st : State) :
  (0 < ov)%nat -> Z.of_nat ov < 2 ^ 32 ->
  forall (its : list ContigNode) (prev : ContigNode) (pre : Sequence),
    (ov < length (seqOf E prev))%nat ->
    chained (overlapsExactly E g ov) (prev :: its) ->
    mergePath_loop E g path prev its (pre ++ seqOf E prev) st
    = OK (pre ++ seqOf E prev
              ++ flat_map (fun n => skipn ov (seqOf E n)) its, st).
Proof.
  intros H0 Hb. induction its as [|it its IH]; intros prev pre Lp Ch.
  - simpl. now rewrite app_nil_r.
  - destruct Ch as ((Ed & _ & Li & Ov) & Ch).
    cbn [mergePath_loop]. unfold bind at 1.
    assert (Ne : is_empty (pre ++ seqOf E prev) = false).
    { apply is_empty_length. rewrite length_app. lia. }
    rewrite Ne, Ed. unfold bind at 1, assert at 1.
    rewrite (proj2 (Z.ltb_lt _ _)) by lia. unfold ret at 1.
    rewrite Z.opp_involutive. unfold to_unsigned.
    rewrite Z.mod_small by lia. rewrite Nat2Z.id.
    unfold bind at 1, lift at 1. rewrite (seqOf_long E it ov Li).
    rewrite (mergeContigs_with_consensus ov (pre ++ seqOf E prev)
               (seqOf E it) (firstn ov (seqOf E it)) it path st Li).
    + rewrite firstn_skipn.
      assert (Sp : firstn (length (pre ++ seqOf E prev) - ov)
                          (pre ++ seqOf E prev)
                   = pre ++ firstn (length (seqOf E prev) - ov)
                                   (seqOf E prev)).
      { rewrite length_app, firstn_app, firstn_all2 by lia. f_equal.
        f_equal. lia. }
      rewrite Sp.
      rewrite (IH it (pre ++ firstn (length (seqOf E prev) - ov)
                                     (seqOf E prev)) Li Ch).
      cbn [flat_map]. f_equal. f_equal.
      assert (Sq : seqOf E prev
                   = firstn (length (seqOf E prev) - ov) (seqOf E prev)
                     ++ firstn ov (seqOf E it))
        by (rewrite <- Ov; symmetry; apply firstn_skipn).
      assert (Si : seqOf E it
                   = firstn ov (seqOf E it) ++ skipn ov (seqOf E it))
        by (symmetry; apply firstn_skipn).
      set (F := firstn (length (seqOf E prev) - ov) (seqOf E prev)) in *.
      set (A := firstn ov (seqOf E it)) in *.
      set (B := skipn ov (seqOf E it)) in *.
      rewrite Si, Sq. now rewrite <- !app_assoc.
    + rewrite length_app. lia.
    + rewrite (skipn_tail_app pre (seqOf E prev) ov) by lia. rewrite Ov.
      unfold createConsensus. rewrite Nat.eqb_refl. simpl.
      now rewrite (proj2 (seq_eqb_eq _ _) eq_refl).
    + intros N. apply (f_equal (@length _)) in N.
      rewrite length_firstn in N. simpl in N. lia.
Qed.

(** X10. Along a path whose edges all have the same overlap, each contig
    ending with exactly the bases the next begins with, [mergePath]
    returns the sequence of the first contig followed by what every
    other contig has after the overlap; it warns of nothing. *)
Theorem mergePath_spells (E : Env) (g : Graph) (ov : nat) (path : Path)
    (st : State) :
  (0 < ov)%nat -> Z.of_nat ov < 2 ^ 32 ->
  path <> [] ->
  getSequence E (front path) = OK (seqOf E (front path)) ->
  chained (overlapsExactly E g ov) path ->
  mergePath E g path st
  = OK (seqOf E (front path)
        ++ flat_map (fun n => skipn ov (seqOf E n)) (tl path), st).
Proof.
  intros H0 Hb Ne G0 Ch. unfold mergePath.
  destruct path as [|p0 rest]; [contradiction|].
  cbn [front hd tl mergePath_loop is_empty] in *.
  unfold bind at 1, lift at 1. rewrite G0.
  destruct rest as [|p1 rest]; [simpl; now rewrite app_nil_r|].
  assert (L0 : (ov < length (seqOf E p0))%nat)
    by (destruct Ch as ((_ & L & _) & _); exact L).
  exact (mergePath_loop_exact E g ov (p0 :: p1 :: rest) st H0 Hb
           (p1 :: rest) p0 [] L0 Ch).
Qed.

(** Contigs 3 and 4 overlap by three bases. *)
Lemma mergePath_spells_witness :
  mergePath transitiveEnv (overlapGraph 3) [contig 3; contig 4]
            (initialState 8)
  = OK (seq "GGGTTTAAAC", initialState 8).
Proof.
  apply (mergePath_spells transitiveEnv (overlapGraph 3) 3
           [contig 3; contig 4] (initialState 8)).
  - lia.
  - simpl. lia.
  - discriminate.
  - reflexivity.
  - simpl. unfold overlapsExactly. simpl. repeat split; lia.
Defined.

(** ** The marks of one path *)

Lemma mentions_membership (c : nat) (p q : ContigPath) :
  (forall n, In n p <-> In n q) -> mentions c p = mentions c q.
Proof.
  intros H. unfold mentions.
  destruct (existsb _ p) eqn:Ep; destruct (existsb _ q) eqn:Eq; trivial.
  - apply existsb_exists in Ep. destruct Ep as (n & Hn & Hc).
    assert (Eq' : existsb (fun n => negb (ambiguous n)
                                    && (N.to_nat (id n) =? c)%nat) q = true).
    { apply existsb_exists. exists n. split; [now apply H | exact Hc]. }
    congruence.
  - apply existsb_exists in Eq. destruct Eq as (n & Hn & Hc).
    assert (Ep' : existsb (fun n => negb (ambiguous n)
                                    && (N.to_nat (id n) =? c)%nat) p = true).
    { apply existsb_exists. exists n. split; [now apply H | exact Hc]. }
    congruence.
Qed.

(** X11. [markSeen] keeps the length of the vector, sets the mark of every
    contig of the path whose number is within the vector and leaves
    every other mark; placeholders and numbers beyond the vector are
    passed over.  Only the set of nodes of the path matters: order and
    repetition do not, and marking twice is marking once. *)
Theorem markSeen_marks (seen : list bool) (path : ContigPath) (flag : bool) :
  length (markSeen seen path flag) = length seen
  /\ (forall c, nth c (markSeen seen path flag) false
                = if mentions c path && (c <? length seen)%nat then flag
                  else nth c seen false)
  /\ (forall q, (forall n, In n path <-> In n q) ->
                markSeen seen q flag = markSeen seen path flag)
  /\ markSeen (markSeen seen path flag) path flag = markSeen seen path flag.
Proof.
  split; [apply length_markSeen|]. split; [intros c; apply nth_markSeen|].
  split.
  - intros q H. apply (nth_ext _ _ false false).
    + now rewrite !length_markSeen.
    + intros c _. rewrite !nth_markSeen.
      now rewrite (mentions_membership c path q H).
  - apply (nth_ext _ _ false false).
    + now rewrite !length_markSeen.
    + intros c _. rewrite !nth_markSeen, length_markSeen.
      now destruct (mentions c path && (c <? length seen)%nat).
Qed.

(** Contig 1 twice and a placeholder mark what contig 1 alone marks. *)
Lemma markSeen_marks_witness :
  markSeen (repeat false 3) [contig 1; gap 2; contig 1; contig 7] true
  = markSeen (repeat false 3) [contig 7; contig 1; gap 2] true.
Proof.
  destruct (markSeen_marks (repeat false 3) [contig 7; contig 1; gap 2] true)
    as (_ & _ & Q & _).
  apply Q. intros n. simpl. tauto.
Defined.

(** ** Examples of the final pass *)

(** The registry after the sample run: the gap between contigs 0 and 2
    resolved through a new contig, the other left open. *)
Lemma rewritePath_splices_witness :
  rewritePath
    [(mkConstraint (contig 0) (contig 2) (-5),
      [contig 0; contig 13; contig 2]);
     (mkConstraint (contig 2) (contig 4) (-3), [])]
    (contig 0) [gap 5; contig 2; gap 3; contig 4] [contig 0]
  = OK [contig 0; contig 13; contig 2; gap 3; contig 4].
Proof.
  apply (rewritePath_splices
           [(mkConstraint (contig 0) (contig 2) (-5),
             [contig 0; contig 13; contig 2]);
            (mkConstraint (contig 2) (contig 4) (-3), [])]
           [contig 0; gap 5; contig 2; gap 3; contig 4]).
  - simpl. lia.
  - intros k [<-|[<-|[]]].
    + eexists. split; [reflexivity|]. right. simpl. lia.
    + eexists. split; [reflexivity|]. now left.
Defined.

Lemma run_output_paths_witness :
  exists out st',
    main sampleRunEnv (overlapGraph 3) samplePaths (initialState 13)
    = OK (out, st')
    /\ existsb (fun r => endsInGap (snd r)) samplePaths = false
    /\ exists cs,
         out = map ContigLine cs
               ++ map (fun r => PathLine (fst r)
                                  (finalPath (g_ambpath_contig st') (snd r)))
                      samplePaths.
Proof.
  destruct (main sampleRunEnv (overlapGraph 3) samplePaths (initialState 13))
    as [[out st']|] eqn:Hm; [|vm_compute in Hm; discriminate].
  exists out, st'. split; [reflexivity|].
  exact (run_output_paths sampleRunEnv (overlapGraph 3) samplePaths
           (initialState 13) st' out eq_refl Hm).
Defined.

(** A path with a gap that ends in a placeholder stops the run. *)
Lemma final_pass_total_witness :
  main oneCandidateEnv (overlapGraph 3)
       [("7"%string, [contig 0; gap 5; contig 2; gap 3])] (initialState 3)
  = Abort "next != path->end()".
Proof.
  destruct (readPath [("7"%string, [contig 0; gap 5; contig 2; gap 3])]
                     (initialState 3)) as [[x st1]|] eqn:Rd;
    [|vm_compute in Rd; discriminate].
  destruct (resolveGaps oneCandidateEnv (overlapGraph 3)
              (g_ambpath_contig st1)
              (repeat false (length (g_contigs oneCandidateEnv)))
              (numbered oneCandidateEnv
                 (map fst [("7"%string, [contig 0; gap 5; contig 2; gap 3])])
                 (loaded (g_ambpath_contig st1) (initialState 3))))
    as [[[reg seen] st2]|] eqn:Rv.
  - exact (final_pass_total oneCandidateEnv (overlapGraph 3)
             [("7"%string, [contig 0; gap 5; contig 2; gap 3])]
             (initialState 3) st1 st2 x reg seen eq_refl Rd Rv).
  - vm_compute in Rd. injection Rd as _ <-. vm_compute in Rv. discriminate.
Defined.

(** ** The vertex queued for a new contig *)

Lemma alignPair_vertex (E : Env) (g : Graph) (solutions : ContigPaths)
    (st st' : State) (r : ContigPath) :
  alignPair E g solutions st = OK (r, st') ->
  nextContigID st' <> nextContigID st ->
  exists vp,
    g_newVertices st'
    = g_newVertices st
      ++ [mkNewVertex (nth 0 (hd [] solutions) noNode)
                      (newNode (nextContigID st))
                      (nth 0 (rev (hd [] solutions)) noNode) vp].
Proof.
  intros H Hne. unfold alignPair in H.
  destruct solutions as [|sol0 [|sol1 [|]]]; try discriminate H.
  minv H.
  all: explicit_states.
  all: first [ solve [exfalso; apply Hne; reflexivity]
             | solve [eexists; reflexivity] ].
Qed.

Lemma alignMulti_vertex (E : Env) (g : Graph) (solutions : list Path)
    (st st' : State) (r : ContigPath) :
  alignMulti E g solutions st = OK (r, st') ->
  nextContigID st' <> nextContigID st ->
  exists vp,
    g_newVertices st'
    = g_newVertices st
      ++ [mkNewVertex (nth (fst (commonPrefix solutions) - 1)
                           (hd [] solutions) noNode)
                      (newNode (nextContigID st))
                      (nth (fst (commonSuffix solutions) - 1)
                           (rev (hd [] solutions)) noNode) vp].
Proof.
  intros H Hne. unfold alignMulti in H.
  unfold commonSuffix. unfold commonPrefix, minLen in *.
  destruct (findPrefix solutions (hd [] solutions) _ 0 []) as [lp vp].
  cbn [fst snd] in *.
  destruct (findSuffix solutions (hd [] solutions) _ 0 []) as [ls vs].
  cbn [fst snd] in *.
  minv H.
  all: repeat match goal with
              | P : checkPalindromes _ _ _ _ _ _ _ = OK _ |- _ =>
                  apply checkPalindromes_inv in P; subst
              end.
  all: explicit_states.
  all: first [ solve [exfalso; apply Hne; reflexivity]
             | solve [eexists; reflexivity] ].
Qed.

Lemma nth_rev_last (l : Path) : nth 0 (rev l) noNode = last l noNode.
Proof.
  induction l as [|x l IH]; [reflexivity|].
  destruct l as [|y l]; [reflexivity|].
  change (rev (x :: y :: l)) with (rev (y :: l) ++ [x]).
  rewrite app_nth1 by (rewrite length_rev; simpl; lia).
  rewrite IH. reflexivity.
Qed.

Lemma made_none_same (st st' : State) :
  made 0 st st' -> nextContigID st' = nextContigID st.
Proof. intros (I & _). rewrite I. simpl. lia. Qed.

(** The contig that [align] makes stands in the path it returns between
    the two nodes of the vertex queued for it. *)
Lemma align_links (E : Env) (g : Graph) (solutions : list Path)
    (st st' : State) (r : ContigPath) :
  align E g solutions st = OK (r, st') ->
  nextContigID st' <> nextContigID st ->
  exists t v vp pre post,
    g_newVertices st'
    = g_newVertices st ++ [mkNewVertex t (newNode (nextContigID st)) v vp]
    /\ r = pre ++ [t; newNode (nextContigID st); v] ++ post.
Proof.
  intros H Hne. unfold align in H. minv H.
  - destruct (alignPair_vertex E g solutions st st' r H Hne) as (vp & V).
    apply alignPair_cases in H.
    destruct H as (sol0 & sol1 & -> & L0 & _ & _ & _ & Cases).
    destruct Cases as [(_ & Md & _)|[(_ & Md & _)|(-> & _)]];
      try (apply made_none_same in Md; contradiction).
    cbn [hd] in V. rewrite nth_rev_last in V.
    destruct sol0 as [|n0 sol0]; [simpl in L0; lia|].
    eexists _, _, vp, [], []. split; [exact V|]. reflexivity.
  - destruct (alignMulti_vertex E g solutions st st' r H Hne) as (vp & V).
    apply alignMulti_cases in H. destruct H as (Lp & Ls & Cases).
    destruct Cases as [(_ & Md & _)|[(_ & Md & _)|(-> & _)]];
      try (apply made_none_same in Md; contradiction).
    assert (Ne : solutions <> []).
    { intros ->. unfold commonPrefix in Lp. simpl in Lp. lia. }
    destruct (commonPrefix_facts solutions Ne) as (_ & _ & Pre & _).
    destruct (commonSuffix_facts solutions Ne) as (_ & Len & _ & Suf & _).
    cbv zeta in *.
    destruct solutions as [|first rest]; [contradiction|]. cbn [hd] in *.
    assert (Hin : In first (first :: rest)) by now left.
    pose proof (Len _ Hin) as Lf.
    rewrite <- (Pre _ Hin), <- (Suf _ Hin).
    set (lp := fst (commonPrefix (first :: rest))) in *.
    set (ls := fst (commonSuffix (first :: rest))) in *.
    exists (nth (lp - 1) first noNode), (nth (ls - 1) (rev first) noNode),
           vp, (firstn (lp - 1) first), (skipn (S (length first - ls)) first).
    split; [exact V|].
    rewrite rev_nth by lia.
    replace (length first - S (ls - 1))%nat with (length first - ls)%nat
      by lia.
    rewrite (skipn_cons_nth first (length first - ls)) by lia.
    replace (firstn lp first) with (firstn (S (lp - 1)) first)
      by (f_equal; lia).
    rewrite <- (firstn_snoc_nth first (lp - 1)) by lia.
    rewrite <- !app_assoc. reflexivity.
Qed.

(** X16. When [fillGap] makes a contig, the vertex it queues for the graph
    names the two nodes between which the contig stands in the
    resolution returned. *)
Theorem fillGap_links_contig (E : Env) (g : Graph)
    (ap : AmbPathConstraint) (seen seen' : list bool) (st st' : State)
    (r : ContigPath) :
  fillGap E g ap seen st = OK ((r, seen'), st') ->
  nextContigID st' <> nextContigID st ->
  exists t v vp pre post,
    g_newVertices st'
    = g_newVertices st ++ [mkNewVertex t (newNode (nextContigID st)) v vp]
    /\ r = pre ++ [t; newNode (nextContigID st); v] ++ post.
Proof.
  unfold fillGap.
  destruct (constrainedSearch E g (source ap) (searchConstraints E ap))
    as [solutions numVisited].
  intros H Hne. minv H;
    repeat match goal with
           | P : (_, _) = (_, _) |- _ => injection P as ? ?; subst
           end;
    try (exfalso; apply Hne; reflexivity).
  - match goal with
    | A : align _ _ _ _ = OK _ |- _ =>
        exact (align_links _ _ _ _ _ _ A Hne)
    end.
  - match goal with
    | A : align _ _ _ _ = OK _ |- _ =>
        destruct (align_links _ _ _ _ _ _ A Hne)
          as (t & v & vp & pre & post & _ & R)
    end.
    match goal with
    | N : negb (is_empty ?c) = false |- _ =>
        destruct c; [|discriminate N]
    end.
    destruct pre; discriminate R.
Qed.

(** The gap of the sample run between contigs 0 and 2. *)
Lemma fillGap_links_contig_witness :
  exists r seen' st',
    fillGap sampleRunEnv (overlapGraph 3)
            (mkConstraint (contig 0) (contig 2) (-5))
            (repeat false 8) (initialState 13)
    = OK ((r, seen'), st')
    /\ nextContigID st' <> nextContigID (initialState 13)
    /\ exists t v vp pre post,
         g_newVertices st'
         = g_newVertices (initialState 13)
           ++ [mkNewVertex t (newNode (nextContigID (initialState 13))) v vp]
         /\ r = pre ++ [t; newNode (nextContigID (initialState 13)); v]
                    ++ post.
Proof.
  destruct (fillGap sampleRunEnv (overlapGraph 3)
              (mkConstraint (contig 0) (contig 2) (-5))
              (repeat false 8) (initialState 13))
    as [[[r seen'] st']|] eqn:Hf; [|vm_compute in Hf; discriminate].
  assert (Ne : nextContigID st' <> nextContigID (initialState 13)).
  { vm_compute in Hf. injection Hf as _ _ <-. discriminate. }
  exists r, seen', st'. split; [reflexivity|]. split; [exact Ne|].
  exact (fillGap_links_contig sampleRunEnv (overlapGraph 3)
           (mkConstraint (contig 0) (contig 2) (-5))
           (repeat false 8) seen' (initialState 13) st' r Hf Ne).
Defined.
